(** * mariadb++ : the [connection] class (src/connection.cpp)

    A shallow embedding of [mariadb::connection].  The class is a thin
    wrapper around the native MySQL/MariaDB client library: every method
    is a short sequence of native calls that threads the session handle
    [m_mysql] and three cached values ([m_schema], [m_charset],
    [m_auto_commit]).

    The native library is not part of the repository, so it is a
    parameter of the development: a record [native] of transition
    functions over an abstract world [W].  Methods are state
    transformers over the connection object, the native world and the
    chronicle of native calls made so far.  [connect] is mutually
    recursive with the setters and with [execute]; the recursion is
    cut by a depth budget, and the do-while loop of [execute] by an
    iteration budget, and running out of either is the outcome
    [None]. *)

From Stdlib Require Import ZArith NArith List Ascii String Bool Lia.
Import ListNotations.
Local Open Scope string_scope.

(** ** Data *)

(** A non-NULL [MYSQL*]; a possibly-NULL pointer is an [option]. *)
Definition handle := positive.
(** A non-NULL [MYSQL_RES*]. *)
Definition res_handle := positive.

(** [u64] arithmetic: [affected_rows += n] wraps at 2^64. *)
Definition u64_modulus : N := 2 ^ 64.
Definition wrap64 (n : N) : N := (n mod u64_modulus)%N.
Definition u64_add (a b : N) : N := wrap64 (a + b).

(** Client flag of mysql.h, [1UL << 16]. *)
Definition CLIENT_MULTI_STATEMENTS : N := 65536.

(** The account object, as far as [connection] reads it.  [options] is
    the option map in the order in which the range-for visits it. *)
Record account := mk_account {
  host_name : string;
  user_name : string;
  password : string;
  schema_name : string;
  port : N;
  unix_socket : string;
  ssl_key : string;
  ssl_certificate : string;
  ssl_ca : string;
  ssl_ca_path : string;
  ssl_cipher : string;
  acc_auto_commit : bool;
  options : list (string * string)
}.

(** The data members of [connection]. *)
Record connection := mk_connection {
  m_auto_commit : bool;
  m_mysql : option handle;
  m_schema : string;
  m_charset : string;
  m_account : account
}.

(** [connection::connection(account)] *)
Definition new_connection (a : account) : connection :=
  {| m_auto_commit := true; m_mysql := None;
     m_schema := ""; m_charset := ""; m_account := a |}.

(** [std::string::empty] *)
Definition empty (s : string) : bool :=
  match s with EmptyString => true | _ => false end.

(** What a [const char*] taken with [std::string::c_str] denotes: the
    bytes before the first NUL.  A [std::string] built from it, as for
    the parameters of [set_schema] and of [execute] when they are
    called on [...c_str()], holds just those bytes. *)
Fixpoint c_str (s : string) : string :=
  match s with
  | EmptyString => EmptyString
  | String c rest =>
      if Ascii.eqb c "000"%char then EmptyString else String c (c_str rest)
  end.

Arguments c_str : simpl never.

(** Native calls and error reports, as they are recorded. *)
Inductive event :=
| EvInit
| EvSslSet (h : option handle)
| EvRealConnect (h : option handle)
| EvStat (h : option handle)
| EvSelectDb (h : option handle) (db : string)
| EvSetCharacterSet (h : option handle) (cs : string)
| EvAutocommit (h : option handle) (mode : bool)
| EvClose (h : handle)
| EvThreadEnd
| EvRealQuery (h : option handle) (q : string)
| EvStoreResult (h : option handle)
| EvFreeResult (r : res_handle)
| EvFieldCount (h : option handle)
| EvAffectedRows (h : option handle)
| EvNextResult (h : option handle)
| EvInsertId (h : option handle)
| EvReport (code : N) (msg : string).

(** Modelled from the spec: the [result_set] class is not among the
    sources; its constructor "assumes the native library already has a
    result pending and pulls/buffers it".  The object keeps the buffered
    result. *)
Record result_set := mk_result_set { rs_result : option res_handle }.

(** ** The native client library *)

Section Native.

Variable W : Type.

(** The functions of mysql.h that [connection] calls.  Calls that talk
    to the server or change the session return a new world; accessors
    only read it.  Integer results are [Z] ([int], [my_bool]) or [N]
    (unsigned).  A string parameter is the buffer the method hands
    over; what the library reads of it is the library's business. *)
Record native := mk_native {
  mysql_init : W -> option handle * W;
  mysql_ssl_set :
    option handle -> string -> string -> string -> string -> string ->
    W -> Z * W;
  mysql_real_connect :
    option handle -> string -> string -> string -> option string ->
    N -> option string -> N -> W -> option handle * W;
  mysql_stat : option handle -> W -> option string * W;
  mysql_select_db : option handle -> string -> W -> Z * W;
  mysql_set_character_set : option handle -> string -> W -> Z * W;
  mysql_autocommit : option handle -> bool -> W -> Z * W;
  mysql_close : handle -> W -> W;
  mysql_thread_end : W -> W;
  mysql_real_query : option handle -> string -> nat -> W -> Z * W;
  mysql_store_result : option handle -> W -> option res_handle * W;
  mysql_free_result : res_handle -> W -> W;
  mysql_field_count : option handle -> W -> N;
  mysql_affected_rows : option handle -> W -> N;
  mysql_next_result : option handle -> W -> Z * W;
  mysql_insert_id : option handle -> W -> N;
  mysql_errno : option handle -> W -> N;
  mysql_error : option handle -> W -> string
}.

(** ** Program state and the monad of methods *)

(** [calls] is the chronicle of native calls, newest first. *)
Record state := mk_state {
  conn : connection;
  world : W;
  calls : list event
}.

Definition M (A : Type) : Type := state -> option (A * state).

Definition ret {A} (a : A) : M A := fun s => Some (a, s).

Definition bind {A B} (m : M A) (f : A -> M B) : M B :=
  fun s => match m s with
           | Some (a, s') => f a s'
           | None => None
           end.

Definition out_of_budget {A} : M A := fun _ => None.

End Native.

Arguments mysql_init {W} _.
Arguments mysql_ssl_set {W} _.
Arguments mysql_real_connect {W} _.
Arguments mysql_stat {W} _.
Arguments mysql_select_db {W} _.
Arguments mysql_set_character_set {W} _.
Arguments mysql_autocommit {W} _.
Arguments mysql_close {W} _.
Arguments mysql_thread_end {W} _.
Arguments mysql_real_query {W} _.
Arguments mysql_store_result {W} _.
Arguments mysql_free_result {W} _.
Arguments mysql_field_count {W} _.
Arguments mysql_affected_rows {W} _.
Arguments mysql_next_result {W} _.
Arguments mysql_insert_id {W} _.
Arguments mysql_errno {W} _.
Arguments mysql_error {W} _.
Arguments mk_state {W}.
Arguments conn {W}.
Arguments world {W}.
Arguments calls {W}.
Arguments ret {W A}.
Arguments bind {W A B}.
Arguments out_of_budget {W A}.

Declare Scope conn_scope.
Delimit Scope conn_scope with conn.
Notation "x <- m ;; k" := (bind m (fun x => k))
  (at level 100, m at next level, right associativity) : conn_scope.
Notation "m ;;; k" := (bind m (fun _ => k))
  (at level 100, right associativity) : conn_scope.
Local Open Scope conn_scope.

(** ** The methods of [connection] *)

Section Connection.

Context {W : Type}.
Variable L : native W.

(** Iteration budget of the do-while loop of [execute]. *)
Variable loops : nat.

Definition with_mysql (c : connection) (h : option handle) : connection :=
  {| m_auto_commit := m_auto_commit c; m_mysql := h;
     m_schema := m_schema c; m_charset := m_charset c;
     m_account := m_account c |}.

Definition with_schema (c : connection) (v : string) : connection :=
  {| m_auto_commit := m_auto_commit c; m_mysql := m_mysql c;
     m_schema := v; m_charset := m_charset c;
     m_account := m_account c |}.

Definition with_charset (c : connection) (v : string) : connection :=
  {| m_auto_commit := m_auto_commit c; m_mysql := m_mysql c;
     m_schema := m_schema c; m_charset := v;
     m_account := m_account c |}.

Definition with_auto_commit (c : connection) (v : bool) : connection :=
  {| m_auto_commit := v; m_mysql := m_mysql c;
     m_schema := m_schema c; m_charset := m_charset c;
     m_account := m_account c |}.

(** Reading and writing [*this]. *)
Definition this : M W connection := fun s => Some (conn s, s).

Definition assign (f : connection -> connection) : M W unit :=
  fun s => Some (tt, mk_state (f (conn s)) (world s) (calls s)).

(** Native calls: one that returns a value and a new world, one that
    only changes the world, one that only reads. *)
Definition native_call {A} (e : event) (f : W -> A * W) : M W A :=
  fun s => let (a, w) := f (world s) in
           Some (a, mk_state (conn s) w (e :: calls s)).

Definition native_do (e : event) (f : W -> W) : M W unit :=
  fun s => Some (tt, mk_state (conn s) (f (world s)) (e :: calls s)).

Definition native_read {A} (e : event) (f : W -> A) : M W A :=
  fun s => Some (f (world s), mk_state (conn s) (world s) (e :: calls s)).

(** Modelled from the spec: the macro [MARIADB_ERROR] of private.hpp
    is not among the sources; "every failure is reported through a
    side-channel error-report call carrying the native error
    code/message, then converted to the operation's sentinel failure
    value - never thrown".  The report is recorded and control falls
    through. *)
Definition MARIADB_ERROR (code : N) (msg : string) : M W unit :=
  fun s => Some (tt, mk_state (conn s) (world s) (EvReport code msg :: calls s)).

(** Modelled from the spec: the macro [MYSQL_ERROR_NO_BRAKET] of
    private.hpp is not among the sources; it reports "the native error
    code and message" of the handle it is given, which at every use in
    this file is [m_mysql]. *)
Definition MYSQL_ERROR_NO_BRAKET : M W unit :=
  fun s => let h := m_mysql (conn s) in
           MARIADB_ERROR (mysql_errno L h (world s)) (mysql_error L h (world s)) s.

(** Modelled from the spec: the macro [MYSQL_ERROR_RETURN_FALSE] of
    private.hpp is not among the sources; the failure is reported and
    "converted to the operation's sentinel failure value", here
    [false]. *)
Definition MYSQL_ERROR_RETURN_FALSE : M W bool :=
  MYSQL_ERROR_NO_BRAKET ;;; ret false.

(** [connection::schema], [charset], [auto_commit]: cached accessors. *)
Definition schema (s : state W) : string := m_schema (conn s).
Definition charset (s : state W) : string := m_charset (conn s).
Definition auto_commit (s : state W) : bool := m_auto_commit (conn s).

(** [connection::connected] *)
Definition connected : M W bool :=
  c <- this ;;
  match m_mysql c with
  | None => ret false
  | Some h =>
      r <- native_call (EvStat (Some h)) (mysql_stat L (Some h)) ;;
      ret (match r with Some _ => true | None => false end)
  end.

(** [connection::disconnect] *)
Definition disconnect : M W unit :=
  c <- this ;;
  match m_mysql c with
  | None => ret tt
  | Some h =>
      native_do (EvClose h) (mysql_close L h) ;;;
      native_do EvThreadEnd (mysql_thread_end L) ;;;
      assign (fun c => with_mysql c None)
  end.

(** The macro [MYSQL_ERROR_DISCONNECT] defined at the top of the file. *)
Definition MYSQL_ERROR_DISCONNECT : M W bool :=
  MYSQL_ERROR_NO_BRAKET ;;; disconnect ;;; ret false.

(** [int] and [my_bool] results used as conditions. *)
Definition nonzero (z : Z) : bool := negb (z =? 0)%Z.

(** *** Methods that start with [if (!connect()) ...]

    They are written over the [connect] they call, so that [connect]
    can be defined afterwards by recursion on its depth budget. *)
Section Guarded.

Variable connect : M W bool.

(** [connection::set_schema] *)
Definition set_schema_with (name : string) : M W bool :=
  ok <- connect ;;
  if negb ok then ret false else
  c <- this ;;
  rc <- native_call (EvSelectDb (m_mysql c) name)
                    (mysql_select_db L (m_mysql c) name) ;;
  if nonzero rc then MYSQL_ERROR_RETURN_FALSE else
  assign (fun c => with_schema c name) ;;;
  ret true.

(** [connection::set_charset] *)
Definition set_charset_with (value : string) : M W bool :=
  ok <- connect ;;
  if negb ok then ret false else
  c <- this ;;
  rc <- native_call (EvSetCharacterSet (m_mysql c) value)
                    (mysql_set_character_set L (m_mysql c) value) ;;
  if nonzero rc then MYSQL_ERROR_RETURN_FALSE else
  assign (fun c => with_charset c value) ;;;
  ret true.

(** [connection::set_auto_commit] *)
Definition set_auto_commit_with (flag : bool) : M W bool :=
  c <- this ;;
  if Bool.eqb (m_auto_commit c) flag then ret true else
  ok <- connect ;;
  if negb ok then ret false else
  c <- this ;;
  rc <- native_call (EvAutocommit (m_mysql c) flag)
                    (mysql_autocommit L (m_mysql c) flag) ;;
  if nonzero rc then MYSQL_ERROR_RETURN_FALSE else
  assign (fun c => with_auto_commit c flag) ;;;
  ret true.

(** [mysql_real_query(m_mysql, query.c_str(), query.size())] *)
Definition real_query (q : string) : M W Z :=
  c <- this ;;
  native_call (EvRealQuery (m_mysql c) q)
              (mysql_real_query L (m_mysql c) q (String.length q)).

(** [connection::query].  [new result_set(this)] is the constructor
    modelled above: it buffers the pending result of the session. *)
Definition query_with (q : string) : M W (option result_set) :=
  ok <- connect ;;
  if negb ok then ret None else
  rc <- real_query q ;;
  if nonzero rc then MYSQL_ERROR_NO_BRAKET ;;; ret None else
  c <- this ;;
  r <- native_call (EvStoreResult (m_mysql c))
                   (mysql_store_result L (m_mysql c)) ;;
  ret (Some (mk_result_set r)).

(** The tail of one iteration of the do-while loop of [execute]:
    [mysql_next_result] and the test of its status.  [again] is the
    next iteration. *)
Definition advance (again : N -> M W N) (affected_rows : N) : M W N :=
  c <- this ;;
  status <- native_call (EvNextResult (m_mysql c))
                        (mysql_next_result L (m_mysql c)) ;;
  if (status >? 0)%Z then MYSQL_ERROR_NO_BRAKET ;;; ret affected_rows
  else if (status =? 0)%Z then again affected_rows
  else ret affected_rows.

(** The do-while loop of [execute]. *)
Fixpoint execute_loop (n : nat) (affected_rows : N) : M W N :=
  match n with
  | O => out_of_budget
  | S n' =>
      c <- this ;;
      result <- native_call (EvStoreResult (m_mysql c))
                            (mysql_store_result L (m_mysql c)) ;;
      match result with
      | Some r =>
          native_do (EvFreeResult r) (mysql_free_result L r) ;;;
          advance (execute_loop n') affected_rows
      | None =>
          fc <- native_read (EvFieldCount (m_mysql c))
                            (mysql_field_count L (m_mysql c)) ;;
          if (fc =? 0)%N then
            ar <- native_read (EvAffectedRows (m_mysql c))
                              (mysql_affected_rows L (m_mysql c)) ;;
            advance (execute_loop n') (u64_add affected_rows ar)
          else
            MYSQL_ERROR_NO_BRAKET ;;; ret affected_rows
      end
  end.

(** [connection::execute] *)
Definition execute_with (q : string) : M W N :=
  ok <- connect ;;
  if negb ok then ret 0%N else
  rc <- real_query q ;;
  if nonzero rc then MYSQL_ERROR_NO_BRAKET ;;; ret 0%N else
  execute_loop loops 0%N.

(** [connection::insert] *)
Definition insert_with (q : string) : M W N :=
  ok <- connect ;;
  if negb ok then ret 0%N else
  rc <- real_query q ;;
  if nonzero rc then MYSQL_ERROR_NO_BRAKET ;;; ret 0%N else
  c <- this ;;
  native_read (EvInsertId (m_mysql c)) (mysql_insert_id L (m_mysql c)).

(** The text sent for one entry of the option map. *)
Definition option_statement (kv : string * string) : string :=
  "SET OPTION " ++ fst kv ++ "=" ++ snd kv.

(** The range-for over [m_account->options()] at the end of [connect],
    followed by its [return true].  The text reaches [execute] as
    [(...).c_str()]. *)
Fixpoint connect_options (opts : list (string * string)) : M W bool :=
  match opts with
  | [] => ret true
  | kv :: rest =>
      n <- execute_with (c_str (option_statement kv)) ;;
      if negb (n =? 1)%N then MYSQL_ERROR_DISCONNECT
      else connect_options rest
  end.

(** [connect] after the handshake: autocommit, schema, options.  The
    emptiness test is on the account's schema, the call on its
    [c_str()]. *)
Definition connect_setup : M W bool :=
  c <- this ;;
  ok <- set_auto_commit_with (acc_auto_commit (m_account c)) ;;
  if negb ok then MYSQL_ERROR_DISCONNECT else
  c <- this ;;
  ok <- (if negb (empty (schema_name (m_account c)))
         then set_schema_with (c_str (schema_name (m_account c)))
         else ret true) ;;
  if negb ok then MYSQL_ERROR_DISCONNECT else
  c <- this ;;
  connect_options (options (m_account c)).

(** [mysql_ssl_set] with the account's TLS fields. *)
Definition ssl_set : M W Z :=
  c <- this ;;
  let a := m_account c in
  native_call (EvSslSet (m_mysql c))
    (mysql_ssl_set L (m_mysql c) (ssl_key a) (ssl_certificate a)
                   (ssl_ca a) (ssl_ca_path a) (ssl_cipher a)).

(** [mysql_real_connect] with the account's fields, no default
    database and multi-statement mode. *)
Definition real_connect : M W (option handle) :=
  c <- this ;;
  let a := m_account c in
  native_call (EvRealConnect (m_mysql c))
    (mysql_real_connect L (m_mysql c) (host_name a) (user_name a)
       (password a) None (port a)
       (if empty (unix_socket a) then None else Some (unix_socket a))
       CLIENT_MULTI_STATEMENTS).

(** [connect] from [mysql_ssl_set] on, once [mysql_init] has returned
    a handle. *)
Definition connect_handshake : M W bool :=
  c <- this ;;
  tls <- (if negb (empty (ssl_key (m_account c)))
          then rc <- ssl_set ;; ret (nonzero rc)
          else ret false) ;;
  if tls then MYSQL_ERROR_RETURN_FALSE else
  p <- real_connect ;;
  match p with
  | None => MYSQL_ERROR_RETURN_FALSE
  | Some _ => connect_setup
  end.

(** The body of [connection::connect]. *)
Definition connect_body : M W bool :=
  live <- connected ;;
  if live then ret true else
  p <- native_call EvInit (mysql_init L) ;;
  assign (fun c => with_mysql c p) ;;;
  match p with
  | None => MARIADB_ERROR 0 "Cannot create MYSQL object." ;;; ret false
  | Some _ => connect_handshake
  end.

End Guarded.

(** [connection::connect], with a budget on the depth of its recursion
    through [set_auto_commit], [set_schema] and [execute]. *)
Fixpoint connect (depth : nat) : M W bool :=
  match depth with
  | O => out_of_budget
  | S d => connect_body (connect d)
  end.

Definition set_schema (depth : nat) := set_schema_with (connect depth).
Definition set_charset (depth : nat) := set_charset_with (connect depth).
Definition set_auto_commit (depth : nat) := set_auto_commit_with (connect depth).
Definition query (depth : nat) := query_with (connect depth).
Definition execute (depth : nat) := execute_with (connect depth).
Definition insert (depth : nat) := insert_with (connect depth).

End Connection.

Arguments connected {W} L.
Arguments disconnect {W} L.

(** ** What the native library answers to one submitted text *)

Section Answers.

Context {W : Type}.
Variable L : native W.

(** One result of a submitted text, as [execute] treats it: a buffered
    result set that is freed, or a statement without fields whose
    affected rows are counted. *)
Inductive item :=
| Discarded (r : res_handle)
| Counted (rows : N).

(** How the sequence of results ends. *)
Inductive ending :=
| Finished (status : Z)
| StoreFailed (fields : N)
| NextFailed (status : Z).

Definition failed (e : ending) : bool :=
  match e with Finished _ => false | _ => true end.

(** The library hands over one result. *)
Inductive hands_over (h : option handle) : W -> item -> W -> Prop :=
| ho_set w r w1 :
    mysql_store_result L h w = (Some r, w1) ->
    hands_over h w (Discarded r) (mysql_free_result L r w1)
| ho_count w w1 :
    mysql_store_result L h w = (None, w1) ->
    mysql_field_count L h w1 = 0%N ->
    hands_over h w (Counted (mysql_affected_rows L h w1)) w1.

(** [answers h w items e w']: starting in world [w], the library hands
    over [items] one after the other on handle [h], ends with [e], and
    leaves world [w']. *)
Inductive answers (h : option handle) : W -> list item -> ending -> W -> Prop :=
| ans_store_failed w w1 :
    mysql_store_result L h w = (None, w1) ->
    mysql_field_count L h w1 <> 0%N ->
    answers h w [] (StoreFailed (mysql_field_count L h w1)) w1
| ans_finished w i w1 status w2 :
    hands_over h w i w1 ->
    mysql_next_result L h w1 = (status, w2) ->
    (status < 0)%Z ->
    answers h w [i] (Finished status) w2
| ans_next_failed w i w1 status w2 :
    hands_over h w i w1 ->
    mysql_next_result L h w1 = (status, w2) ->
    (status > 0)%Z ->
    answers h w [i] (NextFailed status) w2
| ans_more w i w1 w2 items e w3 :
    hands_over h w i w1 ->
    mysql_next_result L h w1 = (0%Z, w2) ->
    answers h w2 items e w3 ->
    answers h w (i :: items) e w3.

(** The affected rows of a sequence of results, as a number. *)
Fixpoint affected (items : list item) : N :=
  match items with
  | [] => 0
  | Discarded _ :: rest => affected rest
  | Counted n :: rest => n + affected rest
  end%N.

(** Number of error reports in a chronicle. *)
Fixpoint reports (l : list event) : nat :=
  match l with
  | [] => O
  | EvReport _ _ :: rest => S (reports rest)
  | _ :: rest => reports rest
  end.

(** Number of handshakes in a chronicle. *)
Fixpoint handshakes (l : list event) : nat :=
  match l with
  | [] => O
  | EvRealConnect _ :: rest => S (handshakes rest)
  | _ :: rest => handshakes rest
  end.

(** Number of handle allocations in a chronicle. *)
Fixpoint allocations (l : list event) : nat :=
  match l with
  | [] => O
  | EvInit :: rest => S (allocations rest)
  | _ :: rest => allocations rest
  end.

(** Number of [mysql_close] calls in a chronicle. *)
Fixpoint closes (l : list event) : nat :=
  match l with
  | [] => O
  | EvClose _ :: rest => S (closes rest)
  | _ :: rest => closes rest
  end.

(** The counter after a sequence of results, as the loop computes it. *)
Definition count (acc : N) (i : item) : N :=
  match i with
  | Discarded _ => acc
  | Counted n => u64_add acc n
  end.

Definition tally (acc : N) (items : list item) : N :=
  fold_left count items acc.

(** The native calls of one iteration that hands over [i], newest
    first. *)
Definition fetch_calls (h : option handle) (i : item) : list event :=
  match i with
  | Discarded r => [EvFreeResult r; EvStoreResult h]
  | Counted _ => [EvAffectedRows h; EvFieldCount h; EvStoreResult h]
  end.

(** [keeps R m]: whenever [m] returns, the states before and after are
    related by [R]. *)
Definition keeps {A} (R : state W -> state W -> Prop) (m : M W A) : Prop :=
  forall s a s', m s = Some (a, s') -> R s s'.

(** A relation that every step outside [*this] respects. *)
Record frame (R : state W -> state W -> Prop) : Prop := {
  fr_refl : forall s, R s s;
  fr_trans : forall s1 s2 s3, R s1 s2 -> R s2 s3 -> R s1 s3;
  fr_world : forall s w cs, R s (mk_state (conn s) w cs)
}.

Definition same_conn (s s' : state W) : Prop := conn s' = conn s.

Definition same_account (s s' : state W) : Prop :=
  m_account (conn s') = m_account (conn s).

(** The cached values that only the setters write. *)
Definition same_caches (s s' : state W) : Prop :=
  m_schema (conn s') = m_schema (conn s) /\
  m_charset (conn s') = m_charset (conn s) /\
  m_auto_commit (conn s') = m_auto_commit (conn s).

(** [applied exec opts s s']: running [exec] on the statement of each
    entry of [opts] in turn, as [connect] hands it over, from [s],
    returns 1 every time and ends in [s']. *)
Inductive applied (exec : string -> M W N) :
  list (string * string) -> state W -> state W -> Prop :=
| applied_nil s : applied exec [] s s
| applied_cons kv rest s s1 s' :
    exec (c_str (option_statement kv)) s = Some (1%N, s1) ->
    applied exec rest s1 s' ->
    applied exec (kv :: rest) s s'.

(** The session is well behaved for [k] loop iterations: some property
    [live] of a handle and a world holds after every accepted
    handshake, makes the status probe succeed, is kept by the calls
    that [connect] makes afterwards, and every accepted text is
    answered by fewer than [k] results. *)
Record steady (k : nat) (live : option handle -> W -> Prop) : Prop := {
  st_handshake : forall h host user pw db pt sock fl w h' w',
    mysql_real_connect L h host user pw db pt sock fl w = (Some h', w') ->
    live h w';
  st_probe : forall h w, live h w ->
    exists txt w', mysql_stat L h w = (Some txt, w') /\ live h w';
  st_autocommit : forall h b w, live h w ->
    live h (snd (mysql_autocommit L h b w));
  st_select_db : forall h db w, live h w ->
    live h (snd (mysql_select_db L h db w));
  st_query : forall h q n w, live h w ->
    live h (snd (mysql_real_query L h q n w)) /\
    (fst (mysql_real_query L h q n w) = 0%Z ->
     exists items e w',
       answers h (snd (mysql_real_query L h q n w)) items e w' /\
       (List.length items < k)%nat /\ live h w')
}.

(** The session is well behaved: as [steady], but an accepted text is
    only asked to have a finite sequence of results, of whatever
    length. *)
Record settled (live : option handle -> W -> Prop) : Prop := {
  se_handshake : forall h host user pw db pt sock fl w h' w',
    mysql_real_connect L h host user pw db pt sock fl w = (Some h', w') ->
    live h w';
  se_probe : forall h w, live h w ->
    exists txt w', mysql_stat L h w = (Some txt, w') /\ live h w';
  se_autocommit : forall h b w, live h w ->
    live h (snd (mysql_autocommit L h b w));
  se_select_db : forall h db w, live h w ->
    live h (snd (mysql_select_db L h db w));
  se_query : forall h q n w, live h w ->
    live h (snd (mysql_real_query L h q n w)) /\
    (fst (mysql_real_query L h q n w) = 0%Z ->
     exists items e w',
       answers h (snd (mysql_real_query L h q n w)) items e w' /\
       live h w')
}.

(** The connection holds a handle whose session is [live]. *)
Definition linked (live : option handle -> W -> Prop) (s : state W) : Prop :=
  (exists h, m_mysql (conn s) = Some h) /\ live (m_mysql (conn s)) (world s).

End Answers.

(** ** A scripted native library

    A small deterministic client library and server, used to run the
    methods on concrete inputs.  The [config] is what the server always
    does; the [server] record is what changes. *)

Module Mock.

(** What the server has ready for one statement of a submitted text. *)
Inductive reply :=
| RowSet (r : res_handle)      (* a result set, buffered on request *)
| RowCount (n : N)             (* no fields, [n] rows affected *)
| NoStore (fields : N)         (* fields announced, buffering fails *)
| Abort.                       (* the statement fails on the server *)

Record config := mk_config {
  cf_alloc : bool;                   (* [mysql_init] finds memory *)
  cf_tls : bool;                     (* TLS parameters are accepted *)
  cf_up : bool;                      (* the handshake is accepted *)
  cf_probe : bool;                   (* the statistics probe is answered *)
  cf_schemas : list string;          (* databases that exist *)
  cf_script : string -> list reply   (* replies to a text; [[]] rejects it *)
}.

Record server := mk_server {
  sv_autocommit : nat;               (* autocommit requests still honoured *)
  sv_session : option handle;        (* handle of the open session *)
  sv_pending : list reply;           (* results not yet passed over *)
  sv_fresh : handle                  (* next handle [mysql_init] returns *)
}.

Definition set_session (w : server) (h : option handle) : server :=
  mk_server (sv_autocommit w) h [] (sv_fresh w).

Definition set_pending (w : server) (p : list reply) : server :=
  mk_server (sv_autocommit w) (sv_session w) p (sv_fresh w).

Definition set_autocommit (w : server) (n : nat) : server :=
  mk_server n (sv_session w) (sv_pending w) (sv_fresh w).

Definition set_fresh (w : server) (h : handle) : server :=
  mk_server (sv_autocommit w) (sv_session w) (sv_pending w) h.

Definition same_handle (a b : option handle) : bool :=
  match a, b with
  | Some x, Some y => Pos.eqb x y
  | _, _ => false
  end.

Definition knows (l : list string) (x : string) : bool :=
  existsb (String.eqb x) l.

Definition lib (c : config) : native server := {|
  mysql_init := fun w =>
    if cf_alloc c
    then (Some (sv_fresh w), set_fresh w (Pos.succ (sv_fresh w)))
    else (None, w);
  mysql_ssl_set := fun _ _ _ _ _ _ w =>
    ((if cf_tls c then 0 else 1)%Z, w);
  mysql_real_connect := fun h _ _ _ _ _ _ _ w =>
    match h with
    | Some _ => if cf_up c then (h, set_session w h) else (None, w)
    | None => (None, w)
    end;
  mysql_stat := fun h w =>
    (if cf_probe c && same_handle h (sv_session w)
     then Some "Uptime: 1" else None, w);
  mysql_select_db := fun _ db w =>
    ((if knows (cf_schemas c) db then 0 else 1)%Z, w);
  mysql_set_character_set := fun _ _ w => (0%Z, w);
  mysql_autocommit := fun _ _ w =>
    match sv_autocommit w with
    | O => (1%Z, w)
    | S n => (0%Z, set_autocommit w n)
    end;
  mysql_close := fun h w =>
    if same_handle (Some h) (sv_session w) then set_session w None else w;
  mysql_thread_end := fun w => w;
  mysql_real_query := fun _ q _ w =>
    match cf_script c q with
    | [] => (1%Z, set_pending w [])
    | rs => (0%Z, set_pending w rs)
    end;
  mysql_store_result := fun _ w =>
    (match sv_pending w with RowSet r :: _ => Some r | _ => None end, w);
  mysql_free_result := fun _ w => w;
  mysql_field_count := fun _ w =>
    match sv_pending w with
    | RowSet _ :: _ => 1%N
    | NoStore f :: _ => f
    | _ => 0%N
    end;
  mysql_affected_rows := fun _ w =>
    match sv_pending w with
    | RowCount n :: _ => n
    | _ => (u64_modulus - 1)%N
    end;
  mysql_next_result := fun _ w =>
    match sv_pending w with
    | _ :: Abort :: _ => (1%Z, set_pending w [])
    | _ :: (_ :: _) as rest => (0%Z, set_pending w rest)
    | _ => ((-1)%Z, set_pending w [])
    end;
  mysql_insert_id := fun _ _ => 0%N;
  mysql_errno := fun _ w =>
    match sv_session w with Some _ => 1064%N | None => 2002%N end;
  mysql_error := fun _ _ => "error"
|}.

(** A configuration on which everything works; [script] is what the
    server replies. *)
Definition works (script : string -> list reply) : config := {|
  cf_alloc := true; cf_tls := true; cf_up := true; cf_probe := true;
  cf_schemas := ["db1"]; cf_script := script
|}.

(** The server cannot be reached: the handshake fails. *)
Definition unreachable : config := {|
  cf_alloc := true; cf_tls := true; cf_up := false; cf_probe := true;
  cf_schemas := ["db1"]; cf_script := fun _ => []
|}.

(** The client library rejects the TLS parameters. *)
Definition tls_rejected : config := {|
  cf_alloc := true; cf_tls := false; cf_up := true; cf_probe := true;
  cf_schemas := ["db1"]; cf_script := fun _ => []
|}.

(** The server accepts the handshake but never answers the status
    probe. *)
Definition mute : config := {|
  cf_alloc := true; cf_tls := true; cf_up := true; cf_probe := false;
  cf_schemas := ["db1"]; cf_script := fun _ => []
|}.

(** A server that has not been contacted, willing to switch autocommit
    [n] times. *)
Definition idle (n : nat) : server := {|
  sv_autocommit := n; sv_session := None; sv_pending := [];
  sv_fresh := 1%positive
|}.

(** An account with no TLS key, no default schema and no options. *)
Definition guest : account := {|
  host_name := "localhost"; user_name := "guest"; password := "";
  schema_name := ""; port := 3306; unix_socket := "";
  ssl_key := ""; ssl_certificate := ""; ssl_ca := ""; ssl_ca_path := "";
  ssl_cipher := ""; acc_auto_commit := true; options := []
|}.

(** The same account with a default schema, an autocommit default and
    options. *)
Definition tuned (db : string) (ac : bool) (opts : list (string * string))
  : account := {|
  host_name := "localhost"; user_name := "guest"; password := "";
  schema_name := db; port := 3306; unix_socket := "";
  ssl_key := ""; ssl_certificate := ""; ssl_ca := ""; ssl_ca_path := "";
  ssl_cipher := ""; acc_auto_commit := ac; options := opts
|}.

(** The guest account with a TLS key. *)
Definition secured : account := {|
  host_name := "localhost"; user_name := "guest"; password := "";
  schema_name := ""; port := 3306; unix_socket := "";
  ssl_key := "client-key.pem"; ssl_certificate := "client-cert.pem";
  ssl_ca := "ca.pem"; ssl_ca_path := ""; ssl_cipher := "";
  acc_auto_commit := true; options := []
|}.

(** A connection just constructed, before any call. *)
Definition fresh (a : account) (w : server) : state server :=
  mk_state (new_connection a) w [].

(** A connection whose session on handle 1 is open. *)
Definition online (a : account) (n : nat) : state server :=
  mk_state (with_mysql (new_connection a) (Some 1%positive))
           (mk_server n (Some 1%positive) [] 2%positive) [].

(** A text with two inserts around a select. *)
Definition batch (q : string) : list reply :=
  if String.eqb q "INSERT a; SELECT b; INSERT c"
  then [RowCount 2; RowSet 7%positive; RowCount 3]
  else [].

(** A text whose second statement fails on the server. *)
Definition broken (q : string) : list reply :=
  if String.eqb q "INSERT a; INSERT a; INSERT c"
  then [RowCount 2; Abort; RowCount 5]
  else [].

(** The session of handle [h] is open on the server. *)
Definition open_on (h : option handle) (w : server) : Prop :=
  match h with
  | Some x => sv_session w = Some x
  | None => False
  end.

(** Every text is one statement that affects one row. *)
Definition one_row (q : string) : list reply := [RowCount 1].

(** One counted result for every byte of the text: the number of
    results grows with the text. *)
Fixpoint echo (q : string) : list reply :=
  match q with
  | EmptyString => []
  | String _ rest => RowCount 1 :: echo rest
  end.

(** An option value with a NUL byte in it: [b], NUL, [c]. *)
Definition nul_value : string := String "b" (String "000" (String "c" EmptyString)).

End Mock.

(** ** Sessions of calls and invariants of the chronicle *)

(** A call of one of the nine methods embedded above: [connect],
    [disconnect], [connected], [set_schema], [set_charset],
    [set_auto_commit], [query], [execute] and [insert].  The accessors
    [schema], [charset], [auto_commit] and [account] only read the
    object.  [create_statement] and [create_transaction] call
    [connect()] and then the constructor of a class that is defined
    outside connection.cpp, whose own native calls are not known
    here: they are not requests, and what is stated over requests
    does not speak of them. *)
Inductive request :=
| Connect
| Disconnect
| Connected
| SetSchema (name : string)
| SetCharset (value : string)
| SetAutoCommit (flag : bool)
| Query (q : string)
| Execute (q : string)
| Insert (q : string).

Section Sessions.

Context {W : Type}.
Variable L : native W.
Variable loops : nat.
Variable depth : nat.

(** A call whose result the caller drops. *)
Definition discard {A} (m : M W A) : M W unit := bind m (fun _ => ret tt).

(** The method a request stands for. *)
Definition serve (r : request) : M W unit :=
  match r with
  | Connect => discard (connect L loops depth)
  | Disconnect => disconnect L
  | Connected => discard (connected L)
  | SetSchema name => discard (set_schema L loops depth name)
  | SetCharset value => discard (set_charset L loops depth value)
  | SetAutoCommit flag => discard (set_auto_commit L loops depth flag)
  | Query q => discard (query L loops depth q)
  | Execute q => discard (execute L loops depth q)
  | Insert q => discard (insert L loops depth q)
  end.

(** A client program: requests served one after the other. *)
Fixpoint serve_all (rs : list request) : M W unit :=
  match rs with
  | [] => ret tt
  | r :: rest => bind (serve r) (fun _ => serve_all rest)
  end.

End Sessions.

(** The pointer is the non-NULL handle [h]. *)
Definition is_handle (h : handle) (x : option handle) : bool :=
  match x with
  | Some y => Pos.eqb y h
  | None => false
  end.

(** The native calls made on an established handle [h]: everything but
    allocation, TLS setup, handshake and release. *)
Definition routine (h : handle) (e : event) : bool :=
  match e with
  | EvStat x | EvSelectDb x _ | EvSetCharacterSet x _ | EvAutocommit x _
  | EvRealQuery x _ | EvStoreResult x | EvFieldCount x | EvAffectedRows x
  | EvNextResult x | EvInsertId x => is_handle h x
  | EvFreeResult _ => true
  | _ => false
  end.

(** A property of the connection object and the chronicle that every
    step a method can take respects. *)
Record chronicle_invariant (I : connection -> list event -> Prop) : Prop := {
  ci_routine : forall c l h e,
    m_mysql c = Some h -> routine h e = true -> I c l -> I c (e :: l);
  ci_report : forall c l code msg, I c l -> I c (EvReport code msg :: l);
  ci_init : forall c l p, I c l -> I (with_mysql c p) (EvInit :: l);
  ci_ssl_set : forall c l h,
    m_mysql c = Some h -> empty (ssl_key (m_account c)) = false ->
    I c l -> I c (EvSslSet (Some h) :: l);
  ci_real_connect : forall c l h,
    m_mysql c = Some h -> I c l -> I c (EvRealConnect (Some h) :: l);
  ci_disconnect : forall c l h,
    m_mysql c = Some h -> I c l ->
    I (with_mysql c None) (EvThreadEnd :: EvClose h :: l);
  ci_schema : forall c l v, I c l -> I (with_schema c v) l;
  ci_charset : forall c l v, I c l -> I (with_charset c v) l;
  ci_auto_commit : forall c l v, I c l -> I (with_auto_commit c v) l
}.

(** The event hands a NULL session pointer to the native library. *)
Definition passes_null (e : event) : bool :=
  match e with
  | EvSslSet None | EvRealConnect None | EvStat None | EvSelectDb None _
  | EvSetCharacterSet None _ | EvAutocommit None _ | EvRealQuery None _
  | EvStoreResult None | EvFieldCount None | EvAffectedRows None
  | EvNextResult None | EvInsertId None => true
  | _ => false
  end.

(** No native call of the chronicle was given a NULL session pointer. *)
Definition null_free (l : list event) : bool :=
  forallb (fun e => negb (passes_null e)) l.

(** Every [mysql_close] of the chronicle (newest first) is directly
    followed by a [mysql_thread_end], and there is no other
    [mysql_thread_end]. *)
Fixpoint paired (l : list event) : bool :=
  match l with
  | [] => true
  | EvThreadEnd :: EvClose _ :: rest => paired rest
  | EvThreadEnd :: _ => false
  | EvClose _ :: _ => false
  | _ :: rest => paired rest
  end.

(** Number of [mysql_ssl_set] calls in a chronicle. *)
Fixpoint tls_setups (l : list event) : nat :=
  match l with
  | [] => O
  | EvSslSet _ :: rest => S (tls_setups rest)
  | _ :: rest => tls_setups rest
  end.

(** Number of [mysql_autocommit] calls in a chronicle. *)
Fixpoint autocommits (l : list event) : nat :=
  match l with
  | [] => O
  | EvAutocommit _ _ :: rest => S (autocommits rest)
  | _ :: rest => autocommits rest
  end.

(** 1 when the connection holds a handle, 0 when [m_mysql] is NULL. *)
Definition held (c : connection) : nat :=
  match m_mysql c with Some _ => 1 | None => 0 end.

(** The caches agree with the account: the autocommit flag is the
    account's default, and when the account names a schema the schema
    cache holds it as a C string. *)
Definition defaults_applied (c : connection) : Prop :=
  m_auto_commit c = acc_auto_commit (m_account c) /\
  (empty (schema_name (m_account c)) = false ->
   m_schema c = c_str (schema_name (m_account c))).

(** The chronicle [l] is [base] with further entries in front. *)
Definition grown (base l : list event) : Prop :=
  exists new, l = (new ++ base)%list.

(** Since [base], the text [q] has been handed to [mysql_real_query]
    on some handle. *)
Definition sent (base : list event) (q : string) (l : list event) : Prop :=
  exists new h, l = (new ++ base)%list /\ In (EvRealQuery (Some h) q) new.

(** * Properties *)

(** ** Arithmetic of the affected-row counter *)

Lemma wrap64_small n : (n < u64_modulus)%N -> wrap64 n = n.
Proof. intro H. unfold wrap64. now apply N.mod_small. Qed.

Lemma u64_add_wrap_l a b : u64_add (wrap64 a) b = wrap64 (a + b).
Proof. unfold u64_add, wrap64. apply N.Div0.add_mod_idemp_l. Qed.

(** ** Frames: what a method leaves alone *)

Section Frames.

Context {W : Type}.
Variable L : native W.




Lemma frame_same_conn : frame (@same_conn W).
Proof.
  split; unfold same_conn; intros; simpl; congruence.
Qed.

Lemma frame_same_account : frame (@same_account W).
Proof.
  split; unfold same_account; intros; simpl; congruence.
Qed.

Section Generic.

Variable R : state W -> state W -> Prop.
Hypothesis FR : frame R.

Lemma keeps_ret {A} (a : A) : keeps R (ret a).
Proof. intros s x s' H. inversion H; subst. apply (fr_refl _ FR). Qed.

Lemma keeps_out {A} : keeps R (@out_of_budget W A).
Proof. intros s x s' H. discriminate H. Qed.

Lemma keeps_bind {A B} (m : M W A) (f : A -> M W B) :
  keeps R m -> (forall a, keeps R (f a)) -> keeps R (bind m f).
Proof.
  intros Hm Hf s b s' H. unfold bind in H.
  destruct (m s) as [[a s1]|] eqn:E; [|discriminate].
  eapply (fr_trans _ FR); [eapply Hm; eassumption | eapply Hf; eassumption].
Qed.

Lemma keeps_this : keeps R this.
Proof. intros s x s' H. inversion H; subst. apply (fr_refl _ FR). Qed.

Lemma keeps_native_call {A} e (f : W -> A * W) : keeps R (native_call e f).
Proof.
  intros s x s' H. unfold native_call in H.
  destruct (f (world s)) as [a w]. inversion H; subst. apply (fr_world _ FR).
Qed.

Lemma keeps_native_do e (f : W -> W) : keeps R (native_do e f).
Proof. intros s x s' H. inversion H; subst. apply (fr_world _ FR). Qed.

Lemma keeps_native_read {A} e (f : W -> A) : keeps R (native_read e f).
Proof. intros s x s' H. inversion H; subst. apply (fr_world _ FR). Qed.

Lemma keeps_MARIADB_ERROR c m : keeps R (MARIADB_ERROR c m).
Proof. intros s x s' H. inversion H; subst. apply (fr_world _ FR). Qed.

Lemma keeps_MYSQL_ERROR_NO_BRAKET : keeps R (MYSQL_ERROR_NO_BRAKET L).
Proof. intros s x s' H. inversion H; subst. apply (fr_world _ FR). Qed.

End Generic.

End Frames.

Create HintDb frames.
#[local] Hint Resolve frame_same_conn frame_same_account : frames.

(** One step of a frame proof: split a bind, decide a test, or close a
    primitive. *)
Ltac keeps_step :=
  match goal with
  | H : keeps ?R ?c |- keeps ?R ?c => exact H
  | H : forall x, keeps ?R (?c x) |- keeps ?R (?c _) => apply H
  | |- keeps _ (bind _ _) => apply keeps_bind; [auto with frames | | intro]
  | |- keeps _ (ret _) => apply keeps_ret; auto with frames
  | |- keeps _ out_of_budget => apply keeps_out
  | |- keeps _ this => apply keeps_this; auto with frames
  | |- keeps _ (native_call _ _) => apply keeps_native_call; auto with frames
  | |- keeps _ (native_do _ _) => apply keeps_native_do; auto with frames
  | |- keeps _ (native_read _ _) => apply keeps_native_read; auto with frames
  | |- keeps _ (MARIADB_ERROR _ _) => apply keeps_MARIADB_ERROR; auto with frames
  | |- keeps _ (MYSQL_ERROR_NO_BRAKET _) =>
      apply keeps_MYSQL_ERROR_NO_BRAKET; auto with frames
  | |- keeps _ (if ?b then _ else _) => destruct b
  | |- keeps _ (match ?x with _ => _ end) => destruct x
  end.

Section FrameLemmas.

Context {W : Type}.
Variable L : native W.
Variable k : nat.

Section AnyFrame.

Variable R : state W -> state W -> Prop.
Hypothesis FR : frame R.

Lemma keeps_advance again acc :
  (forall a, keeps R (again a)) -> keeps R (advance L again acc).
Proof.
  intro H. unfold advance. repeat keeps_step.
Qed.

Lemma keeps_execute_loop n : forall acc, keeps R (execute_loop L n acc).
Proof.
  induction n as [|n IH]; intro acc; simpl.
  - keeps_step.
  - repeat first [apply keeps_advance; assumption | keeps_step].
Qed.

Lemma keeps_real_query q : keeps R (real_query L q).
Proof. unfold real_query. repeat keeps_step. Qed.

End AnyFrame.

(** The account is never reassigned. *)
Lemma keeps_account_assign f :
  (forall c, m_account (f c) = m_account c) ->
  keeps (@same_account W) (assign f).
Proof.
  intros Hf s x s' H. inversion H; subst. unfold same_account. simpl. apply Hf.
Qed.

Lemma keeps_account_disconnect : keeps same_account (disconnect L).
Proof.
  unfold disconnect.
  repeat first [apply keeps_account_assign; reflexivity | keeps_step].
Qed.

Section Guard.

Variable guard : M W bool.
Hypothesis Hguard : keeps same_account guard.

Ltac account_step :=
  first [ apply keeps_account_assign; reflexivity
        | apply keeps_account_disconnect
        | apply keeps_execute_loop; auto with frames
        | apply keeps_real_query; auto with frames
        | keeps_step ].

Lemma keeps_account_set_schema name :
  keeps same_account (set_schema_with L guard name).
Proof.
  unfold set_schema_with, MYSQL_ERROR_RETURN_FALSE. repeat account_step.
Qed.

Lemma keeps_account_set_auto_commit flag :
  keeps same_account (set_auto_commit_with L guard flag).
Proof.
  unfold set_auto_commit_with, MYSQL_ERROR_RETURN_FALSE. repeat account_step.
Qed.

Lemma keeps_account_execute q :
  keeps same_account (execute_with L k guard q).
Proof.
  unfold execute_with. repeat account_step.
Qed.

Lemma keeps_account_options opts :
  keeps same_account (connect_options L k guard opts).
Proof.
  induction opts as [|kv rest IH]; simpl.
  - keeps_step.
  - unfold MYSQL_ERROR_DISCONNECT.
    repeat first [apply keeps_account_execute | exact IH | account_step].
Qed.

Lemma keeps_account_setup : keeps same_account (connect_setup L k guard).
Proof.
  unfold connect_setup, MYSQL_ERROR_DISCONNECT.
  repeat first [ apply keeps_account_set_auto_commit
               | apply keeps_account_set_schema
               | apply keeps_account_options
               | account_step ].
Qed.

Lemma keeps_account_body : keeps same_account (connect_body L k guard).
Proof.
  unfold connect_body, connected, connect_handshake, ssl_set, real_connect,
    MYSQL_ERROR_RETURN_FALSE.
  repeat first [apply keeps_account_setup | account_step].
Qed.

End Guard.

Lemma keeps_account_connect d : keeps same_account (connect L k d).
Proof.
  induction d as [|d IH]; simpl.
  - keeps_step.
  - now apply keeps_account_body.
Qed.

End FrameLemmas.

(** ** The fast path of [connect], [connected] and [disconnect] *)

Section Lifecycle.

Context {W : Type}.
Variable L : native W.
Variable k : nat.

Lemma connected_true_inv s s1 :
  connected L s = Some (true, s1) ->
  exists h txt w,
    m_mysql (conn s) = Some h /\
    mysql_stat L (Some h) (world s) = (Some txt, w) /\
    s1 = mk_state (conn s) w (EvStat (Some h) :: calls s).
Proof.
  unfold connected, bind, this, ret, native_call.
  destruct (m_mysql (conn s)) as [h|]; [|discriminate].
  destruct (mysql_stat L (Some h) (world s)) as [[txt|] w] eqn:E;
    [|discriminate].
  intro H. inversion H; subst. exists h, txt, w. auto.
Qed.

Lemma connected_total s :
  exists b s1, connected L s = Some (b, s1) /\ conn s1 = conn s.
Proof.
  unfold connected, bind, this, ret, native_call.
  destruct (m_mysql (conn s)) as [h|]; [|now eauto].
  destruct (mysql_stat L (Some h) (world s)) as [r w]. now eauto.
Qed.

Lemma connect_fast_path d s s1 :
  connected L s = Some (true, s1) -> connect L k (S d) s = Some (true, s1).
Proof.
  intro H. simpl. unfold connect_body, bind. now rewrite H.
Qed.

Lemma disconnect_total s :
  exists s', disconnect L s = Some (tt, s') /\ m_mysql (conn s') = None.
Proof.
  unfold disconnect, bind, this, ret, native_do, assign.
  destruct (m_mysql (conn s)) as [h|] eqn:E; simpl; eauto.
Qed.

Lemma disconnect_null s :
  m_mysql (conn s) = None -> disconnect L s = Some (tt, s).
Proof.
  intro H. unfold disconnect, bind, this, ret. now rewrite H.
Qed.

Lemma connected_null s :
  m_mysql (conn s) = None -> connected L s = Some (false, s).
Proof.
  intro H. unfold connected, bind, this, ret. now rewrite H.
Qed.

End Lifecycle.

(** ** Claims on the lifecycle *)

(** C8: [connected()] is false on a connection that has just been
    constructed and on the state any [disconnect()] leaves; on that
    state a further [disconnect()] changes nothing and makes no native
    call, so two calls in a row do what one does. *)
Theorem disconnected_at_start_and_after_disconnect :
  forall (W : Type) (L : native W) (a : account) (w : W) (cs : list event)
         (s : state W),
    connected L (mk_state (new_connection a) w cs)
      = Some (false, mk_state (new_connection a) w cs) /\
    exists s',
      disconnect L s = Some (tt, s') /\
      m_mysql (conn s') = None /\
      connected L s' = Some (false, s') /\
      disconnect L s' = Some (tt, s') /\
      bind (disconnect L) (fun _ => disconnect L) s = disconnect L s.
Proof.
  intros W L a w cs s. split.
  - now apply connected_null.
  - destruct (disconnect_total L s) as [s' [Hd Hn]].
    exists s'. repeat split; auto.
    + now apply connected_null.
    + now apply disconnect_null.
    + unfold bind at 1. rewrite Hd. now apply disconnect_null.
Qed.

(** C10: on a connection that is already connected, [query] and
    [insert] return and [execute] returns whenever its loop ends, and
    the state they leave has the schema, charset and autocommit caches
    (indeed the whole connection object) of the state before, whatever
    the native calls answered. *)
Theorem statements_leave_caches_alone :
  forall (W : Type) (L : native W) (k d : nat) (q : string)
         (s s1 : state W),
    connected L s = Some (true, s1) ->
    (exists r s', query L k (S d) q s = Some (r, s') /\
                  same_caches s s' /\ conn s' = conn s) /\
    (exists r s', insert L k (S d) q s = Some (r, s') /\
                  same_caches s s' /\ conn s' = conn s) /\
    (forall r s', execute L k (S d) q s = Some (r, s') ->
                  same_caches s s' /\ conn s' = conn s).
Proof.
  intros W L k d q s s1 H.
  assert (Hc : connect L k (S d) s = Some (true, s1))
    by now apply connect_fast_path.
  destruct (connected_true_inv L s s1 H) as [h [txt [w [Hm [Hs ->]]]]].
  assert (Hsame : forall s', conn s' = conn s -> same_caches s s' /\ conn s' = conn s).
  { intros s' E. unfold same_caches. rewrite E. auto. }
  split; [|split].
  - unfold query, query_with, bind. rewrite Hc. simpl.
    unfold real_query, bind, this, native_call, ret. simpl.
    destruct (mysql_real_query L (m_mysql (conn s)) q (String.length q) w)
      as [rc w2].
    destruct (nonzero rc); simpl.
    + eexists _, _. split; [reflexivity|]. now apply Hsame.
    + destruct (mysql_store_result L (m_mysql (conn s)) w2) as [r w3].
      eexists _, _. split; [reflexivity|]. now apply Hsame.
  - unfold insert, insert_with, bind. rewrite Hc. simpl.
    unfold real_query, bind, this, native_call, native_read, ret. simpl.
    destruct (mysql_real_query L (m_mysql (conn s)) q (String.length q) w)
      as [rc w2].
    destruct (nonzero rc); simpl;
      (eexists _, _; split; [reflexivity|]; now apply Hsame).
  - intros r s' He. apply Hsame.
    unfold execute, execute_with, bind in He. rewrite Hc in He. simpl in He.
    destruct (real_query L q _) as [[rc s2]|] eqn:Eq; [|discriminate].
    apply (keeps_real_query L _ frame_same_conn) in Eq. unfold same_conn in Eq. simpl in Eq.
    destruct (nonzero rc).
    + inversion He; subst. simpl. exact Eq.
    + apply (keeps_execute_loop L _ frame_same_conn) in He. unfold same_conn in He. congruence.
Qed.

Lemma statements_leave_caches_alone_witness :
  (exists r s',
     query (Mock.lib (Mock.works Mock.batch)) 4 1 "SELECT b"
           (Mock.online Mock.guest 8) = Some (r, s') /\
     same_caches (Mock.online Mock.guest 8) s' /\
     conn s' = conn (Mock.online Mock.guest 8)) /\
  (exists r s',
     insert (Mock.lib (Mock.works Mock.batch)) 4 1 "SELECT b"
            (Mock.online Mock.guest 8) = Some (r, s') /\
     same_caches (Mock.online Mock.guest 8) s' /\
     conn s' = conn (Mock.online Mock.guest 8)) /\
  (forall r s',
     execute (Mock.lib (Mock.works Mock.batch)) 4 1 "SELECT b"
             (Mock.online Mock.guest 8) = Some (r, s') ->
     same_caches (Mock.online Mock.guest 8) s' /\
     conn s' = conn (Mock.online Mock.guest 8)).
Proof.
  apply (statements_leave_caches_alone _ (Mock.lib (Mock.works Mock.batch))
           4 0 "SELECT b" (Mock.online Mock.guest 8)
           (mk_state (conn (Mock.online Mock.guest 8))
                     (world (Mock.online Mock.guest 8))
                     [EvStat (Some 1%positive)])).
  reflexivity.
Defined.

(** ** The result loop of [execute] *)

Section ResultLoop.

Context {W : Type}.
Variable L : native W.


Lemma tally_wrapped a items :
  tally (wrap64 a) items = wrap64 (a + affected items).
Proof.
  revert a. induction items as [|[r|n] items IH]; intro a; simpl.
  - unfold tally. simpl. now rewrite N.add_0_r.
  - apply IH.
  - unfold tally in *. cbn [fold_left count].
    rewrite u64_add_wrap_l, IH. f_equal. lia.
Qed.

Lemma tally_zero items : tally 0 items = wrap64 (affected items).
Proof.
  change 0%N with (wrap64 0) at 1. now rewrite tally_wrapped.
Qed.


Lemma loop_hands_over h w i w1 n acc c cs :
  hands_over L h w i w1 ->
  m_mysql c = h ->
  execute_loop L (S n) acc (mk_state c w cs) =
  advance L (execute_loop L n) (count acc i)
          (mk_state c w1 (fetch_calls h i ++ cs)).
Proof.
  intros Hh Hc. subst h.
  destruct Hh as [w0 r w1 Hs | w0 w1 Hs Hf]; simpl;
    unfold bind, this, native_call, native_do, native_read; simpl;
    rewrite Hs; simpl; [reflexivity|].
  rewrite Hf. reflexivity.
Qed.

(** The loop against the library's answers: it returns the counter
    advanced by every counted result, leaves the world the answers
    leave, keeps the connection object, and reports exactly when the
    answers end in a failure, the report being its last act. *)
Lemma execute_loop_answers h w items e w' :
  answers L h w items e w' ->
  forall n acc c cs,
    (List.length items < n)%nat ->
    m_mysql c = h ->
    exists cs',
      execute_loop L n acc (mk_state c w cs)
        = Some (tally acc items, mk_state c w' cs') /\
      reports cs' = (reports cs + if failed e then 1 else 0)%nat /\
      (failed e = true ->
       exists old, cs' = EvReport (mysql_errno L h w') (mysql_error L h w') :: old) /\
      handshakes cs' = handshakes cs /\ closes cs' = closes cs.
Proof.
  induction 1 as [w w1 Hs Hf | w i w1 st w2 Hh Hn Hst
                 | w i w1 st w2 Hh Hn Hst | w i w1 w2 items e w3 Hh Hn Ha IH];
    intros n acc c cs Hlen Hc; (destruct n as [|n]; [simpl in Hlen; lia|]).
  - subst h. simpl. unfold bind, this, native_call, native_read; simpl.
    rewrite Hs. simpl.
    destruct (N.eqb_spec (mysql_field_count L (m_mysql c) w1) 0) as [E|_];
      [contradiction|].
    unfold MYSQL_ERROR_NO_BRAKET, MARIADB_ERROR, ret; simpl.
    eexists. split; [reflexivity|]. simpl. repeat split; eauto; lia.
  - rewrite (loop_hands_over h w i w1 n acc c cs Hh Hc). subst h.
    unfold advance, bind, this, native_call; simpl. rewrite Hn.
    destruct (Z.gtb_spec st 0) as [G|_]; [lia|].
    destruct (Z.eqb_spec st 0) as [E|_]; [lia|].
    unfold ret. eexists. split; [reflexivity|]. simpl.
    destruct i; simpl; repeat split; try discriminate; lia.
  - rewrite (loop_hands_over h w i w1 n acc c cs Hh Hc). subst h.
    unfold advance, bind, this, native_call; simpl. rewrite Hn.
    destruct (Z.gtb_spec st 0) as [_|G]; [|lia].
    unfold MYSQL_ERROR_NO_BRAKET, MARIADB_ERROR, ret; simpl.
    eexists. split; [reflexivity|]. simpl.
    destruct i; simpl; repeat split; eauto; lia.
  - rewrite (loop_hands_over h w i w1 n acc c cs Hh Hc).
    unfold advance, bind, this, native_call; simpl. rewrite Hc, Hn. simpl.
    simpl in Hlen.
    destruct (IH n (count acc i) c
                 (EvNextResult h :: fetch_calls h i ++ cs)) as
      [cs' [Hrun [Hrep [Hhd [Hhs Hcl]]]]]; [lia|assumption|].
    exists cs'. split; [exact Hrun|].
    rewrite Hrep, Hhs, Hcl. destruct i; simpl; repeat split; auto.
Qed.

End ResultLoop.

Section AnswersFacts.

Context {W : Type}.
Variable L : native W.

Lemma answers_ending h w items e w' :
  answers L h w items e w' ->
  match e with
  | Finished status => (status < 0)%Z
  | StoreFailed fields => fields <> 0%N
  | NextFailed status => (status > 0)%Z
  end.
Proof. induction 1; auto. Qed.

(** [execute] on a connected connection whose text is accepted: the
    loop runs against the answers. *)
Lemma execute_answers k d q s s1 w2 items e w3 :
  connected L s = Some (true, s1) ->
  mysql_real_query L (m_mysql (conn s)) q (String.length q) (world s1)
    = (0%Z, w2) ->
  answers L (m_mysql (conn s)) w2 items e w3 ->
  (List.length items < k)%nat ->
  exists cs',
    execute L k (S d) q s
      = Some (tally 0 items, mk_state (conn s) w3 cs') /\
    reports cs' = (reports (calls s) + if failed e then 1 else 0)%nat /\
    (failed e = true ->
     exists old,
       cs' = EvReport (mysql_errno L (m_mysql (conn s)) w3)
                      (mysql_error L (m_mysql (conn s)) w3) :: old) /\
    handshakes cs' = handshakes (calls s) /\ closes cs' = closes (calls s).
Proof.
  intros Hc Hq Ha Hk.
  destruct (connected_true_inv L s s1 Hc) as [h [txt [w [Hm [Hs ->]]]]].
  simpl in Hq.
  destruct (execute_loop_answers L _ _ _ _ _ Ha k 0%N (conn s)
              (EvRealQuery (m_mysql (conn s)) q
                 :: EvStat (Some h) :: calls s) Hk eq_refl)
    as [cs' [Hrun Hrest]].
  exists cs'. split; [|exact Hrest].
  unfold execute, execute_with, bind.
  rewrite (connect_fast_path L k d s _ Hc). simpl.
  unfold real_query, bind, this, native_call. simpl. rewrite Hq. simpl.
  exact Hrun.
Qed.

End AnswersFacts.

(** ** Claims on [execute] *)

(** C2: on a connected connection, when the native query call accepts
    the text, [execute] returns the sum of the affected rows of the
    results without fields that the library hands over for the text,
    in 64-bit arithmetic; buffered result sets are freed and add
    nothing.  The value is the plain sum whenever that fits in 64 bits,
    it is 0 when no rows were affected, and nothing is reported when
    the results end without failure. *)
Theorem execute_sums_affected_rows :
  forall (W : Type) (L : native W) (k d : nat) (q : string)
         (s s1 : state W) (w2 : W) (items : list item) (e : ending) (w3 : W),
    connected L s = Some (true, s1) ->
    mysql_real_query L (m_mysql (conn s)) q (String.length q) (world s1)
      = (0%Z, w2) ->
    answers L (m_mysql (conn s)) w2 items e w3 ->
    (List.length items < k)%nat ->
    exists s',
      execute L k (S d) q s = Some (wrap64 (affected items), s') /\
      world s' = w3 /\
      ((affected items < u64_modulus)%N ->
       execute L k (S d) q s = Some (affected items, s')) /\
      (affected items = 0%N -> execute L k (S d) q s = Some (0%N, s')) /\
      (failed e = false -> reports (calls s') = reports (calls s)).
Proof.
  intros W L k d q s s1 w2 items e w3 Hc Hq Ha Hk.
  destruct (execute_answers L k d q s s1 w2 items _ w3 Hc Hq Ha Hk)
    as [cs' [Hrun [Hrep _]]].
  rewrite tally_zero in Hrun.
  exists (mk_state (conn s) w3 cs'). simpl.
  split; [exact Hrun|]. split; [reflexivity|]. split; [|split].
  - intro Hs. now rewrite <- (wrap64_small _ Hs) at 1.
  - intro Hz. rewrite Hrun, Hz. reflexivity.
  - intro Hf. rewrite Hf in Hrep. lia.
Qed.

(** Discharges [hands_over] on the scripted library, whose buffering
    calls leave the world as it is. *)
Ltac scripted_hands_over :=
  match goal with
  | |- hands_over ?L ?h ?w (Counted _) _ =>
      exact (ho_count L h w w eq_refl eq_refl)
  | |- hands_over ?L ?h ?w (Discarded ?r) _ =>
      exact (ho_set L h w r w eq_refl)
  end.

Lemma execute_sums_affected_rows_witness :
  exists s',
    execute (Mock.lib (Mock.works Mock.batch)) 4 1
            "INSERT a; SELECT b; INSERT c" (Mock.online Mock.guest 8)
      = Some (5%N, s').
Proof.
  destruct (execute_sums_affected_rows _ (Mock.lib (Mock.works Mock.batch))
              4 0 "INSERT a; SELECT b; INSERT c" (Mock.online Mock.guest 8)
              (mk_state (conn (Mock.online Mock.guest 8))
                        (world (Mock.online Mock.guest 8))
                        [EvStat (Some 1%positive)])
              (Mock.mk_server 8 (Some 1%positive)
                 [Mock.RowCount 2; Mock.RowSet 7%positive; Mock.RowCount 3]
                 2%positive)
              [Counted 2; Discarded 7%positive; Counted 3] (Finished (-1))
              (Mock.mk_server 8 (Some 1%positive) [] 2%positive))
    as [s' [Hrun _]].
  - reflexivity.
  - reflexivity.
  - eapply ans_more; [scripted_hands_over | reflexivity |].
    eapply ans_more; [scripted_hands_over | reflexivity |].
    eapply ans_finished; [scripted_hands_over | reflexivity | lia].
  - simpl. lia.
  - exists s'. exact Hrun.
Defined.

(** C4: on a connected connection whose text the native query call
    accepts, [execute] returns the counter accumulated over the results
    handed over so far, whichever way the results end.  When a result
    has no buffered set but a nonzero field count, or
    [mysql_next_result] answers a positive status, the last thing
    [execute] does is report the native error; the loop ends without a
    report exactly when the results end with a negative status. *)
Theorem execute_stops_at_errors :
  forall (W : Type) (L : native W) (k d : nat) (q : string)
         (s s1 : state W) (w2 : W) (items : list item) (e : ending) (w3 : W),
    connected L s = Some (true, s1) ->
    mysql_real_query L (m_mysql (conn s)) q (String.length q) (world s1)
      = (0%Z, w2) ->
    answers L (m_mysql (conn s)) w2 items e w3 ->
    (List.length items < k)%nat ->
    exists s',
      execute L k (S d) q s = Some (wrap64 (affected items), s') /\
      world s' = w3 /\
      match e with
      | Finished status =>
          (status < 0)%Z /\ reports (calls s') = reports (calls s)
      | StoreFailed fields =>
          fields <> 0%N /\
          reports (calls s') = S (reports (calls s)) /\
          hd_error (calls s')
            = Some (EvReport (mysql_errno L (m_mysql (conn s)) w3)
                             (mysql_error L (m_mysql (conn s)) w3))
      | NextFailed status =>
          (status > 0)%Z /\
          reports (calls s') = S (reports (calls s)) /\
          hd_error (calls s')
            = Some (EvReport (mysql_errno L (m_mysql (conn s)) w3)
                             (mysql_error L (m_mysql (conn s)) w3))
      end /\
      (reports (calls s') = reports (calls s) <->
       exists status, e = Finished status /\ (status < 0)%Z).
Proof.
  intros W L k d q s s1 w2 items e w3 Hc Hq Ha Hk.
  destruct (execute_answers L k d q s s1 w2 items _ w3 Hc Hq Ha Hk)
    as [cs' [Hrun [Hrep [Hhd _]]]].
  rewrite tally_zero in Hrun.
  pose proof (answers_ending L _ _ _ _ _ Ha) as He.
  exists (mk_state (conn s) w3 cs'). simpl.
  split; [exact Hrun|]. split; [reflexivity|].
  destruct e as [st|f|st]; simpl in *.
  - split; [split; [exact He | lia]|].
    split; [intros _; now exists st | intros _; lia].
  - destruct (Hhd eq_refl) as [old ->].
    split; [repeat split; auto; lia|].
    split; [intro; lia | intros [st [E _]]; discriminate].
  - destruct (Hhd eq_refl) as [old ->].
    split; [repeat split; auto; lia|].
    split; [intro; lia | intros [st' [E _]]; discriminate].
Qed.

Lemma execute_stops_at_errors_witness :
  exists s',
    execute (Mock.lib (Mock.works Mock.broken)) 4 1
            "INSERT a; INSERT a; INSERT c" (Mock.online Mock.guest 8)
      = Some (2%N, s') /\
    hd_error (calls s') = Some (EvReport 1064 "error").
Proof.
  destruct (execute_stops_at_errors _ (Mock.lib (Mock.works Mock.broken))
              4 0 "INSERT a; INSERT a; INSERT c" (Mock.online Mock.guest 8)
              (mk_state (conn (Mock.online Mock.guest 8))
                        (world (Mock.online Mock.guest 8))
                        [EvStat (Some 1%positive)])
              (Mock.mk_server 8 (Some 1%positive)
                 [Mock.RowCount 2; Mock.Abort; Mock.RowCount 5] 2%positive)
              [Counted 2] (NextFailed 1)
              (Mock.mk_server 8 (Some 1%positive) [] 2%positive))
    as [s' [Hrun [_ [[_ [_ Hhd]] _]]]].
  - reflexivity.
  - reflexivity.
  - eapply ans_next_failed; [scripted_hands_over | reflexivity | lia].
  - simpl. lia.
  - exists s'. split; [exact Hrun | exact Hhd].
Defined.

(** ** Claims on the setters *)

(** C5, as amended: once the [connect()] that opens [set_schema] has
    returned true, a failing native select-database call makes
    [set_schema] report and return false with the connection object -
    cached schema and session handle - as that [connect()] left it and
    without any [mysql_close]; a succeeding call makes it return true
    with the cached schema equal to the name.  When the connection was
    already connected, the schema left by a failure is the one cached
    before the call. *)
Theorem set_schema_outcomes :
  forall (W : Type) (L : native W) (k d : nat) (name : string)
         (s s1 : state W) (rc : Z) (w2 : W),
    connect L k d s = Some (true, s1) ->
    mysql_select_db L (m_mysql (conn s1)) name (world s1) = (rc, w2) ->
    exists s',
      set_schema L k d name s = Some ((rc =? 0)%Z, s') /\
      world s' = w2 /\
      (rc = 0%Z -> schema s' = name /\ m_mysql (conn s') = m_mysql (conn s1)) /\
      (rc <> 0%Z ->
       conn s' = conn s1 /\
       closes (calls s') = closes (calls s1) /\
       reports (calls s') = S (reports (calls s1)) /\
       forall s0, connected L s = Some (true, s0) -> schema s' = schema s).
Proof.
  intros W L k d name s s1 rc w2 Hc Hsel.
  unfold set_schema, set_schema_with, bind. rewrite Hc. simpl.
  unfold this, native_call, bind. rewrite Hsel. unfold nonzero.
  destruct (Z.eqb_spec rc 0) as [E|E]; simpl.
  - eexists. split; [reflexivity|]. simpl.
    split; [reflexivity|]. split; [intros _; split; reflexivity|].
    intro N; contradiction.
  - eexists. split; [reflexivity|]. simpl.
    split; [reflexivity|]. split; [intro N; contradiction|].
    intros _. split; [reflexivity|]. split; [reflexivity|].
    split; [reflexivity|].
    intros s0 H0. destruct d as [|d]; [discriminate|].
    rewrite (connect_fast_path L k d s s0 H0) in Hc. inversion Hc; subst.
    destruct (connected_true_inv L s s1 H0) as [h [txt [w [_ [_ ->]]]]].
    reflexivity.
Qed.

Lemma set_schema_outcomes_witness :
  exists s',
    set_schema (Mock.lib (Mock.works Mock.batch)) 4 1 "db2"
               (Mock.online Mock.guest 8) = Some (false, s') /\
    conn s' = conn (Mock.online Mock.guest 8).
Proof.
  destruct (set_schema_outcomes _ (Mock.lib (Mock.works Mock.batch)) 4 1 "db2"
              (Mock.online Mock.guest 8)
              (mk_state (conn (Mock.online Mock.guest 8))
                        (world (Mock.online Mock.guest 8))
                        [EvStat (Some 1%positive)])
              1%Z (world (Mock.online Mock.guest 8)))
    as [s' [Hrun [_ [_ Hfail]]]].
  - reflexivity.
  - reflexivity.
  - exists s'. split; [exact Hrun|]. apply Hfail. discriminate.
Defined.

(** C5 as stated fails on a connection that is not yet connected: the
    [connect()] inside [set_schema("db2")] selects and caches the
    account's default schema "db1", then the select-database call for
    "db2" fails, and [schema()] is "db1", not the "" cached before. *)
Lemma set_schema_failure_after_auto_connect :
  exists s',
    set_schema (Mock.lib (Mock.works Mock.batch)) 4 2 "db2"
               (Mock.fresh (Mock.tuned "db1" true []) (Mock.idle 8))
      = Some (false, s') /\
    calls s' = [EvReport 1064 "error"; EvSelectDb (Some 1%positive) "db2";
                EvSelectDb (Some 1%positive) "db1"; EvStat (Some 1%positive);
                EvRealConnect (Some 1%positive); EvInit] /\
    schema (Mock.fresh (Mock.tuned "db1" true []) (Mock.idle 8)) = "" /\
    schema s' = "db1".
Proof.
  eexists. split; [vm_compute; reflexivity|]. repeat split.
Qed.

(** C6, as amended: [set_auto_commit(flag)] with the cached value
    returns true and leaves connection, world and chronicle as they
    were - no native call at all.  Otherwise, once its [connect()] has
    returned true, a succeeding native autocommit call makes it return
    true with the cache equal to [flag], and a failing one makes it
    report and return false with the connection object as that
    [connect()] left it; when the connection was already connected,
    that is the cache as it was before the call. *)
Theorem set_auto_commit_outcomes :
  forall (W : Type) (L : native W) (k d : nat) (flag : bool) (s : state W),
    (m_auto_commit (conn s) = flag ->
     set_auto_commit L k d flag s = Some (true, s)) /\
    (m_auto_commit (conn s) <> flag ->
     forall (s1 : state W) (rc : Z) (w2 : W),
       connect L k d s = Some (true, s1) ->
       mysql_autocommit L (m_mysql (conn s1)) flag (world s1) = (rc, w2) ->
       exists s',
         set_auto_commit L k d flag s = Some ((rc =? 0)%Z, s') /\
         world s' = w2 /\
         (rc = 0%Z -> auto_commit s' = flag) /\
         (rc <> 0%Z ->
          conn s' = conn s1 /\
          reports (calls s') = S (reports (calls s1)) /\
          forall s0, connected L s = Some (true, s0) ->
                     auto_commit s' = auto_commit s)).
Proof.
  intros W L k d flag s. split.
  - intro E. unfold set_auto_commit, set_auto_commit_with, bind, this.
    rewrite E, Bool.eqb_reflx. reflexivity.
  - intros E s1 rc w2 Hc Hac.
    unfold set_auto_commit, set_auto_commit_with, bind, this.
    destruct (Bool.eqb_spec (m_auto_commit (conn s)) flag) as [E'|_];
      [contradiction|].
    rewrite Hc. simpl. unfold native_call. rewrite Hac. unfold nonzero.
    destruct (Z.eqb_spec rc 0) as [Z0|Z0]; simpl.
    + eexists. split; [reflexivity|]. simpl.
      split; [reflexivity|]. split; [intros _; reflexivity|].
      intro N; contradiction.
    + eexists. split; [reflexivity|]. simpl.
      split; [reflexivity|]. split; [intro N; contradiction|].
      intros _. split; [reflexivity|]. split; [reflexivity|].
      intros s0 H0. destruct d as [|d]; [discriminate|].
      rewrite (connect_fast_path L k d s s0 H0) in Hc. inversion Hc; subst.
      destruct (connected_true_inv L s s1 H0) as [h [txt [w [_ [_ ->]]]]].
      reflexivity.
Qed.

Lemma set_auto_commit_outcomes_witness :
  set_auto_commit (Mock.lib (Mock.works Mock.batch)) 4 1 true
                  (Mock.online Mock.guest 8)
    = Some (true, Mock.online Mock.guest 8) /\
  exists s',
    set_auto_commit (Mock.lib (Mock.works Mock.batch)) 4 1 false
                    (Mock.online Mock.guest 0) = Some (false, s') /\
    conn s' = conn (Mock.online Mock.guest 0).
Proof.
  split.
  - apply (set_auto_commit_outcomes _ (Mock.lib (Mock.works Mock.batch))
             4 1 true (Mock.online Mock.guest 8)).
    reflexivity.
  - destruct (set_auto_commit_outcomes _ (Mock.lib (Mock.works Mock.batch))
                4 1 false (Mock.online Mock.guest 0)) as [_ H].
    destruct (H ltac:(discriminate)
                (mk_state (conn (Mock.online Mock.guest 0))
                          (world (Mock.online Mock.guest 0))
                          [EvStat (Some 1%positive)])
                1%Z (world (Mock.online Mock.guest 0))
                eq_refl eq_refl) as [s' [Hrun [_ [_ Hfail]]]].
    exists s'. split; [exact Hrun|]. apply Hfail. discriminate.
Defined.

(** C6 as stated fails on a connection that is not yet connected and
    whose account asks for autocommit off: the [connect()] inside
    [set_auto_commit(false)] switches autocommit off and caches it,
    then the native call of [set_auto_commit] itself fails, and false
    is returned with the cache changed from true to false. *)
Lemma set_auto_commit_failure_after_auto_connect :
  exists s',
    set_auto_commit (Mock.lib (Mock.works Mock.batch)) 4 2 false
                    (Mock.fresh (Mock.tuned "" false []) (Mock.idle 1))
      = Some (false, s') /\
    calls s' = [EvReport 1064 "error"; EvAutocommit (Some 1%positive) false;
                EvAutocommit (Some 1%positive) false; EvStat (Some 1%positive);
                EvRealConnect (Some 1%positive); EvInit] /\
    auto_commit (Mock.fresh (Mock.tuned "" false []) (Mock.idle 1)) = true /\
    auto_commit s' = false.
Proof.
  eexists. split; [vm_compute; reflexivity|]. repeat split.
Qed.

(** ** The option loop of [connect] *)

(** Splits a hypothesis on a run of monadic code into the runs of its
    parts, without unfolding the methods it calls. *)
Ltac crack H :=
  unfold bind, this, ret, assign, native_call, native_do, native_read in H;
  cbv beta iota zeta in H; cbn [conn world calls] in H;
  repeat match type of H with
         | context [match ?x with _ => _ end] =>
             lazymatch x with
             | context [match _ with _ => _ end] => fail
             | _ => let E := fresh "E" in
                    destruct x eqn:E;
                    cbv beta iota zeta in H; cbn [conn world calls] in H;
                    try discriminate H
             end
         end.

Section OptionLoop.

Context {W : Type}.
Variable L : native W.
Variable k : nat.

Lemma error_disconnect_total s :
  exists s',
    MYSQL_ERROR_DISCONNECT L s = Some (false, s') /\
    m_mysql (conn s') = None /\
    reports (calls s') = S (reports (calls s)) /\
    world s' = match m_mysql (conn s) with
               | Some h => mysql_thread_end L (mysql_close L h (world s))
               | None => world s
               end.
Proof.
  unfold MYSQL_ERROR_DISCONNECT, MYSQL_ERROR_NO_BRAKET, MARIADB_ERROR,
    disconnect, bind, this, ret, native_do, assign. simpl.
  destruct (m_mysql (conn s)) as [h|] eqn:E; simpl;
    (eexists; split; [reflexivity|]; simpl; auto).
Qed.

Lemma error_disconnect_false s b s' :
  MYSQL_ERROR_DISCONNECT L s = Some (b, s') ->
  b = false /\ m_mysql (conn s') = None.
Proof.
  destruct (error_disconnect_total s) as [s2 [H [Hn _]]].
  rewrite H. intro E. inversion E; subst. auto.
Qed.

Section Guard.

Variable guard : M W bool.

Lemma connect_options_applied opts :
  forall s s',
    connect_options L k guard opts s = Some (true, s') ->
    applied (execute_with L k guard) opts s s'.
Proof.
  induction opts as [|kv rest IH]; intros s s' H; simpl in H.
  - inversion H; subst. constructor.
  - unfold bind in H.
    destruct (execute_with L k guard (c_str (option_statement kv)) s)
      as [[n s1]|] eqn:E; [|discriminate].
    destruct (N.eqb_spec n 1) as [->|N1]; simpl in H.
    + econstructor; [exact E | now apply IH].
    + apply error_disconnect_false in H. destruct H; discriminate.
Qed.

Lemma connect_options_refused pre :
  forall kv post s s1 n s2,
    applied (execute_with L k guard) pre s s1 ->
    execute_with L k guard (c_str (option_statement kv)) s1 = Some (n, s2) ->
    n <> 1%N ->
    exists s3,
      connect_options L k guard (pre ++ kv :: post) s = Some (false, s3) /\
      MYSQL_ERROR_DISCONNECT L s2 = Some (false, s3) /\
      m_mysql (conn s3) = None /\
      reports (calls s3) = S (reports (calls s2)).
Proof.
  induction pre as [|kv0 pre IH]; intros kv post s s1 n s2 Ha He Hn.
  - inversion Ha; subst. simpl. unfold bind. rewrite He.
    destruct (N.eqb_spec n 1) as [->|_]; [contradiction|]. simpl.
    destruct (error_disconnect_total s2) as [s3 [H [Hm [Hr _]]]].
    exists s3. auto.
  - inversion Ha as [|kv' rest' sa sb sc Hx Hrest]; subst.
    simpl. unfold bind. rewrite Hx. simpl.
    eapply IH; eassumption.
Qed.

Hypothesis Hguard : keeps same_account guard.

Lemma connect_setup_applied s s' :
  connect_setup L k guard s = Some (true, s') ->
  exists s_opt,
    applied (execute_with L k guard) (options (m_account (conn s))) s_opt s'.
Proof.
  intro H. unfold connect_setup in H.
  crack H; try (apply error_disconnect_false in H; destruct H; discriminate);
    repeat match goal with
           | Hx : set_auto_commit_with _ _ _ _ = Some _ |- _ =>
               apply keeps_account_set_auto_commit in Hx; [|exact Hguard];
               unfold same_account in Hx
           | Hx : set_schema_with _ _ _ _ = Some _ |- _ =>
               apply keeps_account_set_schema in Hx; [|exact Hguard];
               unfold same_account in Hx
           end;
    apply connect_options_applied in H;
    match type of H with
    | applied _ (options (m_account (conn ?t))) _ _ =>
        replace (m_account (conn s)) with (m_account (conn t)) by congruence
    end;
    eexists; exact H.
Qed.

Lemma connect_body_applied s s0 s' :
  connected L s = Some (false, s0) ->
  connect_body L k guard s = Some (true, s') ->
  exists s_opt,
    applied (execute_with L k guard) (options (m_account (conn s))) s_opt s'.
Proof.
  intros Hc H. unfold connect_body in H. unfold bind at 1 in H.
  rewrite Hc in H. cbv beta iota in H.
  destruct (connected_total L s) as [b [s0' [Hc' Hconn]]].
  rewrite Hc in Hc'. inversion Hc'; subst b s0'. clear Hc'.
  unfold connect_handshake, MYSQL_ERROR_RETURN_FALSE, MYSQL_ERROR_NO_BRAKET,
    MARIADB_ERROR, ssl_set, real_connect in H.
  crack H; simpl in H;
    try match type of H with
        | connect_setup _ _ _ ?st = _ =>
            apply connect_setup_applied in H; simpl in H;
            rewrite Hconn in H; exact H
        end.
Qed.

End Guard.

Lemma connect_applied d s s0 s' :
  connected L s = Some (false, s0) ->
  connect L k (S d) s = Some (true, s') ->
  exists s_opt,
    applied (execute L k d) (options (m_account (conn s))) s_opt s'.
Proof.
  intros Hc H. simpl in H.
  eapply connect_body_applied; [apply keeps_account_connect | exact Hc | exact H].
Qed.

End OptionLoop.

(** ** How [connect] can return false *)

Section ConnectFailure.

Context {W : Type}.
Variable L : native W.
Variable k : nat.
Variable guard : M W bool.

Lemma connect_options_false opts :
  forall s s',
    connect_options L k guard opts s = Some (false, s') ->
    m_mysql (conn s') = None.
Proof.
  induction opts as [|kv rest IH]; intros s s' H; simpl in H.
  - discriminate.
  - unfold bind in H.
    destruct (execute_with L k guard (c_str (option_statement kv)) s)
      as [[n s1]|]; [|discriminate].
    destruct (negb (n =? 1)%N).
    + now apply error_disconnect_false in H.
    + eapply IH. exact H.
Qed.

Lemma connect_setup_false s s' :
  connect_setup L k guard s = Some (false, s') ->
  m_mysql (conn s') = None.
Proof.
  intro H. unfold connect_setup in H.
  crack H;
    first [ now apply error_disconnect_false in H
          | now apply connect_options_false in H ].
Qed.

(** A [connect] that goes past its first test and returns false has
    either left [m_mysql] NULL, or has failed in [mysql_ssl_set] or
    [mysql_real_connect], its last act being the report of that
    failure. *)
Lemma connect_body_false s s0 s' :
  connected L s = Some (false, s0) ->
  connect_body L k guard s = Some (false, s') ->
  m_mysql (conn s') = None \/
  (exists c m h old,
      m_mysql (conn s') = Some h /\
      (calls s' = EvReport c m :: EvSslSet (Some h) :: old \/
       calls s' = EvReport c m :: EvRealConnect (Some h) :: old)).
Proof.
  intros Hc H. unfold connect_body in H. unfold bind at 1 in H.
  rewrite Hc in H. cbv beta iota in H.
  unfold connect_handshake, MYSQL_ERROR_RETURN_FALSE, MYSQL_ERROR_NO_BRAKET,
    MARIADB_ERROR, ssl_set, real_connect in H.
  crack H; simpl in H;
    try (left; now apply connect_setup_false in H);
    inversion H; subst; simpl;
    first [ left; reflexivity
          | right; do 4 eexists; split;
            [reflexivity | first [left; reflexivity | right; reflexivity]] ].
Qed.

End ConnectFailure.

(** ** Termination of [connect] on a well-behaved session *)

Section Steady.

Context {W : Type}.
Variable L : native W.
Variable k : nat.
Variable live : option handle -> W -> Prop.
Hypothesis HS : steady L k live.

(** On a linked connection [connect] needs no recursion at all. *)
Lemma connect_linked d s :
  linked live s ->
  exists s1,
    connect L k (S d) s = Some (true, s1) /\
    linked live s1 /\
    handshakes (calls s1) = handshakes (calls s).
Proof.
  intros [[h Hm] Hl]. rewrite Hm in Hl.
  destruct (st_probe L k live HS _ _ Hl) as [txt [w' [Hs Hl']]].
  exists (mk_state (conn s) w' (EvStat (Some h) :: calls s)).
  split; [|split].
  - apply connect_fast_path.
    unfold connected, bind, this, native_call, ret. rewrite Hm, Hs. reflexivity.
  - split; simpl; [eauto | now rewrite Hm].
  - reflexivity.
Qed.

Section Guard.

Variable guard : M W bool.
Hypothesis Hguard :
  forall s, linked live s ->
    exists s1, guard s = Some (true, s1) /\ linked live s1 /\
               handshakes (calls s1) = handshakes (calls s).

Lemma set_auto_commit_linked flag s :
  linked live s ->
  exists b s1,
    set_auto_commit_with L guard flag s = Some (b, s1) /\
    linked live s1 /\
    handshakes (calls s1) = handshakes (calls s).
Proof.
  intro Hl. unfold set_auto_commit_with, bind, this.
  destruct (Bool.eqb (m_auto_commit (conn s)) flag).
  - exists true, s. auto.
  - destruct (Hguard s Hl) as [s1 [Hg [[Hh Hl1] Hn]]]. rewrite Hg. simpl.
    unfold native_call.
    pose proof (st_autocommit L k live HS _ flag _ Hl1) as Hl2.
    destruct (mysql_autocommit L (m_mysql (conn s1)) flag (world s1))
      as [rc w2]. simpl in Hl2.
    destruct (nonzero rc); simpl;
      (eexists _, _; split; [reflexivity|]; split; [split|]; simpl; auto).
Qed.

Lemma set_schema_linked name s :
  linked live s ->
  exists b s1,
    set_schema_with L guard name s = Some (b, s1) /\
    linked live s1 /\
    handshakes (calls s1) = handshakes (calls s).
Proof.
  intro Hl. unfold set_schema_with, bind, this.
  destruct (Hguard s Hl) as [s1 [Hg [[Hh Hl1] Hn]]]. rewrite Hg. simpl.
  unfold native_call.
  pose proof (st_select_db L k live HS _ name _ Hl1) as Hl2.
  destruct (mysql_select_db L (m_mysql (conn s1)) name (world s1))
    as [rc w2]. simpl in Hl2.
  destruct (nonzero rc); simpl;
    (eexists _, _; split; [reflexivity|]; split; [split|]; simpl; auto).
Qed.

Lemma execute_linked q s :
  linked live s ->
  exists n s1,
    execute_with L k guard q s = Some (n, s1) /\
    linked live s1 /\
    handshakes (calls s1) = handshakes (calls s).
Proof.
  intro Hl. unfold execute_with, bind.
  destruct (Hguard s Hl) as [s1 [Hg [[Hh Hl1] Hn]]]. rewrite Hg. simpl.
  unfold real_query, bind, this, native_call.
  destruct (st_query L k live HS _ q (String.length q) _ Hl1) as [Hl2 Hans].
  destruct (mysql_real_query L (m_mysql (conn s1)) q (String.length q)
              (world s1)) as [rc w2]. simpl in Hl2, Hans.
  unfold nonzero. destruct (Z.eqb_spec rc 0) as [E|E]; simpl.
  - destruct (Hans E) as [items [e [w3 [Ha [Hlen Hl3]]]]].
    destruct (execute_loop_answers L _ _ _ _ _ Ha k 0%N (conn s1)
                (EvRealQuery (m_mysql (conn s1)) q :: calls s1) Hlen eq_refl)
      as [cs' [Hrun [_ [_ [Hhs _]]]]].
    rewrite Hrun. eexists _, _. split; [reflexivity|].
    split; [split; simpl; auto|]. simpl. rewrite Hhs. simpl. exact Hn.
  - eexists _, _. split; [reflexivity|].
    split; [split; simpl; auto|]. simpl. exact Hn.
Qed.

Lemma error_disconnect_handshakes s s' :
  MYSQL_ERROR_DISCONNECT L s = Some (false, s') ->
  handshakes (calls s') = handshakes (calls s).
Proof.
  unfold MYSQL_ERROR_DISCONNECT, MYSQL_ERROR_NO_BRAKET, MARIADB_ERROR,
    disconnect, bind, this, ret, native_do, assign. simpl.
  destruct (m_mysql (conn s)); simpl; intro H; inversion H; reflexivity.
Qed.

End Guard.

End Steady.

(** The scripted library is steady when the probe is answered and
    every text is answered by one counted result. *)
Lemma scripted_library_steady :
  steady (Mock.lib (Mock.works Mock.one_row)) 2 Mock.open_on.
Proof.
  split.
  - intros h host user pw db pt sock fl w h' w' H. simpl in H.
    destruct h as [x|]; inversion H; subst. reflexivity.
  - intros [x|] w Hl; [|contradiction]. simpl in Hl.
    exists "Uptime: 1", w. split; [|exact Hl].
    simpl. rewrite Hl. simpl. now rewrite Pos.eqb_refl.
  - intros [x|] b w Hl; [|contradiction]. simpl in *.
    destruct (Mock.sv_autocommit w); simpl; exact Hl.
  - intros [x|] db w Hl; [|contradiction]. simpl in *. exact Hl.
  - intros [x|] q n w Hl; [|contradiction]. simpl in *.
    split; [exact Hl|]. intros _.
    exists [Counted 1], (Finished (-1)), (Mock.set_pending w []).
    split; [|split; [simpl; lia | exact Hl]].
    eapply ans_finished; [scripted_hands_over | reflexivity | lia].
Qed.

(** The server that never answers the probe: with a default schema in
    the account, every [connect] re-enters [connect] through
    [set_schema], whatever the depth. *)
Lemma mute_connect_out_of_budget k d :
  forall h sch cs w log,
    connect (Mock.lib Mock.mute) k d
            (mk_state (mk_connection true h sch cs (Mock.tuned "db1" true []))
                      w log) = None.
Proof.
  induction d as [|d IH]; intros h sch cs w log; [reflexivity|].
  simpl connect. unfold connect_body.
  destruct h as [h|]; cbn.
  all: unfold bind at 1; unfold set_schema_with; unfold bind at 1;
    unfold with_mysql; cbn [m_auto_commit m_schema m_charset m_account];
    rewrite IH; reflexivity.
Qed.

(** C9 as stated fails: against a server that accepts the handshake
    but never answers the status probe, and an account with a default
    schema, the [connect()] nested in [set_schema] does not take the
    fast path; it connects again and re-enters itself, so no depth
    budget lets [connect()] return. *)
Lemma connect_recursion_unbounded :
  ~ exists d r,
      connect (Mock.lib Mock.mute) 4 d
              (Mock.fresh (Mock.tuned "db1" true []) (Mock.idle 8)) = Some r.
Proof.
  intros [d [r H]]. unfold Mock.fresh, new_connection in H.
  rewrite mute_connect_out_of_budget in H. discriminate.
Qed.

(** ** Claims on [connect] *)

(** C1, at the failing inputs: when the handshake is refused, and when
    the TLS parameters are rejected, [connect()] returns false but the
    handle that [mysql_init] returned stays in [m_mysql]; neither
    [mysql_close] nor [mysql_thread_end] is called.  A second
    [connect()] then overwrites the pointer with a new handle, and the
    first one is never closed. *)
Theorem connect_failure_keeps_handle :
  (exists s',
     connect (Mock.lib Mock.unreachable) 4 1
             (Mock.fresh Mock.guest (Mock.idle 8)) = Some (false, s') /\
     m_mysql (conn s') = Some 1%positive /\
     calls s' = [EvReport 2002 "error"; EvRealConnect (Some 1%positive);
                 EvInit]) /\
  (exists s',
     connect (Mock.lib Mock.tls_rejected) 4 1
             (Mock.fresh Mock.secured (Mock.idle 8)) = Some (false, s') /\
     m_mysql (conn s') = Some 1%positive /\
     calls s' = [EvReport 2002 "error"; EvSslSet (Some 1%positive);
                 EvInit]) /\
  (exists s'',
     bind (connect (Mock.lib Mock.unreachable) 4 1)
          (fun _ => connect (Mock.lib Mock.unreachable) 4 1)
          (Mock.fresh Mock.guest (Mock.idle 8)) = Some (false, s'') /\
     m_mysql (conn s'') = Some 2%positive /\
     allocations (calls s'') = 2%nat /\
     closes (calls s'') = 0%nat).
Proof.
  split; [|split];
    (eexists; split; [vm_compute; reflexivity|]; repeat split; reflexivity).
Qed.

(** * Further properties of the methods *)

(** ** Statements on a connected connection *)

(** X1: once the [connect()] that opens [set_charset] has returned
    true, a failing [mysql_set_character_set] makes it report and
    return false with the connection object untouched and nothing
    closed; a succeeding one makes it return true with the charset
    cache equal to the value, the other caches and the handle as they
    were. *)
Theorem set_charset_outcomes :
  forall (W : Type) (L : native W) (k d : nat) (value : string)
         (s s1 : state W) (rc : Z) (w2 : W),
    connect L k d s = Some (true, s1) ->
    mysql_set_character_set L (m_mysql (conn s1)) value (world s1) = (rc, w2) ->
    exists s',
      set_charset L k d value s = Some ((rc =? 0)%Z, s') /\
      world s' = w2 /\
      (rc = 0%Z ->
       conn s' = with_charset (conn s1) value /\
       charset s' = value /\ schema s' = schema s1 /\
       auto_commit s' = auto_commit s1 /\
       calls s' = EvSetCharacterSet (m_mysql (conn s1)) value :: calls s1) /\
      (rc <> 0%Z ->
       conn s' = conn s1 /\
       closes (calls s') = closes (calls s1) /\
       reports (calls s') = S (reports (calls s1))).
Proof.
  intros W L k d value s s1 rc w2 Hc Hset.
  unfold set_charset, set_charset_with, bind. rewrite Hc. simpl.
  unfold this, native_call, bind. rewrite Hset. unfold nonzero.
  destruct (Z.eqb_spec rc 0) as [E|E]; simpl.
  - eexists. split; [reflexivity|]. simpl.
    split; [reflexivity|]. split; [intros _; repeat split|].
    intro N; contradiction.
  - eexists. split; [reflexivity|]. simpl.
    split; [reflexivity|]. split; [intro N; contradiction|].
    intros _. repeat split.
Qed.

Lemma set_charset_outcomes_witness :
  exists s',
    set_charset (Mock.lib (Mock.works Mock.batch)) 4 1 "utf8"
                (Mock.online Mock.guest 8) = Some (true, s') /\
    charset s' = "utf8".
Proof.
  destruct (set_charset_outcomes _ (Mock.lib (Mock.works Mock.batch)) 4 1
              "utf8" (Mock.online Mock.guest 8)
              (mk_state (conn (Mock.online Mock.guest 8))
                        (world (Mock.online Mock.guest 8))
                        [EvStat (Some 1%positive)])
              0%Z (world (Mock.online Mock.guest 8)))
    as [s' [Hrun [_ [Hok _]]]].
  - reflexivity.
  - reflexivity.
  - exists s'. split; [exact Hrun|]. now apply Hok.
Defined.

(** X2: on a connected connection, a text that [mysql_real_query]
    rejects makes [query] return no result set, [execute] return 0
    and [insert] return 0; each reports once, as its last act, and
    none of them goes on to read a result, advance to a next one or
    ask for an insert id.  [execute] does so whatever its loop
    budget. *)
Theorem rejected_text_gives_sentinels :
  forall (W : Type) (L : native W) (k d : nat) (q : string)
         (s s1 : state W) (rc : Z) (w2 : W),
    connected L s = Some (true, s1) ->
    mysql_real_query L (m_mysql (conn s)) q (String.length q) (world s1)
      = (rc, w2) ->
    rc <> 0%Z ->
    let after :=
      mk_state (conn s) w2
               (EvReport (mysql_errno L (m_mysql (conn s)) w2)
                         (mysql_error L (m_mysql (conn s)) w2)
                  :: EvRealQuery (m_mysql (conn s)) q :: calls s1) in
    query L k (S d) q s = Some (None, after) /\
    execute L k (S d) q s = Some (0%N, after) /\
    insert L k (S d) q s = Some (0%N, after).
Proof.
  intros W L k d q s s1 rc w2 Hc Hq Hrc after.
  pose proof (connect_fast_path L k d s s1 Hc) as Hg.
  destruct (connected_true_inv L s s1 Hc) as [h [txt [w [Hm [Hs ->]]]]].
  simpl in Hq.
  assert (Hn : nonzero rc = true).
  { unfold nonzero. destruct (Z.eqb_spec rc 0); [contradiction | reflexivity]. }
  repeat split.
  - unfold query, query_with, bind. rewrite Hg. simpl.
    unfold real_query, bind, this, native_call. simpl. rewrite Hq, Hn.
    reflexivity.
  - unfold execute, execute_with, bind. rewrite Hg. simpl.
    unfold real_query, bind, this, native_call. simpl. rewrite Hq, Hn.
    reflexivity.
  - unfold insert, insert_with, bind. rewrite Hg. simpl.
    unfold real_query, bind, this, native_call. simpl. rewrite Hq, Hn.
    reflexivity.
Qed.

Lemma rejected_text_gives_sentinels_witness :
  exists after,
    query (Mock.lib (Mock.works Mock.batch)) 0 1 "SELEC"
          (Mock.online Mock.guest 8) = Some (None, after) /\
    execute (Mock.lib (Mock.works Mock.batch)) 0 1 "SELEC"
            (Mock.online Mock.guest 8) = Some (0%N, after) /\
    insert (Mock.lib (Mock.works Mock.batch)) 0 1 "SELEC"
           (Mock.online Mock.guest 8) = Some (0%N, after).
Proof.
  eexists.
  apply (rejected_text_gives_sentinels _ (Mock.lib (Mock.works Mock.batch))
           0 0 "SELEC" (Mock.online Mock.guest 8)
           (mk_state (conn (Mock.online Mock.guest 8))
                     (world (Mock.online Mock.guest 8))
                     [EvStat (Some 1%positive)])
           1%Z (world (Mock.online Mock.guest 8))).
  - reflexivity.
  - reflexivity.
  - discriminate.
Defined.

(** X3: on a connected connection, a text that [mysql_real_query]
    accepts makes [insert] return what [mysql_insert_id] reads in the
    world the query left, without buffering or passing over any result
    of the text, and makes [query] return a result set holding what
    [mysql_store_result] buffers first; neither reports nor changes
    the connection object. *)
Theorem accepted_text_insert_and_query :
  forall (W : Type) (L : native W) (k d : nat) (q : string)
         (s s1 : state W) (w2 : W),
    connected L s = Some (true, s1) ->
    mysql_real_query L (m_mysql (conn s)) q (String.length q) (world s1)
      = (0%Z, w2) ->
    insert L k (S d) q s
      = Some (mysql_insert_id L (m_mysql (conn s)) w2,
              mk_state (conn s) w2
                       (EvInsertId (m_mysql (conn s))
                          :: EvRealQuery (m_mysql (conn s)) q :: calls s1)) /\
    query L k (S d) q s
      = Some (Some (mk_result_set
                      (fst (mysql_store_result L (m_mysql (conn s)) w2))),
              mk_state (conn s)
                       (snd (mysql_store_result L (m_mysql (conn s)) w2))
                       (EvStoreResult (m_mysql (conn s))
                          :: EvRealQuery (m_mysql (conn s)) q :: calls s1)).
Proof.
  intros W L k d q s s1 w2 Hc Hq.
  pose proof (connect_fast_path L k d s s1 Hc) as Hg.
  destruct (connected_true_inv L s s1 Hc) as [h [txt [w [Hm [Hs ->]]]]].
  simpl in Hq. split.
  - unfold insert, insert_with, bind. rewrite Hg. simpl.
    unfold real_query, bind, this, native_call, native_read. simpl.
    rewrite Hq. reflexivity.
  - unfold query, query_with, bind. rewrite Hg. simpl.
    unfold real_query, bind, this, native_call, ret. simpl.
    rewrite Hq. simpl.
    destruct (mysql_store_result L (m_mysql (conn s)) w2) as [r w3].
    reflexivity.
Qed.

Lemma accepted_text_insert_and_query_witness :
  exists s',
    insert (Mock.lib (Mock.works Mock.batch)) 4 1
           "INSERT a; SELECT b; INSERT c" (Mock.online Mock.guest 8)
      = Some (0%N, s') /\
    Mock.sv_pending (world s')
      = [Mock.RowCount 2; Mock.RowSet 7%positive; Mock.RowCount 3].
Proof.
  destruct (accepted_text_insert_and_query _
              (Mock.lib (Mock.works Mock.batch)) 4 0
              "INSERT a; SELECT b; INSERT c" (Mock.online Mock.guest 8)
              (mk_state (conn (Mock.online Mock.guest 8))
                        (world (Mock.online Mock.guest 8))
                        [EvStat (Some 1%positive)])
              (Mock.mk_server 8 (Some 1%positive)
                 [Mock.RowCount 2; Mock.RowSet 7%positive; Mock.RowCount 3]
                 2%positive) eq_refl eq_refl) as [Hins _].
  eexists. split; [exact Hins | reflexivity].
Defined.

(** X4: when the [connect()] a method starts with returns false, the
    method returns its failure value - false, no result set, 0 - and
    stops there: the state is the one that [connect()] left, so
    nothing is sent over the failed connection.  For
    [set_auto_commit] this holds when the flag differs from the
    cache. *)
Theorem failed_connect_stops_the_method :
  forall (W : Type) (L : native W) (k d : nat) (text : string)
         (flag : bool) (s s1 : state W),
    connect L k d s = Some (false, s1) ->
    set_schema L k d text s = Some (false, s1) /\
    set_charset L k d text s = Some (false, s1) /\
    query L k d text s = Some (None, s1) /\
    execute L k d text s = Some (0%N, s1) /\
    insert L k d text s = Some (0%N, s1) /\
    (m_auto_commit (conn s) <> flag ->
     set_auto_commit L k d flag s = Some (false, s1)).
Proof.
  intros W L k d text flag s s1 Hc.
  unfold set_schema, set_schema_with, set_charset, set_charset_with,
    query, query_with, execute, execute_with, insert, insert_with,
    set_auto_commit, set_auto_commit_with, bind, this.
  rewrite Hc. simpl. repeat split.
  intro Hne.
  destruct (Bool.eqb_spec (m_auto_commit (conn s)) flag) as [E|_];
    [contradiction|].
  rewrite Hc. reflexivity.
Qed.

Lemma failed_connect_stops_the_method_witness :
  exists s1,
    connect (Mock.lib Mock.unreachable) 4 1
            (Mock.fresh Mock.guest (Mock.idle 8)) = Some (false, s1) /\
    execute (Mock.lib Mock.unreachable) 4 1 "INSERT a"
            (Mock.fresh Mock.guest (Mock.idle 8)) = Some (0%N, s1).
Proof.
  eexists. split; [vm_compute; reflexivity|].
  apply (failed_connect_stops_the_method _ (Mock.lib Mock.unreachable) 4 1
           "INSERT a" false (Mock.fresh Mock.guest (Mock.idle 8))).
  vm_compute. reflexivity.
Defined.

(** ** The account *)

Section AccountFrame.

Context {W : Type}.
Variable L : native W.
Variable k : nat.

Section Guard.

Variable guard : M W bool.
Hypothesis Hguard : keeps same_account guard.

Lemma keeps_account_set_charset value :
  keeps same_account (set_charset_with L guard value).
Proof.
  unfold set_charset_with, MYSQL_ERROR_RETURN_FALSE.
  repeat first [apply keeps_account_assign; reflexivity | keeps_step].
Qed.

Lemma keeps_account_query q :
  keeps same_account (query_with L guard q).
Proof.
  unfold query_with.
  repeat first [apply keeps_real_query; auto with frames | keeps_step].
Qed.

Lemma keeps_account_insert q :
  keeps same_account (insert_with L guard q).
Proof.
  unfold insert_with.
  repeat first [apply keeps_real_query; auto with frames | keeps_step].
Qed.

End Guard.

Variable d : nat.

Lemma keeps_account_serve r : keeps same_account (serve L k d r).
Proof.
  pose proof (keeps_account_connect L k d) as Hc.
  destruct r; unfold serve, discard, set_schema, set_charset,
    set_auto_commit, query, execute, insert, connected;
    repeat first [ exact Hc
                 | apply keeps_account_disconnect
                 | apply keeps_account_set_schema; exact Hc
                 | apply keeps_account_set_charset; exact Hc
                 | apply keeps_account_set_auto_commit; exact Hc
                 | apply keeps_account_query; exact Hc
                 | apply keeps_account_execute; exact Hc
                 | apply keeps_account_insert; exact Hc
                 | keeps_step ].
Qed.

Lemma keeps_account_serve_all rs : keeps same_account (serve_all L k d rs).
Proof.
  induction rs as [|r rest IH]; simpl.
  - keeps_step.
  - apply keeps_bind; [auto with frames | apply keeps_account_serve |].
    intros _. exact IH.
Qed.

End AccountFrame.

(** X5: whichever of [connect], [disconnect], [connected],
    [set_schema], [set_charset], [set_auto_commit], [query], [execute]
    and [insert] are called, in whatever order and with whatever
    answers from the native library, the connection keeps the account
    it was constructed with. *)
Theorem account_is_never_reassigned :
  forall (W : Type) (L : native W) (k d : nat) (rs : list request)
         (s s' : state W),
    serve_all L k d rs s = Some (tt, s') ->
    m_account (conn s') = m_account (conn s).
Proof.
  intros W L k d rs s s' H.
  exact (keeps_account_serve_all L k d rs s tt s' H).
Qed.

Lemma account_is_never_reassigned_witness :
  exists s',
    serve_all (Mock.lib (Mock.works Mock.one_row)) 2 2
              [SetAutoCommit false; SetSchema "db1"; Execute "INSERT a";
               Disconnect; Query "SELECT b"]
              (Mock.fresh (Mock.tuned "db1" true [("a", "b")]) (Mock.idle 8))
      = Some (tt, s') /\
    m_account (conn s') = Mock.tuned "db1" true [("a", "b")].
Proof.
  destruct (serve_all (Mock.lib (Mock.works Mock.one_row)) 2 2
              [SetAutoCommit false; SetSchema "db1"; Execute "INSERT a";
               Disconnect; Query "SELECT b"]
              (Mock.fresh (Mock.tuned "db1" true [("a", "b")]) (Mock.idle 8)))
    as [[[] s']|] eqn:E; [|vm_compute in E; discriminate].
  exists s'. split; [reflexivity|].
  exact (account_is_never_reassigned _ _ _ _ _ _ _ E).
Defined.

(** ** The handle after a successful [connect] *)

Section Handles.

Context {W : Type}.
Variable L : native W.
Variable k : nat.

Lemma execute_loop_conn n acc s r s' :
  execute_loop L n acc s = Some (r, s') -> conn s' = conn s.
Proof. exact (keeps_execute_loop L _ frame_same_conn n acc s r s'). Qed.

Lemma real_query_conn q s r s' :
  real_query L q s = Some (r, s') -> conn s' = conn s.
Proof. exact (keeps_real_query L _ frame_same_conn q s r s'). Qed.

Section Guard.

Variable guard : M W bool.

Lemma set_auto_commit_handle flag s s' :
  (forall s s', guard s = Some (true, s') -> m_mysql (conn s') <> None) ->
  m_mysql (conn s) <> None ->
  set_auto_commit_with L guard flag s = Some (true, s') ->
  m_mysql (conn s') <> None.
Proof.
  intros Hguard Hs H. unfold set_auto_commit_with, MYSQL_ERROR_RETURN_FALSE,
    MYSQL_ERROR_NO_BRAKET, MARIADB_ERROR in H.
  crack H; inversion H; subst; simpl; auto;
    match goal with
    | Hg : guard _ = Some (?b, _) |- _ =>
        destruct b; [apply Hguard in Hg; exact Hg | discriminate]
    end.
Qed.

Lemma set_schema_handle name s s' :
  (forall s s', guard s = Some (true, s') -> m_mysql (conn s') <> None) ->
  set_schema_with L guard name s = Some (true, s') ->
  m_mysql (conn s') <> None.
Proof.
  intros Hguard H. unfold set_schema_with, MYSQL_ERROR_RETURN_FALSE,
    MYSQL_ERROR_NO_BRAKET, MARIADB_ERROR in H.
  crack H; inversion H; subst; simpl;
    match goal with
    | Hg : guard _ = Some (?b, _) |- _ =>
        destruct b; [apply Hguard in Hg; exact Hg | discriminate]
    end.
Qed.

Lemma execute_handle q s n s' :
  (forall s s', guard s = Some (true, s') -> m_mysql (conn s') <> None) ->
  execute_with L k guard q s = Some (n, s') ->
  n <> 0%N ->
  m_mysql (conn s') <> None.
Proof.
  intros Hguard H Hn. unfold execute_with in H. unfold bind at 1 in H.
  destruct (guard s) as [[[|] s1]|] eqn:Eg; simpl in H;
    [|inversion H; subst; contradiction|discriminate].
  apply Hguard in Eg. unfold bind at 1 in H.
  destruct (real_query L q s1) as [[rc s2]|] eqn:Eq; [|discriminate].
  apply real_query_conn in Eq.
  destruct (nonzero rc).
  - unfold MYSQL_ERROR_NO_BRAKET, MARIADB_ERROR, bind, ret in H.
    inversion H; subst. contradiction.
  - apply execute_loop_conn in H. congruence.
Qed.

Lemma connect_options_handle opts :
  (forall s s', guard s = Some (true, s') -> m_mysql (conn s') <> None) ->
  forall s s',
    m_mysql (conn s) <> None ->
    connect_options L k guard opts s = Some (true, s') ->
    m_mysql (conn s') <> None.
Proof.
  intro Hguard.
  induction opts as [|kv rest IH]; intros s s' Hs H; simpl in H.
  - inversion H; subst. exact Hs.
  - unfold bind in H.
    destruct (execute_with L k guard (c_str (option_statement kv)) s)
      as [[n s1]|] eqn:E; [|discriminate].
    destruct (N.eqb_spec n 1) as [->|N1]; simpl in H.
    + eapply IH; [|exact H].
      eapply execute_handle; [exact Hguard | exact E | discriminate].
    + apply error_disconnect_false in H. destruct H; discriminate.
Qed.

Lemma connect_setup_handle s s' :
  (forall s s', guard s = Some (true, s') -> m_mysql (conn s') <> None) ->
  m_mysql (conn s) <> None ->
  connect_setup L k guard s = Some (true, s') ->
  m_mysql (conn s') <> None.
Proof.
  intros Hguard Hs H. unfold connect_setup in H.
  crack H; try (apply error_disconnect_false in H; destruct H; discriminate);
    (eapply connect_options_handle; [exact Hguard | | exact H]);
    repeat match goal with
           | Hb : negb ?b = false |- _ =>
               destruct b; [clear Hb | discriminate Hb]
           end.
  - eapply set_schema_handle; eassumption.
  - eapply set_auto_commit_handle; eassumption.
Qed.

Lemma connect_body_handle s s' :
  (forall s s', guard s = Some (true, s') -> m_mysql (conn s') <> None) ->
  connect_body L k guard s = Some (true, s') ->
  m_mysql (conn s') <> None.
Proof.
  intros Hguard H. unfold connect_body in H. unfold bind at 1 in H.
  destruct (connected L s) as [[[|] s0]|] eqn:Hc; [| |discriminate].
  - inversion H; subst.
    destruct (connected_true_inv L s s' Hc) as [h [txt [w [Hm [_ ->]]]]].
    simpl. congruence.
  - cbv beta iota in H.
    unfold connect_handshake, MYSQL_ERROR_RETURN_FALSE, MYSQL_ERROR_NO_BRAKET,
      MARIADB_ERROR, ssl_set, real_connect in H.
    crack H; simpl in H;
      (eapply connect_setup_handle; [exact Hguard | | exact H]);
      simpl; discriminate.
Qed.

End Guard.

Lemma connect_handle d :
  forall s s', connect L k d s = Some (true, s') -> m_mysql (conn s') <> None.
Proof.
  induction d as [|d IH]; intros s s' H; [discriminate|].
  simpl in H. eapply connect_body_handle; [exact IH | exact H].
Qed.

End Handles.

(** X6: whenever [connect()] returns true the connection holds a
    session handle, on the fast path and after any nesting of
    re-connections alike; so the native calls that [set_schema],
    [set_charset], [set_auto_commit], [query], [execute] and [insert]
    make after their [connect()] are never given a NULL pointer. *)
Theorem connect_true_holds_a_handle :
  forall (W : Type) (L : native W) (k d : nat) (s s' : state W),
    connect L k d s = Some (true, s') ->
    exists h, m_mysql (conn s') = Some h.
Proof.
  intros W L k d s s' H.
  pose proof (connect_handle L k d s s' H) as Hh.
  destruct (m_mysql (conn s')) as [h|]; [eauto | contradiction].
Qed.

Lemma connect_true_holds_a_handle_witness :
  exists s' h,
    connect (Mock.lib (Mock.works Mock.one_row)) 2 2
            (Mock.fresh (Mock.tuned "db1" false [("a", "b")]) (Mock.idle 8))
      = Some (true, s') /\
    m_mysql (conn s') = Some h.
Proof.
  destruct (connect (Mock.lib (Mock.works Mock.one_row)) 2 2
              (Mock.fresh (Mock.tuned "db1" false [("a", "b")]) (Mock.idle 8)))
    as [[b s']|] eqn:E; [|vm_compute in E; discriminate].
  assert (Hb : b = true) by (vm_compute in E; congruence). subst b.
  destruct (connect_true_holds_a_handle _ _ _ _ _ _ E) as [h Hh].
  exists s', h. split; [reflexivity | exact Hh].
Defined.

(** ** Invariants of the chronicle *)

(** Climbs down a chronicle with the closure rules of an invariant;
    [Hm] says which handle the connection holds. *)
Ltac chron HI Hm :=
  simpl; rewrite ?Hm;
  repeat first
    [ assumption
    | apply (ci_schema _ HI)
    | apply (ci_charset _ HI)
    | apply (ci_auto_commit _ HI)
    | apply (ci_report _ HI)
    | eapply (ci_routine _ HI);
      [exact Hm | simpl; first [reflexivity | apply Pos.eqb_refl] | ] ].

Section Chronicle.

Context {W : Type}.
Variable L : native W.
Variable k : nat.
Variable I : connection -> list event -> Prop.
Hypothesis HI : chronicle_invariant I.

Lemma chron_connected s b s' :
  I (conn s) (calls s) ->
  connected L s = Some (b, s') ->
  I (conn s') (calls s').
Proof.
  intros Hi H. unfold connected, bind, this, ret, native_call in H.
  destruct (m_mysql (conn s)) as [h|] eqn:Hm.
  - destruct (mysql_stat L (Some h) (world s)) as [r w].
    inversion H; subst. simpl.
    eapply (ci_routine _ HI); [exact Hm | simpl; apply Pos.eqb_refl | exact Hi].
  - inversion H; subst. exact Hi.
Qed.

Lemma chron_report s u s' :
  I (conn s) (calls s) ->
  MYSQL_ERROR_NO_BRAKET L s = Some (u, s') ->
  I (conn s') (calls s').
Proof.
  intros Hi H. unfold MYSQL_ERROR_NO_BRAKET, MARIADB_ERROR in H.
  inversion H; subst. simpl. now apply (ci_report _ HI).
Qed.

Lemma chron_disconnect s u s' :
  I (conn s) (calls s) ->
  disconnect L s = Some (u, s') ->
  I (conn s') (calls s').
Proof.
  intros Hi H. unfold disconnect, bind, this, ret, native_do, assign in H.
  destruct (m_mysql (conn s)) as [h|] eqn:Hm; inversion H; subst; simpl.
  - now apply (ci_disconnect _ HI).
  - exact Hi.
Qed.

Lemma chron_error_disconnect s b s' :
  I (conn s) (calls s) ->
  MYSQL_ERROR_DISCONNECT L s = Some (b, s') ->
  I (conn s') (calls s').
Proof.
  intros Hi H. unfold MYSQL_ERROR_DISCONNECT in H. unfold bind at 1 in H.
  destruct (MYSQL_ERROR_NO_BRAKET L s) as [[u s1]|] eqn:E1; [|discriminate].
  apply (chron_report _ _ _ Hi) in E1. unfold bind at 1 in H.
  destruct (disconnect L s1) as [[u2 s2]|] eqn:E2; [|discriminate].
  apply (chron_disconnect _ _ _ E1) in E2.
  inversion H; subst. exact E2.
Qed.

Lemma chron_advance h again acc s r s' :
  (forall a s1 r1 s2,
      m_mysql (conn s1) = Some h -> I (conn s1) (calls s1) ->
      again a s1 = Some (r1, s2) -> I (conn s2) (calls s2)) ->
  m_mysql (conn s) = Some h ->
  I (conn s) (calls s) ->
  advance L again acc s = Some (r, s') ->
  I (conn s') (calls s').
Proof.
  intros Hagain Hm Hi H.
  unfold advance, bind, this, native_call in H.
  destruct (mysql_next_result L (m_mysql (conn s)) (world s)) as [st w].
  assert (Hi1 : I (conn s) (EvNextResult (m_mysql (conn s)) :: calls s))
    by chron HI Hm.
  destruct (st >? 0)%Z.
  - unfold MYSQL_ERROR_NO_BRAKET, MARIADB_ERROR, ret in H.
    inversion H; subst. simpl. now apply (ci_report _ HI).
  - destruct (st =? 0)%Z.
    + eapply Hagain; [| |exact H]; simpl; assumption.
    + inversion H; subst. exact Hi1.
Qed.

Lemma chron_execute_loop h n :
  forall acc s r s',
    m_mysql (conn s) = Some h ->
    I (conn s) (calls s) ->
    execute_loop L n acc s = Some (r, s') ->
    I (conn s') (calls s').
Proof.
  induction n as [|n IH]; intros acc s r s' Hm Hi H; [discriminate|].
  simpl in H. unfold bind at 1 2, this, native_call in H.
  destruct (mysql_store_result L (m_mysql (conn s)) (world s)) as [[x|] w].
  - unfold bind at 1, native_do in H.
    cbn [conn world calls] in H.
    refine (chron_advance h _ _ _ _ _ (fun a s1 r1 s2 => IH a s1 r1 s2)
              _ _ H); [exact Hm | chron HI Hm].
  - unfold bind at 1, native_read in H. cbn [conn world calls] in H.
    destruct (mysql_field_count L (m_mysql (conn s)) w =? 0)%N.
    + unfold bind at 1 in H. cbn [conn world calls] in H.
      refine (chron_advance h _ _ _ _ _ (fun a s1 r1 s2 => IH a s1 r1 s2)
                _ _ H); [exact Hm | chron HI Hm].
    + unfold MYSQL_ERROR_NO_BRAKET, MARIADB_ERROR, bind, ret in H.
      inversion H; subst. chron HI Hm.
Qed.

Section Guard.

Variable guard : M W bool.

Lemma chron_enter s b s1 :
  (forall s s', guard s = Some (true, s') -> m_mysql (conn s') <> None) ->
  (forall s b s', I (conn s) (calls s) -> guard s = Some (b, s') ->
                  I (conn s') (calls s')) ->
  I (conn s) (calls s) ->
  guard s = Some (b, s1) ->
  I (conn s1) (calls s1) /\
  (b = true -> exists h, m_mysql (conn s1) = Some h).
Proof.
  intros Gh Gi Hi Eg. split; [eapply Gi; eassumption|].
  intros ->. apply Gh in Eg.
  destruct (m_mysql (conn s1)) as [h|]; [eauto | contradiction].
Qed.

Lemma chron_set_schema name s b s' :
  (forall s s', guard s = Some (true, s') -> m_mysql (conn s') <> None) ->
  (forall s b s', I (conn s) (calls s) -> guard s = Some (b, s') ->
                  I (conn s') (calls s')) ->
  I (conn s) (calls s) ->
  set_schema_with L guard name s = Some (b, s') ->
  I (conn s') (calls s').
Proof.
  intros Gh Gi Hi H. unfold set_schema_with in H. unfold bind at 1 in H.
  destruct (guard s) as [[g s1]|] eqn:Eg; [|discriminate].
  destruct (chron_enter _ _ _ Gh Gi Hi Eg) as [Hi1 Hh].
  destruct g; simpl in H; [|inversion H; subst; exact Hi1].
  destruct (Hh eq_refl) as [h Hm].
  unfold bind, this, native_call, ret, assign, MYSQL_ERROR_RETURN_FALSE,
    MYSQL_ERROR_NO_BRAKET, MARIADB_ERROR in H.
  destruct (mysql_select_db L (m_mysql (conn s1)) name (world s1)) as [rc w].
  destruct (nonzero rc); inversion H; subst; chron HI Hm.
Qed.

Lemma chron_set_charset value s b s' :
  (forall s s', guard s = Some (true, s') -> m_mysql (conn s') <> None) ->
  (forall s b s', I (conn s) (calls s) -> guard s = Some (b, s') ->
                  I (conn s') (calls s')) ->
  I (conn s) (calls s) ->
  set_charset_with L guard value s = Some (b, s') ->
  I (conn s') (calls s').
Proof.
  intros Gh Gi Hi H. unfold set_charset_with in H. unfold bind at 1 in H.
  destruct (guard s) as [[g s1]|] eqn:Eg; [|discriminate].
  destruct (chron_enter _ _ _ Gh Gi Hi Eg) as [Hi1 Hh].
  destruct g; simpl in H; [|inversion H; subst; exact Hi1].
  destruct (Hh eq_refl) as [h Hm].
  unfold bind, this, native_call, ret, assign, MYSQL_ERROR_RETURN_FALSE,
    MYSQL_ERROR_NO_BRAKET, MARIADB_ERROR in H.
  destruct (mysql_set_character_set L (m_mysql (conn s1)) value (world s1))
    as [rc w].
  destruct (nonzero rc); inversion H; subst; chron HI Hm.
Qed.

Lemma chron_set_auto_commit flag s b s' :
  (forall s s', guard s = Some (true, s') -> m_mysql (conn s') <> None) ->
  (forall s b s', I (conn s) (calls s) -> guard s = Some (b, s') ->
                  I (conn s') (calls s')) ->
  I (conn s) (calls s) ->
  set_auto_commit_with L guard flag s = Some (b, s') ->
  I (conn s') (calls s').
Proof.
  intros Gh Gi Hi H. unfold set_auto_commit_with in H.
  unfold bind at 1, this in H.
  destruct (Bool.eqb (m_auto_commit (conn s)) flag);
    [inversion H; subst; exact Hi|].
  unfold bind at 1 in H.
  destruct (guard s) as [[g s1]|] eqn:Eg; [|discriminate].
  destruct (chron_enter _ _ _ Gh Gi Hi Eg) as [Hi1 Hh].
  destruct g; simpl in H; [|inversion H; subst; exact Hi1].
  destruct (Hh eq_refl) as [h Hm].
  unfold bind, this, native_call, ret, assign, MYSQL_ERROR_RETURN_FALSE,
    MYSQL_ERROR_NO_BRAKET, MARIADB_ERROR in H.
  destruct (mysql_autocommit L (m_mysql (conn s1)) flag (world s1)) as [rc w].
  destruct (nonzero rc); inversion H; subst; chron HI Hm.
Qed.

Lemma chron_query q s r s' :
  (forall s s', guard s = Some (true, s') -> m_mysql (conn s') <> None) ->
  (forall s b s', I (conn s) (calls s) -> guard s = Some (b, s') ->
                  I (conn s') (calls s')) ->
  I (conn s) (calls s) ->
  query_with L guard q s = Some (r, s') ->
  I (conn s') (calls s').
Proof.
  intros Gh Gi Hi H. unfold query_with in H. unfold bind at 1 in H.
  destruct (guard s) as [[g s1]|] eqn:Eg; [|discriminate].
  destruct (chron_enter _ _ _ Gh Gi Hi Eg) as [Hi1 Hh].
  destruct g; simpl in H; [|inversion H; subst; exact Hi1].
  destruct (Hh eq_refl) as [h Hm].
  unfold real_query, bind, this, native_call, ret,
    MYSQL_ERROR_NO_BRAKET, MARIADB_ERROR in H.
  destruct (mysql_real_query L (m_mysql (conn s1)) q (String.length q)
              (world s1)) as [rc w].
  destruct (nonzero rc); cbn [conn world calls] in H.
  - inversion H; subst. chron HI Hm.
  - destruct (mysql_store_result L (m_mysql (conn s1)) w) as [x w2].
    inversion H; subst. chron HI Hm.
Qed.

Lemma chron_insert q s r s' :
  (forall s s', guard s = Some (true, s') -> m_mysql (conn s') <> None) ->
  (forall s b s', I (conn s) (calls s) -> guard s = Some (b, s') ->
                  I (conn s') (calls s')) ->
  I (conn s) (calls s) ->
  insert_with L guard q s = Some (r, s') ->
  I (conn s') (calls s').
Proof.
  intros Gh Gi Hi H. unfold insert_with in H. unfold bind at 1 in H.
  destruct (guard s) as [[g s1]|] eqn:Eg; [|discriminate].
  destruct (chron_enter _ _ _ Gh Gi Hi Eg) as [Hi1 Hh].
  destruct g; simpl in H; [|inversion H; subst; exact Hi1].
  destruct (Hh eq_refl) as [h Hm].
  unfold real_query, bind, this, native_call, native_read, ret,
    MYSQL_ERROR_NO_BRAKET, MARIADB_ERROR in H.
  destruct (mysql_real_query L (m_mysql (conn s1)) q (String.length q)
              (world s1)) as [rc w].
  destruct (nonzero rc); cbn [conn world calls] in H;
    inversion H; subst; chron HI Hm.
Qed.

Lemma chron_execute q s r s' :
  (forall s s', guard s = Some (true, s') -> m_mysql (conn s') <> None) ->
  (forall s b s', I (conn s) (calls s) -> guard s = Some (b, s') ->
                  I (conn s') (calls s')) ->
  I (conn s) (calls s) ->
  execute_with L k guard q s = Some (r, s') ->
  I (conn s') (calls s').
Proof.
  intros Gh Gi Hi H. unfold execute_with in H. unfold bind at 1 in H.
  destruct (guard s) as [[g s1]|] eqn:Eg; [|discriminate].
  destruct (chron_enter _ _ _ Gh Gi Hi Eg) as [Hi1 Hh].
  destruct g; simpl in H; [|inversion H; subst; exact Hi1].
  destruct (Hh eq_refl) as [h Hm].
  unfold real_query in H. unfold bind at 1 2, this, native_call in H.
  destruct (mysql_real_query L (m_mysql (conn s1)) q (String.length q)
              (world s1)) as [rc w].
  destruct (nonzero rc); cbn [conn world calls] in H.
  - unfold MYSQL_ERROR_NO_BRAKET, MARIADB_ERROR, bind, ret in H.
    inversion H; subst. chron HI Hm.
  - eapply (chron_execute_loop h); [| |exact H]; [exact Hm | chron HI Hm].
Qed.

Lemma chron_options opts :
  (forall s s', guard s = Some (true, s') -> m_mysql (conn s') <> None) ->
  (forall s b s', I (conn s) (calls s) -> guard s = Some (b, s') ->
                  I (conn s') (calls s')) ->
  forall s b s',
    I (conn s) (calls s) ->
    connect_options L k guard opts s = Some (b, s') ->
    I (conn s') (calls s').
Proof.
  intros Gh Gi.
  induction opts as [|kv rest IH]; intros s b s' Hi H; simpl in H.
  - inversion H; subst. exact Hi.
  - unfold bind in H.
    destruct (execute_with L k guard (c_str (option_statement kv)) s)
      as [[n s1]|] eqn:E; [|discriminate].
    pose proof (chron_execute _ _ _ _ Gh Gi Hi E) as Hi1.
    destruct (negb (n =? 1)%N).
    + eapply chron_error_disconnect; eassumption.
    + eapply IH; eassumption.
Qed.

Lemma chron_setup s b s' :
  (forall s s', guard s = Some (true, s') -> m_mysql (conn s') <> None) ->
  (forall s b s', I (conn s) (calls s) -> guard s = Some (b, s') ->
                  I (conn s') (calls s')) ->
  I (conn s) (calls s) ->
  connect_setup L k guard s = Some (b, s') ->
  I (conn s') (calls s').
Proof.
  intros Gh Gi Hi H. unfold connect_setup in H. unfold bind at 1 2, this in H.
  destruct (set_auto_commit_with L guard _ s) as [[b1 s1]|] eqn:E1;
    [|discriminate].
  pose proof (chron_set_auto_commit _ _ _ _ Gh Gi Hi E1) as Hi1.
  destruct (negb b1); [eapply chron_error_disconnect; eassumption|].
  unfold bind at 1 2, this in H.
  assert (Hsch : forall b2 s2,
             (if negb (empty (schema_name (m_account (conn s1))))
              then set_schema_with L guard (c_str (schema_name (m_account (conn s1))))
              else ret true) s1 = Some (b2, s2) ->
             I (conn s2) (calls s2)).
  { intros b2 s2 E2.
    destruct (negb (empty (schema_name (m_account (conn s1))))).
    - eapply chron_set_schema; eassumption.
    - inversion E2; subst. exact Hi1. }
  destruct ((if negb (empty (schema_name (m_account (conn s1))))
             then set_schema_with L guard (c_str (schema_name (m_account (conn s1))))
             else ret true) s1) as [[b2 s2]|] eqn:E2; [|discriminate].
  pose proof (Hsch _ _ eq_refl) as Hi2.
  destruct (negb b2); [eapply chron_error_disconnect; eassumption|].
  unfold bind, this in H.
  eapply chron_options; eassumption.
Qed.

Lemma chron_body s b s' :
  (forall s s', guard s = Some (true, s') -> m_mysql (conn s') <> None) ->
  (forall s b s', I (conn s) (calls s) -> guard s = Some (b, s') ->
                  I (conn s') (calls s')) ->
  I (conn s) (calls s) ->
  connect_body L k guard s = Some (b, s') ->
  I (conn s') (calls s').
Proof.
  intros Gh Gi Hi H. unfold connect_body in H. unfold bind at 1 in H.
  destruct (connected L s) as [[live s0]|] eqn:Hc; [|discriminate].
  pose proof (chron_connected _ _ _ Hi Hc) as Hi0.
  destruct live; [inversion H; subst; exact Hi0|].
  unfold bind at 1 2, native_call, assign in H.
  destruct (mysql_init L (world s0)) as [[h|] w1]; cbn [conn world calls] in H.
  - assert (Hi1 : I (with_mysql (conn s0) (Some h)) (EvInit :: calls s0))
      by now apply (ci_init _ HI).
    unfold connect_handshake in H. unfold bind at 1 2, this in H.
    cbn [conn world calls] in H.
    destruct (negb (empty (ssl_key (m_account (with_mysql (conn s0) (Some h))))))
      eqn:Ekey.
    + unfold bind at 1 in H. unfold ssl_set, bind at 1, this, native_call,
        ret in H. cbn [conn world calls] in H.
      destruct (mysql_ssl_set L _ _ _ _ _ _ _) as [rc w2].
      assert (Hi2 : I (with_mysql (conn s0) (Some h))
                      (EvSslSet (Some h) :: EvInit :: calls s0)).
      { apply (ci_ssl_set _ HI); [reflexivity | | exact Hi1].
        now apply negb_true_iff in Ekey. }
      destruct (nonzero rc).
      * unfold MYSQL_ERROR_RETURN_FALSE, MYSQL_ERROR_NO_BRAKET, MARIADB_ERROR,
          bind, ret in H.
        inversion H; subst. simpl. now apply (ci_report _ HI).
      * unfold bind at 1 in H. unfold real_connect, bind at 1, this,
          native_call in H. cbn [conn world calls] in H.
        destruct (mysql_real_connect L _ _ _ _ _ _ _ _ _) as [[h'|] w3].
        -- eapply chron_setup; [exact Gh | exact Gi | | exact H]. simpl.
           now apply (ci_real_connect _ HI).
        -- unfold MYSQL_ERROR_RETURN_FALSE, MYSQL_ERROR_NO_BRAKET,
             MARIADB_ERROR, bind, ret in H.
           inversion H; subst. simpl. apply (ci_report _ HI).
           now apply (ci_real_connect _ HI).
    + unfold ret in H. unfold bind at 1 in H. unfold real_connect, bind at 1,
        this, native_call in H. cbn [conn world calls] in H.
      destruct (mysql_real_connect L _ _ _ _ _ _ _ _ _) as [[h'|] w3].
      * eapply chron_setup; [exact Gh | exact Gi | | exact H]. simpl.
        now apply (ci_real_connect _ HI).
      * unfold MYSQL_ERROR_RETURN_FALSE, MYSQL_ERROR_NO_BRAKET,
          MARIADB_ERROR, bind, ret in H.
        inversion H; subst. simpl. apply (ci_report _ HI).
        now apply (ci_real_connect _ HI).
  - unfold MARIADB_ERROR, bind, ret in H. inversion H; subst. simpl.
    apply (ci_report _ HI). now apply (ci_init _ HI).
Qed.

End Guard.

Lemma chron_connect d :
  forall s b s',
    I (conn s) (calls s) ->
    connect L k d s = Some (b, s') ->
    I (conn s') (calls s').
Proof.
  induction d as [|d IH]; intros s b s' Hi H; [discriminate|].
  simpl in H.
  eapply chron_body; [apply connect_handle | exact IH | exact Hi | exact H].
Qed.

Lemma chron_serve d r s u s' :
  I (conn s) (calls s) ->
  serve L k d r s = Some (u, s') ->
  I (conn s') (calls s').
Proof.
  intros Hi H.
  pose proof (connect_handle L k d) as Gh.
  pose proof (chron_connect d) as Gi.
  destruct r; unfold serve, discard, bind in H;
    try (eapply chron_disconnect; eassumption);
    match type of H with
    | match ?m s with _ => _ end = _ =>
        destruct (m s) as [[x s1]|] eqn:E; [|discriminate];
        inversion H; subst
    end.
  - eapply chron_connect; eassumption.
  - eapply chron_connected; eassumption.
  - eapply chron_set_schema; eassumption.
  - eapply chron_set_charset; eassumption.
  - eapply chron_set_auto_commit; eassumption.
  - eapply chron_query; eassumption.
  - eapply chron_execute; eassumption.
  - eapply chron_insert; eassumption.
Qed.

Lemma chron_serve_all d rs :
  forall s u s',
    I (conn s) (calls s) ->
    serve_all L k d rs s = Some (u, s') ->
    I (conn s') (calls s').
Proof.
  induction rs as [|r rest IH]; intros s u s' Hi H; simpl in H.
  - inversion H; subst. exact Hi.
  - unfold bind in H.
    destruct (serve L k d r s) as [[u1 s1]|] eqn:E; [|discriminate].
    eapply IH; [|exact H]. eapply chron_serve; eassumption.
Qed.

End Chronicle.

(** *** Four invariants *)

Lemma routine_not_null h e : routine h e = true -> passes_null e = false.
Proof.
  destruct e as [|x|x|x|x ?|x ?|x ?|?| |x ?|x|?|x|x|x|x|? ?];
    simpl; try discriminate; try reflexivity;
    destruct x; simpl; try discriminate; reflexivity.
Qed.

Lemma routine_paired h e l : routine h e = true -> paired (e :: l) = paired l.
Proof. destruct e; simpl; try discriminate; reflexivity. Qed.

Lemma routine_counts h e l :
  routine h e = true ->
  closes (e :: l) = closes l /\ allocations (e :: l) = allocations l /\
  tls_setups (e :: l) = tls_setups l.
Proof. destruct e; simpl; try discriminate; auto. Qed.

Lemma null_free_invariant :
  chronicle_invariant (fun _ l => null_free l = true).
Proof.
  split; intros; [|simpl; auto ..].
  unfold null_free in *. simpl.
  erewrite routine_not_null by eassumption. assumption.
Qed.

Lemma paired_invariant :
  chronicle_invariant (fun _ l => paired l = true).
Proof.
  split; intros; [|simpl; auto ..].
  erewrite routine_paired by eassumption. assumption.
Qed.

Lemma balance_invariant n :
  chronicle_invariant
    (fun c l => (closes l + held c <= allocations l + n)%nat).
Proof.
  split; intros c l; intros.
  - destruct (routine_counts h e l H0) as [-> [-> _]]. assumption.
  - simpl. assumption.
  - unfold held in *. simpl. destruct (m_mysql c), p; lia.
  - simpl. assumption.
  - simpl. assumption.
  - unfold held in *. simpl. rewrite H in H0. lia.
  - exact H.
  - exact H.
  - exact H.
Qed.

Lemma tls_invariant n :
  chronicle_invariant
    (fun c l => empty (ssl_key (m_account c)) = true -> tls_setups l = n).
Proof.
  split; intros c l; intros.
  - destruct (routine_counts h e l H0) as [_ [_ ->]]. auto.
  - simpl. auto.
  - simpl. auto.
  - simpl in *. congruence.
  - simpl. auto.
  - simpl. auto.
  - auto.
  - auto.
  - auto.
Qed.

(** X7: none of [connect], [disconnect], [connected], [set_schema],
    [set_charset], [set_auto_commit], [query], [execute] and [insert]
    ever hands a NULL session pointer to a native call that works on
    a session (the error lookups of a report apart, which are not in
    the chronicle): if none was handed over before a sequence of
    calls of these nine methods, none has been after it, whatever the
    native library answered.  [create_statement] and
    [create_transaction] are not covered. *)
Theorem null_pointer_never_passed :
  forall (W : Type) (L : native W) (k d : nat) (rs : list request)
         (s s' : state W),
    null_free (calls s) = true ->
    serve_all L k d rs s = Some (tt, s') ->
    null_free (calls s') = true.
Proof.
  intros W L k d rs s s' Hi H.
  exact (chron_serve_all L k _ null_free_invariant d rs s tt s' Hi H).
Qed.

(** X8: every [mysql_close] is directly followed by
    [mysql_thread_end], and [mysql_thread_end] is called nowhere else:
    a chronicle in which the two are paired stays so through any
    sequence of calls of [connect], [disconnect], [connected],
    [set_schema], [set_charset], [set_auto_commit], [query],
    [execute] and [insert].  [create_statement] and
    [create_transaction] are not covered. *)
Theorem close_paired_with_thread_end :
  forall (W : Type) (L : native W) (k d : nat) (rs : list request)
         (s s' : state W),
    paired (calls s) = true ->
    serve_all L k d rs s = Some (tt, s') ->
    paired (calls s') = true.
Proof.
  intros W L k d rs s s' Hi H.
  exact (chron_serve_all L k _ paired_invariant d rs s tt s' Hi H).
Qed.

(** X9: handles are never closed twice: the number of [mysql_close]
    calls plus the handle still held never exceeds the number of
    [mysql_init] calls, through any sequence of calls of [connect],
    [disconnect], [connected], [set_schema], [set_charset],
    [set_auto_commit], [query], [execute] and [insert].
    [create_statement] and [create_transaction] are not covered. *)
Theorem closes_bounded_by_allocations :
  forall (W : Type) (L : native W) (k d : nat) (rs : list request)
         (s s' : state W),
    (closes (calls s) + held (conn s) <= allocations (calls s))%nat ->
    serve_all L k d rs s = Some (tt, s') ->
    (closes (calls s') + held (conn s') <= allocations (calls s'))%nat.
Proof.
  intros W L k d rs s s' Hi H.
  pose proof (chron_serve_all L k _ (balance_invariant 0) d rs s tt s') as P.
  simpl in P. rewrite !Nat.add_0_r in P. now apply P.
Qed.

(** X10: with an account whose TLS key is empty, no sequence of calls
    of [connect], [disconnect], [connected], [set_schema],
    [set_charset], [set_auto_commit], [query], [execute] and [insert]
    ever calls [mysql_ssl_set], however often it connects and
    reconnects.  [create_statement] and [create_transaction] are not
    covered. *)
Theorem no_tls_setup_without_key :
  forall (W : Type) (L : native W) (k d : nat) (rs : list request)
         (s s' : state W),
    empty (ssl_key (m_account (conn s))) = true ->
    serve_all L k d rs s = Some (tt, s') ->
    tls_setups (calls s') = tls_setups (calls s).
Proof.
  intros W L k d rs s s' Hkey H.
  pose proof (chron_serve_all L k _ (tls_invariant (tls_setups (calls s)))
                d rs s tt s') as P.
  simpl in P. apply P; [reflexivity | exact H |].
  rewrite (keeps_account_serve_all L k d rs s tt s' H). exact Hkey.
Qed.

Lemma null_pointer_never_passed_witness :
  exists s',
    serve_all (Mock.lib (Mock.works Mock.one_row)) 2 2
              [SetAutoCommit false; SetCharset "utf8"; Execute "INSERT a";
               Disconnect; Query "SELECT b"; Insert "INSERT c"]
              (Mock.fresh (Mock.tuned "db1" true [("a", "b")]) (Mock.idle 8))
      = Some (tt, s') /\
    null_free (calls s') = true.
Proof.
  destruct (serve_all (Mock.lib (Mock.works Mock.one_row)) 2 2
              [SetAutoCommit false; SetCharset "utf8"; Execute "INSERT a";
               Disconnect; Query "SELECT b"; Insert "INSERT c"]
              (Mock.fresh (Mock.tuned "db1" true [("a", "b")]) (Mock.idle 8)))
    as [[[] s']|] eqn:E; [|vm_compute in E; discriminate].
  exists s'. split; [reflexivity|].
  exact (null_pointer_never_passed _ _ _ _ _
           (Mock.fresh (Mock.tuned "db1" true [("a", "b")]) (Mock.idle 8))
           s' eq_refl E).
Defined.

Lemma close_paired_with_thread_end_witness :
  exists s',
    serve_all (Mock.lib (Mock.works Mock.one_row)) 2 2
              [Connect; Disconnect; Disconnect; SetSchema "db2"; Disconnect]
              (Mock.fresh (Mock.tuned "db1" true [("a", "b")]) (Mock.idle 8))
      = Some (tt, s') /\
    paired (calls s') = true /\ closes (calls s') = 2%nat.
Proof.
  destruct (serve_all (Mock.lib (Mock.works Mock.one_row)) 2 2
              [Connect; Disconnect; Disconnect; SetSchema "db2"; Disconnect]
              (Mock.fresh (Mock.tuned "db1" true [("a", "b")]) (Mock.idle 8)))
    as [[[] s']|] eqn:E; [|vm_compute in E; discriminate].
  exists s'. split; [reflexivity|]. split.
  - exact (close_paired_with_thread_end _ _ _ _ _
             (Mock.fresh (Mock.tuned "db1" true [("a", "b")]) (Mock.idle 8))
             s' eq_refl E).
  - vm_compute in E. inversion E. reflexivity.
Defined.

Lemma closes_bounded_by_allocations_witness :
  exists s',
    serve_all (Mock.lib Mock.unreachable) 2 2
              [Connect; Connect; Disconnect; Disconnect]
              (Mock.fresh Mock.guest (Mock.idle 8))
      = Some (tt, s') /\
    (closes (calls s') + held (conn s') <= allocations (calls s'))%nat /\
    closes (calls s') = 1%nat /\ allocations (calls s') = 2%nat.
Proof.
  destruct (serve_all (Mock.lib Mock.unreachable) 2 2
              [Connect; Connect; Disconnect; Disconnect]
              (Mock.fresh Mock.guest (Mock.idle 8)))
    as [[[] s']|] eqn:E; [|vm_compute in E; discriminate].
  exists s'. split; [reflexivity|]. split.
  - apply (closes_bounded_by_allocations _ _ _ _ _
             (Mock.fresh Mock.guest (Mock.idle 8)) s' (le_n 0) E).
  - vm_compute in E. inversion E. split; reflexivity.
Defined.

Lemma no_tls_setup_without_key_witness :
  exists s',
    serve_all (Mock.lib (Mock.works Mock.one_row)) 2 2
              [Connect; Disconnect; Execute "INSERT a"; Disconnect; Connect]
              (Mock.fresh (Mock.tuned "db1" false []) (Mock.idle 8))
      = Some (tt, s') /\
    tls_setups (calls s') = 0%nat /\ handshakes (calls s') = 3%nat.
Proof.
  destruct (serve_all (Mock.lib (Mock.works Mock.one_row)) 2 2
              [Connect; Disconnect; Execute "INSERT a"; Disconnect; Connect]
              (Mock.fresh (Mock.tuned "db1" false []) (Mock.idle 8)))
    as [[[] s']|] eqn:E; [|vm_compute in E; discriminate].
  exists s'. split; [reflexivity|]. split.
  - exact (no_tls_setup_without_key _ _ _ _ _
             (Mock.fresh (Mock.tuned "db1" false []) (Mock.idle 8))
             s' eq_refl E).
  - vm_compute in E. inversion E. reflexivity.
Defined.

(** ** What a successful [connect] leaves in the caches *)

Section Defaults.

Context {W : Type}.
Variable L : native W.
Variable k : nat.
Variable guard : M W bool.

Lemma set_auto_commit_default flag s s' :
  keeps same_account guard ->
  flag = acc_auto_commit (m_account (conn s)) ->
  set_auto_commit_with L guard flag s = Some (true, s') ->
  m_auto_commit (conn s') = acc_auto_commit (m_account (conn s')) /\
  m_account (conn s') = m_account (conn s).
Proof.
  intros Ga Hf H. unfold set_auto_commit_with in H.
  unfold bind at 1, this in H.
  destruct (Bool.eqb_spec (m_auto_commit (conn s)) flag) as [E|_].
  - inversion H; subst. auto.
  - unfold bind at 1 in H.
    destruct (guard s) as [[g s1]|] eqn:Eg; [|discriminate].
    apply Ga in Eg. unfold same_account in Eg.
    destruct g; simpl in H; [|discriminate].
    unfold bind, this, native_call, ret, assign, MYSQL_ERROR_RETURN_FALSE,
      MYSQL_ERROR_NO_BRAKET, MARIADB_ERROR in H.
    destruct (mysql_autocommit L (m_mysql (conn s1)) flag (world s1))
      as [rc w].
    destruct (nonzero rc); inversion H; subst; simpl. split; congruence.
Qed.

Lemma set_schema_default name s s' :
  keeps same_account guard ->
  (forall s s', guard s = Some (true, s') ->
                conn s' = conn s \/ defaults_applied (conn s')) ->
  m_auto_commit (conn s) = acc_auto_commit (m_account (conn s)) ->
  set_schema_with L guard name s = Some (true, s') ->
  m_auto_commit (conn s') = acc_auto_commit (m_account (conn s')) /\
  m_schema (conn s') = name /\
  m_account (conn s') = m_account (conn s).
Proof.
  intros Ga Gd Hac H. unfold set_schema_with in H. unfold bind at 1 in H.
  destruct (guard s) as [[g s1]|] eqn:Eg; [|discriminate].
  pose proof (Ga _ _ _ Eg) as Hacc. unfold same_account in Hacc.
  destruct g; simpl in H; [|discriminate].
  assert (Hac1 : m_auto_commit (conn s1) = acc_auto_commit (m_account (conn s1))).
  { destruct (Gd _ _ Eg) as [Hsame|[Hd _]]; [|exact Hd].
    rewrite Hsame. exact Hac. }
  unfold bind, this, native_call, ret, assign, MYSQL_ERROR_RETURN_FALSE,
    MYSQL_ERROR_NO_BRAKET, MARIADB_ERROR in H.
  destruct (mysql_select_db L (m_mysql (conn s1)) name (world s1)) as [rc w].
  destruct (nonzero rc); inversion H; subst; simpl. auto.
Qed.

Lemma execute_default q s n s' :
  (forall s s', guard s = Some (true, s') ->
                conn s' = conn s \/ defaults_applied (conn s')) ->
  defaults_applied (conn s) ->
  execute_with L k guard q s = Some (n, s') ->
  n <> 0%N ->
  defaults_applied (conn s').
Proof.
  intros Gd Hd H Hn. unfold execute_with in H. unfold bind at 1 in H.
  destruct (guard s) as [[[|] s1]|] eqn:Eg; simpl in H;
    [|inversion H; subst; contradiction|discriminate].
  assert (Hd1 : defaults_applied (conn s1)).
  { destruct (Gd _ _ Eg) as [Hsame|Hd1]; [rewrite Hsame|]; assumption. }
  unfold bind at 1 in H.
  destruct (real_query L q s1) as [[rc s2]|] eqn:Eq; [|discriminate].
  apply real_query_conn in Eq.
  destruct (nonzero rc).
  - unfold MYSQL_ERROR_NO_BRAKET, MARIADB_ERROR, bind, ret in H.
    inversion H; subst. contradiction.
  - apply execute_loop_conn in H. rewrite H, Eq. exact Hd1.
Qed.

Lemma connect_options_default opts :
  (forall s s', guard s = Some (true, s') ->
                conn s' = conn s \/ defaults_applied (conn s')) ->
  forall s s',
    defaults_applied (conn s) ->
    connect_options L k guard opts s = Some (true, s') ->
    defaults_applied (conn s').
Proof.
  intro Gd.
  induction opts as [|kv rest IH]; intros s s' Hd H; simpl in H.
  - inversion H; subst. exact Hd.
  - unfold bind in H.
    destruct (execute_with L k guard (c_str (option_statement kv)) s)
      as [[n s1]|] eqn:E; [|discriminate].
    destruct (N.eqb_spec n 1) as [->|N1]; simpl in H.
    + eapply IH; [|exact H].
      eapply execute_default; [exact Gd | exact Hd | exact E | discriminate].
    + apply error_disconnect_false in H. destruct H; discriminate.
Qed.

Lemma connect_setup_default s s' :
  keeps same_account guard ->
  (forall s s', guard s = Some (true, s') ->
                conn s' = conn s \/ defaults_applied (conn s')) ->
  connect_setup L k guard s = Some (true, s') ->
  defaults_applied (conn s').
Proof.
  intros Ga Gd H. unfold connect_setup in H. unfold bind at 1 2, this in H.
  destruct (set_auto_commit_with L guard _ s) as [[b1 s1]|] eqn:E1;
    [|discriminate].
  destruct b1; simpl in H;
    [|apply error_disconnect_false in H; destruct H; discriminate].
  destruct (set_auto_commit_default _ _ _ Ga eq_refl E1) as [Hac1 Hacc1].
  unfold bind at 1 2, this in H.
  destruct (negb (empty (schema_name (m_account (conn s1))))) eqn:Esch.
  - destruct (set_schema_with L guard _ s1) as [[b2 s2]|] eqn:E2;
      [|discriminate].
    destruct b2; simpl in H;
      [|apply error_disconnect_false in H; destruct H; discriminate].
    destruct (set_schema_default _ _ _ Ga Gd Hac1 E2) as [Hac2 [Hs2 Hacc2]].
    unfold bind, this in H.
    eapply connect_options_default; [exact Gd | | exact H].
    split; [exact Hac2|]. intros _. rewrite Hs2, Hacc2. reflexivity.
  - unfold ret in H. simpl in H. unfold bind, this in H.
    eapply connect_options_default; [exact Gd | | exact H].
    split; [exact Hac1|]. intro Hne.
    apply negb_false_iff in Esch. congruence.
Qed.

Lemma connect_body_default s s' :
  keeps same_account guard ->
  (forall s s', guard s = Some (true, s') ->
                conn s' = conn s \/ defaults_applied (conn s')) ->
  connect_body L k guard s = Some (true, s') ->
  connected L s = Some (true, s') \/ defaults_applied (conn s').
Proof.
  intros Ga Gd H. unfold connect_body in H. unfold bind at 1 in H.
  destruct (connected L s) as [[[|] s0]|] eqn:Hc; [| |discriminate].
  - inversion H; subst. now left.
  - right. cbv beta iota in H.
    unfold connect_handshake, MYSQL_ERROR_RETURN_FALSE, MYSQL_ERROR_NO_BRAKET,
      MARIADB_ERROR, ssl_set, real_connect in H.
    crack H; simpl in H; eapply connect_setup_default; eassumption.
Qed.

End Defaults.

Lemma connect_default {W : Type} (L : native W) k d :
  forall s s',
    connect L k d s = Some (true, s') ->
    connected L s = Some (true, s') \/ defaults_applied (conn s').
Proof.
  induction d as [|d IH]; intros s s' H; [discriminate|].
  simpl in H. eapply connect_body_default; [| |exact H].
  - apply keeps_account_connect.
  - intros s1 s2 H1. destruct (IH _ _ H1) as [Hc|Hd]; [left|now right].
    destruct (connected_true_inv L s1 s2 Hc) as [h [txt [w [_ [_ ->]]]]].
    reflexivity.
Qed.

(** X11: a [connect()] that has to establish the session and returns
    true leaves the autocommit cache equal to the account's default
    and, when the account names a default schema, the schema cache
    equal to that schema taken as a C string, that is up to its first
    NUL byte - also when nested re-connections happened on the way. *)
Theorem connect_applies_account_defaults :
  forall (W : Type) (L : native W) (k d : nat) (s s0 s' : state W),
    connected L s = Some (false, s0) ->
    connect L k d s = Some (true, s') ->
    auto_commit s' = acc_auto_commit (m_account (conn s)) /\
    (empty (schema_name (m_account (conn s))) = false ->
     schema s' = c_str (schema_name (m_account (conn s)))).
Proof.
  intros W L k d s s0 s' Hc H.
  pose proof (keeps_account_connect L k d s true s' H) as Hacc.
  unfold same_account in Hacc.
  destruct (connect_default L k d s s' H) as [Hfast|[Hac Hsch]].
  - rewrite Hc in Hfast. discriminate.
  - unfold auto_commit, schema. rewrite <- Hacc. auto.
Qed.

Lemma connect_applies_account_defaults_witness :
  exists s',
    connect (Mock.lib (Mock.works Mock.one_row)) 2 2
            (Mock.fresh (Mock.tuned "db1" false [("a", "b")]) (Mock.idle 8))
      = Some (true, s') /\
    auto_commit s' = false /\ schema s' = "db1".
Proof.
  destruct (connect (Mock.lib (Mock.works Mock.one_row)) 2 2
              (Mock.fresh (Mock.tuned "db1" false [("a", "b")]) (Mock.idle 8)))
    as [[b s']|] eqn:E; [|vm_compute in E; discriminate].
  assert (Hb : b = true) by (vm_compute in E; congruence). subst b.
  destruct (connect_applies_account_defaults _ _ _ _
              (Mock.fresh (Mock.tuned "db1" false [("a", "b")]) (Mock.idle 8))
              (Mock.fresh (Mock.tuned "db1" false [("a", "b")]) (Mock.idle 8))
              s' eq_refl E) as [Hac Hsch].
  exists s'. split; [reflexivity|]. split; [exact Hac|].
  apply Hsch. reflexivity.
Defined.

(** A default schema with a NUL byte in it is selected and cached up
    to that byte. *)
Example connect_caches_schema_up_to_nul :
  exists s',
    connect (Mock.lib (Mock.works Mock.one_row)) 2 2
            (Mock.fresh
               (Mock.tuned ("db1" ++ String "000" "x") true [])
               (Mock.idle 8))
      = Some (true, s') /\
    schema s' = "db1" /\
    In (EvSelectDb (Some 1%positive) "db1") (calls s').
Proof.
  eexists. split; [vm_compute; reflexivity|]. split; [reflexivity|].
  simpl. tauto.
Qed.

(** ** When [connect] transmits the autocommit mode *)

Section Autocommit.

Context {W : Type}.
Variable L : native W.
Variable k : nat.

Lemma execute_loop_autocommits n :
  forall acc s r s',
    execute_loop L n acc s = Some (r, s') ->
    autocommits (calls s') = autocommits (calls s).
Proof.
  induction n as [|n IH]; intros acc s r s' H; [discriminate|].
  assert (Hadv : forall a s1 r1 s2,
             advance L (execute_loop L n) a s1 = Some (r1, s2) ->
             autocommits (calls s2) = autocommits (calls s1)).
  { intros a s1 r1 s2 Ha. unfold advance, bind, this, native_call in Ha.
    destruct (mysql_next_result L (m_mysql (conn s1)) (world s1)) as [st w].
    destruct (st >? 0)%Z.
    - unfold MYSQL_ERROR_NO_BRAKET, MARIADB_ERROR, ret in Ha.
      inversion Ha; subst. reflexivity.
    - destruct (st =? 0)%Z.
      + apply IH in Ha. exact Ha.
      + inversion Ha; subst. reflexivity. }
  simpl in H. unfold bind at 1 2, this, native_call in H.
  destruct (mysql_store_result L (m_mysql (conn s)) (world s)) as [[x|] w].
  - unfold bind at 1, native_do in H. apply Hadv in H. exact H.
  - unfold bind at 1, native_read in H. cbn [conn world calls] in H.
    destruct (mysql_field_count L (m_mysql (conn s)) w =? 0)%N.
    + unfold bind at 1 in H. apply Hadv in H. exact H.
    + unfold MYSQL_ERROR_NO_BRAKET, MARIADB_ERROR, bind, ret in H.
      inversion H; subst. reflexivity.
Qed.

Lemma error_disconnect_autocommits s b s' :
  MYSQL_ERROR_DISCONNECT L s = Some (b, s') ->
  m_auto_commit (conn s') = m_auto_commit (conn s) /\
  m_account (conn s') = m_account (conn s) /\
  autocommits (calls s') = autocommits (calls s).
Proof.
  unfold MYSQL_ERROR_DISCONNECT, MYSQL_ERROR_NO_BRAKET, MARIADB_ERROR,
    disconnect, bind, this, ret, native_do, assign. simpl.
  destruct (m_mysql (conn s)); simpl; intro H; inversion H; auto.
Qed.

Section Guard.

Variable guard : M W bool.

Lemma set_schema_autocommits name s b s' :
  (forall s b s',
      m_auto_commit (conn s) = acc_auto_commit (m_account (conn s)) ->
      guard s = Some (b, s') ->
      m_auto_commit (conn s') = m_auto_commit (conn s) /\
      m_account (conn s') = m_account (conn s) /\
      autocommits (calls s') = autocommits (calls s)) ->
  m_auto_commit (conn s) = acc_auto_commit (m_account (conn s)) ->
  set_schema_with L guard name s = Some (b, s') ->
  m_auto_commit (conn s') = m_auto_commit (conn s) /\
  m_account (conn s') = m_account (conn s) /\
  autocommits (calls s') = autocommits (calls s).
Proof.
  intros G Hac H. unfold set_schema_with in H. unfold bind at 1 in H.
  destruct (guard s) as [[g s1]|] eqn:Eg; [|discriminate].
  destruct (G _ _ _ Hac Eg) as [Ha [Hb Hc]].
  destruct g; simpl in H; [|inversion H; subst; auto].
  unfold bind, this, native_call, ret, assign, MYSQL_ERROR_RETURN_FALSE,
    MYSQL_ERROR_NO_BRAKET, MARIADB_ERROR in H.
  destruct (mysql_select_db L (m_mysql (conn s1)) name (world s1)) as [rc w].
  destruct (nonzero rc); inversion H; subst; simpl; auto.
Qed.

Lemma execute_autocommits q s n s' :
  (forall s b s',
      m_auto_commit (conn s) = acc_auto_commit (m_account (conn s)) ->
      guard s = Some (b, s') ->
      m_auto_commit (conn s') = m_auto_commit (conn s) /\
      m_account (conn s') = m_account (conn s) /\
      autocommits (calls s') = autocommits (calls s)) ->
  m_auto_commit (conn s) = acc_auto_commit (m_account (conn s)) ->
  execute_with L k guard q s = Some (n, s') ->
  m_auto_commit (conn s') = m_auto_commit (conn s) /\
  m_account (conn s') = m_account (conn s) /\
  autocommits (calls s') = autocommits (calls s).
Proof.
  intros G Hac H. unfold execute_with in H. unfold bind at 1 in H.
  destruct (guard s) as [[g s1]|] eqn:Eg; [|discriminate].
  destruct (G _ _ _ Hac Eg) as [Ha [Hb Hc]].
  destruct g; simpl in H; [|inversion H; subst; auto].
  unfold real_query in H. unfold bind at 1 2, this, native_call in H.
  destruct (mysql_real_query L (m_mysql (conn s1)) q (String.length q)
              (world s1)) as [rc w].
  destruct (nonzero rc); cbn [conn world calls] in H.
  - unfold MYSQL_ERROR_NO_BRAKET, MARIADB_ERROR, bind, ret in H.
    inversion H; subst. simpl. auto.
  - pose proof (execute_loop_conn L _ _ _ _ _ H) as Hconn.
    apply execute_loop_autocommits in H. simpl in *.
    rewrite Hconn, H. auto.
Qed.

Lemma connect_options_autocommits opts :
  (forall s b s',
      m_auto_commit (conn s) = acc_auto_commit (m_account (conn s)) ->
      guard s = Some (b, s') ->
      m_auto_commit (conn s') = m_auto_commit (conn s) /\
      m_account (conn s') = m_account (conn s) /\
      autocommits (calls s') = autocommits (calls s)) ->
  forall s b s',
    m_auto_commit (conn s) = acc_auto_commit (m_account (conn s)) ->
    connect_options L k guard opts s = Some (b, s') ->
    m_auto_commit (conn s') = m_auto_commit (conn s) /\
    m_account (conn s') = m_account (conn s) /\
    autocommits (calls s') = autocommits (calls s).
Proof.
  intro G.
  induction opts as [|kv rest IH]; intros s b s' Hac H; simpl in H.
  - inversion H; subst. auto.
  - unfold bind in H.
    destruct (execute_with L k guard (c_str (option_statement kv)) s)
      as [[n s1]|] eqn:E; [|discriminate].
    destruct (execute_autocommits _ _ _ _ G Hac E) as [Ha [Hb Hc]].
    destruct (negb (n =? 1)%N).
    + destruct (error_disconnect_autocommits _ _ _ H) as [Ha' [Hb' Hc']].
      repeat split; congruence.
    + assert (Hac1 : m_auto_commit (conn s1)
                     = acc_auto_commit (m_account (conn s1))) by congruence.
      destruct (IH _ _ _ Hac1 H) as [Ha' [Hb' Hc']]. repeat split; congruence.
Qed.

(** With the cache already at the account's default, the setup after
    the handshake calls no [mysql_autocommit]. *)
Lemma connect_setup_autocommits s b s' :
  (forall s b s',
      m_auto_commit (conn s) = acc_auto_commit (m_account (conn s)) ->
      guard s = Some (b, s') ->
      m_auto_commit (conn s') = m_auto_commit (conn s) /\
      m_account (conn s') = m_account (conn s) /\
      autocommits (calls s') = autocommits (calls s)) ->
  m_auto_commit (conn s) = acc_auto_commit (m_account (conn s)) ->
  connect_setup L k guard s = Some (b, s') ->
  m_auto_commit (conn s') = m_auto_commit (conn s) /\
  m_account (conn s') = m_account (conn s) /\
  autocommits (calls s') = autocommits (calls s).
Proof.
  intros G Hac H. unfold connect_setup in H. unfold bind at 1 2, this in H.
  unfold set_auto_commit_with in H. unfold bind at 1, this in H.
  rewrite Hac, Bool.eqb_reflx in H. unfold ret at 1 in H. simpl in H.
  unfold bind at 1 2, this in H.
  destruct (negb (empty (schema_name (m_account (conn s))))).
  - destruct (set_schema_with L guard _ s) as [[b2 s2]|] eqn:E2;
      [|discriminate].
    destruct (set_schema_autocommits _ _ _ _ G Hac E2) as [Ha [Hb Hc]].
    destruct (negb b2).
    + destruct (error_disconnect_autocommits _ _ _ H) as [Ha' [Hb' Hc']].
      repeat split; congruence.
    + unfold bind, this in H.
      assert (Hac2 : m_auto_commit (conn s2)
                     = acc_auto_commit (m_account (conn s2))) by congruence.
      destruct (connect_options_autocommits _ G _ _ _ Hac2 H)
        as [Ha' [Hb' Hc']].
      repeat split; congruence.
  - unfold ret in H. simpl in H. unfold bind, this in H.
    exact (connect_options_autocommits _ G _ _ _ Hac H).
Qed.

Lemma connect_body_autocommits s b s' :
  (forall s b s',
      m_auto_commit (conn s) = acc_auto_commit (m_account (conn s)) ->
      guard s = Some (b, s') ->
      m_auto_commit (conn s') = m_auto_commit (conn s) /\
      m_account (conn s') = m_account (conn s) /\
      autocommits (calls s') = autocommits (calls s)) ->
  m_auto_commit (conn s) = acc_auto_commit (m_account (conn s)) ->
  connect_body L k guard s = Some (b, s') ->
  m_auto_commit (conn s') = m_auto_commit (conn s) /\
  m_account (conn s') = m_account (conn s) /\
  autocommits (calls s') = autocommits (calls s).
Proof.
  intros G Hac H. unfold connect_body in H. unfold bind at 1 in H.
  destruct (connected L s) as [[live s0]|] eqn:Hc; [|discriminate].
  assert (H0 : conn s0 = conn s /\
               autocommits (calls s0) = autocommits (calls s)).
  { revert Hc. unfold connected, bind, this, ret, native_call.
    destruct (m_mysql (conn s)); [|intro X; inversion X; auto].
    destruct (mysql_stat L (Some h) (world s)).
    intro X; inversion X; auto. }
  destruct H0 as [Hconn Hcount].
  destruct live; [inversion H; subst; rewrite Hconn; auto|].
  cbv beta iota in H.
  unfold connect_handshake, MYSQL_ERROR_RETURN_FALSE, MYSQL_ERROR_NO_BRAKET,
    MARIADB_ERROR, ssl_set, real_connect in H.
  crack H; simpl in H;
    try (inversion H; subst; simpl; rewrite Hconn; auto; fail);
    (apply connect_setup_autocommits in H;
     [ simpl in H; rewrite Hconn in H; destruct H as [Ha [Hb Hd]];
       repeat split; congruence
     | exact G
     | simpl; rewrite Hconn; exact Hac ]).
Qed.

End Guard.

Lemma connect_autocommits d :
  forall s b s',
    m_auto_commit (conn s) = acc_auto_commit (m_account (conn s)) ->
    connect L k d s = Some (b, s') ->
    m_auto_commit (conn s') = m_auto_commit (conn s) /\
    m_account (conn s') = m_account (conn s) /\
    autocommits (calls s') = autocommits (calls s).
Proof.
  induction d as [|d IH]; intros s b s' Hac H; [discriminate|].
  simpl in H.
  exact (connect_body_autocommits (connect L k d) s b s' IH Hac H).
Qed.

End Autocommit.

(** X12: [connect()] transmits the autocommit mode only when the
    cached flag differs from the account's default.  When they are
    equal - as on a new connection whose account wants autocommit on,
    and on every reconnect after a [disconnect()], which leaves the
    cache as it is - [connect()] makes no [mysql_autocommit] call at
    all, whatever else it does, and the new session keeps the mode the
    server gave it. *)
Theorem connect_skips_cached_autocommit :
  forall (W : Type) (L : native W) (k d : nat) (s : state W)
         (b : bool) (s' : state W),
    m_auto_commit (conn s) = acc_auto_commit (m_account (conn s)) ->
    connect L k d s = Some (b, s') ->
    autocommits (calls s') = autocommits (calls s) /\
    auto_commit s' = auto_commit s.
Proof.
  intros W L k d s b s' Hac H.
  destruct (connect_autocommits L k d s b s' Hac H) as [Ha [_ Hc]].
  split; [exact Hc | exact Ha].
Qed.

Lemma connect_skips_cached_autocommit_witness :
  exists b s',
    connect (Mock.lib (Mock.works Mock.one_row)) 2 2
            (mk_state (mk_connection false None "db1" ""
                                     (Mock.tuned "db1" false []))
                      (Mock.idle 8) [])
      = Some (b, s') /\
    autocommits (calls s') = 0%nat /\ handshakes (calls s') = 1%nat.
Proof.
  destruct (connect (Mock.lib (Mock.works Mock.one_row)) 2 2
              (mk_state (mk_connection false None "db1" ""
                                       (Mock.tuned "db1" false []))
                        (Mock.idle 8) []))
    as [[b s']|] eqn:E; [|vm_compute in E; discriminate].
  exists b, s'. split; [reflexivity|]. split.
  - apply (connect_skips_cached_autocommit _ _ _ _
             (mk_state (mk_connection false None "db1" ""
                                      (Mock.tuned "db1" false []))
                       (Mock.idle 8) []) b s' eq_refl E).
  - vm_compute in E. inversion E. reflexivity.
Defined.

(** X14: on a steady session that is linked, [set_schema],
    [set_auto_commit] and [execute] return with a depth budget of 1 -
    their [connect()] takes the fast path - leave the connection
    linked and perform no handshake. *)
Theorem statements_return_on_linked_session :
  forall (W : Type) (L : native W) (k : nat)
         (live : option handle -> W -> Prop),
    steady L k live ->
    forall (text : string) (flag : bool) (s : state W),
      linked live s ->
      (exists b s1, set_schema L k 1 text s = Some (b, s1) /\
                    linked live s1 /\
                    handshakes (calls s1) = handshakes (calls s)) /\
      (exists b s1, set_auto_commit L k 1 flag s = Some (b, s1) /\
                    linked live s1 /\
                    handshakes (calls s1) = handshakes (calls s)) /\
      (exists n s1, execute L k 1 text s = Some (n, s1) /\
                    linked live s1 /\
                    handshakes (calls s1) = handshakes (calls s)).
Proof.
  intros W L k live HS text flag s Hl.
  assert (Hg : forall s0, linked live s0 ->
             exists s1, connect L k 1 s0 = Some (true, s1) /\
                        linked live s1 /\
                        handshakes (calls s1) = handshakes (calls s0))
    by (intros s0 H0; now apply connect_linked).
  split; [|split].
  - exact (set_schema_linked L k live HS _ Hg text s Hl).
  - exact (set_auto_commit_linked L k live HS _ Hg flag s Hl).
  - exact (execute_linked L k live HS _ Hg text s Hl).
Qed.

Lemma statements_return_on_linked_session_witness :
  exists n s1,
    execute (Mock.lib (Mock.works Mock.one_row)) 2 1 "INSERT a"
            (Mock.online Mock.guest 8) = Some (n, s1) /\
    linked Mock.open_on s1.
Proof.
  destruct (statements_return_on_linked_session _
              (Mock.lib (Mock.works Mock.one_row)) 2 Mock.open_on
              scripted_library_steady "INSERT a" true
              (Mock.online Mock.guest 8))
    as [_ [_ [n [s1 [H [Hl _]]]]]].
  - split; [exists 1%positive; reflexivity | reflexivity].
  - exists n, s1. split; [exact H | exact Hl].
Defined.

(** * The claims on [connect] and its option loop *)

(** ** Two [connect()] calls in a row *)




(** ** Termination of [connect] when results are finite *)

Section LoopBudget.

Context {W : Type}.
Variable L : native W.

(** A loop budget that suffices keeps sufficing when it grows. *)
Lemma execute_loop_more n :
  forall acc s r m,
    execute_loop L n acc s = Some r ->
    (n <= m)%nat ->
    execute_loop L m acc s = Some r.
Proof.
  induction n as [|n IH]; intros acc s r m H Hm; [discriminate|].
  destruct m as [|m]; [lia|].
  assert (Hadv : forall a s1,
             advance L (execute_loop L n) a s1 = Some r ->
             advance L (execute_loop L m) a s1 = Some r).
  { intros a s1. unfold advance, bind, this, native_call.
    destruct (mysql_next_result L (m_mysql (conn s1)) (world s1)) as [st w].
    destruct (st >? 0)%Z; [auto|].
    destruct (st =? 0)%Z; [|auto].
    intro Hn. apply (IH _ _ _ m Hn). lia. }
  simpl. simpl in H. revert H.
  unfold bind, this, native_call, native_do, native_read.
  destruct (mysql_store_result L (m_mysql (conn s)) (world s)) as [[x|] w];
    cbn [conn world calls].
  - apply Hadv.
  - destruct (mysql_field_count L (m_mysql (conn s)) w =? 0)%N; [|auto].
    apply Hadv.
Qed.

End LoopBudget.

Section Settled.

Context {W : Type}.
Variable L : native W.
Variable live : option handle -> W -> Prop.
Hypothesis HS : settled L live.

(** On a linked connection [connect] returns on its first test,
    whatever the loop budget. *)
Lemma connect_linked_any d s :
  linked live s ->
  exists s1,
    (forall k, connect L k (S d) s = Some (true, s1)) /\
    linked live s1 /\
    handshakes (calls s1) = handshakes (calls s).
Proof.
  intros [[h Hm] Hl]. rewrite Hm in Hl.
  destruct (se_probe L live HS _ _ Hl) as [txt [w' [Hs Hl']]].
  exists (mk_state (conn s) w' (EvStat (Some h) :: calls s)).
  split; [|split].
  - intro k. apply connect_fast_path.
    unfold connected, bind, this, native_call, ret. rewrite Hm, Hs. reflexivity.
  - split; simpl; [eauto | now rewrite Hm].
  - reflexivity.
Qed.

Section Guard.

(** The guard, for every loop budget. *)
Variable guard : nat -> M W bool.
Hypothesis Hguard :
  forall s, linked live s ->
    exists s1, (forall k, guard k s = Some (true, s1)) /\ linked live s1 /\
               handshakes (calls s1) = handshakes (calls s).

Lemma set_auto_commit_settled flag s :
  linked live s ->
  exists b s1,
    (forall k, set_auto_commit_with L (guard k) flag s = Some (b, s1)) /\
    linked live s1 /\
    handshakes (calls s1) = handshakes (calls s).
Proof.
  intro Hl.
  destruct (Bool.eqb (m_auto_commit (conn s)) flag) eqn:Eb.
  - exists true, s. split; [|auto].
    intro k. unfold set_auto_commit_with, bind, this. now rewrite Eb.
  - destruct (Hguard s Hl) as [s1 [Hg [[Hh Hl1] Hn]]].
    pose proof (se_autocommit L live HS _ flag _ Hl1) as Hl2.
    destruct (mysql_autocommit L (m_mysql (conn s1)) flag (world s1))
      as [rc w2] eqn:Eac. simpl in Hl2.
    destruct (nonzero rc) eqn:Enz.
    + exists false,
        (mk_state (conn s1) w2
           (EvReport (mysql_errno L (m_mysql (conn s1)) w2)
                     (mysql_error L (m_mysql (conn s1)) w2)
              :: EvAutocommit (m_mysql (conn s1)) flag :: calls s1)).
      split; [|split; [split; simpl; auto | simpl; exact Hn]].
      intro k. unfold set_auto_commit_with, bind, this.
      rewrite Eb, (Hg k). simpl. unfold native_call. rewrite Eac, Enz.
      reflexivity.
    + exists true,
        (mk_state (with_auto_commit (conn s1) flag) w2
           (EvAutocommit (m_mysql (conn s1)) flag :: calls s1)).
      split; [|split; [split; simpl; auto | simpl; exact Hn]].
      intro k. unfold set_auto_commit_with, bind, this.
      rewrite Eb, (Hg k). simpl. unfold native_call. rewrite Eac, Enz.
      reflexivity.
Qed.

Lemma set_schema_settled name s :
  linked live s ->
  exists b s1,
    (forall k, set_schema_with L (guard k) name s = Some (b, s1)) /\
    linked live s1 /\
    handshakes (calls s1) = handshakes (calls s).
Proof.
  intro Hl.
  destruct (Hguard s Hl) as [s1 [Hg [[Hh Hl1] Hn]]].
  pose proof (se_select_db L live HS _ name _ Hl1) as Hl2.
  destruct (mysql_select_db L (m_mysql (conn s1)) name (world s1))
    as [rc w2] eqn:Esel. simpl in Hl2.
  destruct (nonzero rc) eqn:Enz.
  - exists false,
      (mk_state (conn s1) w2
         (EvReport (mysql_errno L (m_mysql (conn s1)) w2)
                   (mysql_error L (m_mysql (conn s1)) w2)
            :: EvSelectDb (m_mysql (conn s1)) name :: calls s1)).
    split; [|split; [split; simpl; auto | simpl; exact Hn]].
    intro k. unfold set_schema_with, bind, this.
    rewrite (Hg k). simpl. unfold native_call. rewrite Esel, Enz.
    reflexivity.
  - exists true,
      (mk_state (with_schema (conn s1) name) w2
         (EvSelectDb (m_mysql (conn s1)) name :: calls s1)).
    split; [|split; [split; simpl; auto | simpl; exact Hn]].
    intro k. unfold set_schema_with, bind, this.
    rewrite (Hg k). simpl. unfold native_call. rewrite Esel, Enz.
    reflexivity.
Qed.

(** [execute] returns once the loop budget exceeds the number of
    results of the text. *)
Lemma execute_settled q s :
  linked live s ->
  exists K n s1,
    (forall k, (K <= k)%nat ->
               execute_with L k (guard k) q s = Some (n, s1)) /\
    linked live s1 /\
    handshakes (calls s1) = handshakes (calls s).
Proof.
  intro Hl.
  destruct (Hguard s Hl) as [s1 [Hg [[Hh Hl1] Hn]]].
  destruct (se_query L live HS _ q (String.length q) _ Hl1) as [Hl2 Hans].
  destruct (mysql_real_query L (m_mysql (conn s1)) q (String.length q)
              (world s1)) as [rc w2] eqn:Eq. simpl in Hl2, Hans.
  destruct (Z.eqb_spec rc 0) as [E|E].
  - destruct (Hans E) as [items [e [w3 [Ha Hl3]]]].
    destruct (execute_loop_answers L _ _ _ _ _ Ha (S (List.length items))
                0%N (conn s1)
                (EvRealQuery (m_mysql (conn s1)) q :: calls s1)
                (Nat.lt_succ_diag_r _) eq_refl)
      as [cs' [Hrun [_ [_ [Hhs _]]]]].
    exists (S (List.length items)), (tally 0 items), (mk_state (conn s1) w3 cs').
    split; [|split; [split; simpl; auto | simpl; rewrite Hhs; exact Hn]].
    intros k Hk. unfold execute_with, bind at 1. rewrite (Hg k). simpl.
    unfold bind at 1. unfold real_query, bind at 1, this, native_call.
    rewrite Eq. unfold nonzero. subst rc. simpl.
    eapply execute_loop_more; [exact Hrun | exact Hk].
  - exists 0%nat, 0%N,
      (mk_state (conn s1) w2
         (EvReport (mysql_errno L (m_mysql (conn s1)) w2)
                   (mysql_error L (m_mysql (conn s1)) w2)
            :: EvRealQuery (m_mysql (conn s1)) q :: calls s1)).
    split; [|split; [split; simpl; auto | simpl; exact Hn]].
    intros k _. unfold execute_with, bind at 1. rewrite (Hg k). simpl.
    unfold bind at 1. unfold real_query, bind at 1, this, native_call.
    rewrite Eq. unfold nonzero.
    destruct (Z.eqb_spec rc 0); [contradiction|]. reflexivity.
Qed.

Lemma connect_options_settled opts :
  forall s,
    linked live s ->
    exists K b s1,
      (forall k, (K <= k)%nat ->
                 connect_options L k (guard k) opts s = Some (b, s1)) /\
      (b = true -> linked live s1) /\
      handshakes (calls s1) = handshakes (calls s).
Proof.
  induction opts as [|kv rest IH]; intros s Hl.
  - exists 0%nat, true, s. split; [intros; reflexivity | auto].
  - destruct (execute_settled (c_str (option_statement kv)) s Hl)
      as [K1 [n [s1 [He [Hl1 Hn]]]]].
    destruct (negb (n =? 1)%N) eqn:En.
    + destruct (error_disconnect_total L s1) as [s2 [Hd _]].
      exists K1, false, s2. split; [|split; [discriminate|]].
      * intros k Hk. cbn [connect_options]. unfold bind.
        rewrite (He k Hk), En. exact Hd.
      * rewrite (error_disconnect_handshakes L _ _ Hd). exact Hn.
    + destruct (IH s1 Hl1) as [K2 [b [s2 [Ho [Hl2 Hn2]]]]].
      exists (Nat.max K1 K2), b, s2. split; [|split; [exact Hl2 | congruence]].
      intros k Hk. cbn [connect_options]. unfold bind.
      rewrite (He k) by lia. rewrite En. apply Ho. lia.
Qed.

Lemma connect_setup_settled s :
  linked live s ->
  exists K b s1,
    (forall k, (K <= k)%nat ->
               connect_setup L k (guard k) s = Some (b, s1)) /\
    (b = true -> linked live s1) /\
    handshakes (calls s1) = handshakes (calls s).
Proof.
  intro Hl.
  destruct (set_auto_commit_settled
              (acc_auto_commit (m_account (conn s))) s Hl)
    as [b1 [s1 [H1 [Hl1 Hn1]]]].
  destruct b1.
  - assert (Hsch : exists b2 s2,
               (forall k,
                   (if negb (empty (schema_name (m_account (conn s1))))
                    then set_schema_with L (guard k)
                           (c_str (schema_name (m_account (conn s1))))
                    else ret true) s1 = Some (b2, s2)) /\
               linked live s2 /\
               handshakes (calls s2) = handshakes (calls s1)).
    { destruct (negb (empty (schema_name (m_account (conn s1))))).
      - now apply set_schema_settled.
      - exists true, s1. auto. }
    destruct Hsch as [b2 [s2 [H2 [Hl2 Hn2]]]].
    destruct b2.
    + destruct (connect_options_settled (options (m_account (conn s2))) s2 Hl2)
        as [K [b [s3 [H3 [Hl3 Hn3]]]]].
      exists K, b, s3. split; [|split; [exact Hl3 | congruence]].
      intros k Hk. unfold connect_setup, bind, this.
      rewrite (H1 k). simpl. rewrite (H2 k). simpl. now apply H3.
    + destruct (error_disconnect_total L s2) as [s3 [Hd _]].
      exists 0%nat, false, s3. split; [|split; [discriminate|]].
      * intros k _. unfold connect_setup, bind, this.
        rewrite (H1 k). simpl. rewrite (H2 k). simpl. exact Hd.
      * rewrite (error_disconnect_handshakes L _ _ Hd). congruence.
  - destruct (error_disconnect_total L s1) as [s3 [Hd _]].
    exists 0%nat, false, s3. split; [|split; [discriminate|]].
    + intros k _. unfold connect_setup, bind, this.
      rewrite (H1 k). simpl. exact Hd.
    + rewrite (error_disconnect_handshakes L _ _ Hd). congruence.
Qed.

Lemma real_connect_settled s :
  (exists h, m_mysql (conn s) = Some h) ->
  exists K b s1,
    (forall k, (K <= k)%nat ->
       bind (real_connect L)
            (fun p => match p with
                      | None => MYSQL_ERROR_RETURN_FALSE L
                      | Some _ => connect_setup L k (guard k)
                      end) s = Some (b, s1)) /\
    (handshakes (calls s1) <= S (handshakes (calls s)))%nat /\
    (b = true -> linked live s1).
Proof.
  intros Hh.
  destruct (mysql_real_connect L (m_mysql (conn s))
              (host_name (m_account (conn s))) (user_name (m_account (conn s)))
              (password (m_account (conn s))) None (port (m_account (conn s)))
              (if empty (unix_socket (m_account (conn s)))
               then None else Some (unix_socket (m_account (conn s))))
              CLIENT_MULTI_STATEMENTS (world s))
    as [[h'|] w3] eqn:Erc.
  - set (s3 := mk_state (conn s) w3
                        (EvRealConnect (m_mysql (conn s)) :: calls s)).
    assert (Hl3 : linked live s3).
    { split; simpl; [exact Hh|].
      eapply (se_handshake L live HS). exact Erc. }
    destruct (connect_setup_settled s3 Hl3) as [K [b [s4 [H4 [Hl4 Hn4]]]]].
    exists K, b, s4. split; [|split; [|exact Hl4]].
    + intros k Hk. unfold bind at 1. unfold real_connect, bind, this,
        native_call. rewrite Erc. now apply H4.
    + rewrite Hn4. simpl. lia.
  - exists 0%nat, false,
      (mk_state (conn s) w3
         (EvReport (mysql_errno L (m_mysql (conn s)) w3)
                   (mysql_error L (m_mysql (conn s)) w3)
            :: EvRealConnect (m_mysql (conn s)) :: calls s)).
    split; [|split; [simpl; lia | discriminate]].
    intros k _. unfold bind at 1. unfold real_connect, bind, this,
      native_call. rewrite Erc. reflexivity.
Qed.

Lemma connect_handshake_settled s :
  (exists h, m_mysql (conn s) = Some h) ->
  exists K b s1,
    (forall k, (K <= k)%nat ->
               connect_handshake L k (guard k) s = Some (b, s1)) /\
    (handshakes (calls s1) <= S (handshakes (calls s)))%nat /\
    (b = true -> linked live s1).
Proof.
  intros Hh.
  destruct (negb (empty (ssl_key (m_account (conn s))))) eqn:Ekey.
  - destruct (mysql_ssl_set L (m_mysql (conn s)) (ssl_key (m_account (conn s)))
                (ssl_certificate (m_account (conn s)))
                (ssl_ca (m_account (conn s)))
                (ssl_ca_path (m_account (conn s)))
                (ssl_cipher (m_account (conn s))) (world s))
      as [rc w2] eqn:Essl.
    destruct (nonzero rc) eqn:Enz.
    + exists 0%nat, false,
        (mk_state (conn s) w2
           (EvReport (mysql_errno L (m_mysql (conn s)) w2)
                     (mysql_error L (m_mysql (conn s)) w2)
              :: EvSslSet (m_mysql (conn s)) :: calls s)).
      split; [|split; [simpl; lia | discriminate]].
      intros k _. unfold connect_handshake. unfold bind at 1 2, this.
      rewrite Ekey. unfold bind at 1. unfold ssl_set, bind at 1, this,
        native_call, ret. rewrite Essl, Enz. reflexivity.
    + destruct (real_connect_settled
                  (mk_state (conn s) w2 (EvSslSet (m_mysql (conn s)) :: calls s))
                  Hh) as [K [b [s1 [H1 [Hn1 Hl1]]]]].
      exists K, b, s1. split; [|split; [exact Hn1 | exact Hl1]].
      intros k Hk. unfold connect_handshake. unfold bind at 1 2, this.
      rewrite Ekey. unfold bind at 1. unfold ssl_set, bind at 1, this,
        native_call, ret. rewrite Essl, Enz. now apply H1.
  - destruct (real_connect_settled s Hh) as [K [b [s1 [H1 [Hn1 Hl1]]]]].
    exists K, b, s1. split; [|split; [exact Hn1 | exact Hl1]].
    intros k Hk. unfold connect_handshake. unfold bind at 1 2, this.
    rewrite Ekey. unfold ret. now apply H1.
Qed.

Lemma connect_body_settled s :
  exists K b s1,
    (forall k, (K <= k)%nat ->
               connect_body L k (guard k) s = Some (b, s1)) /\
    (handshakes (calls s1) <= S (handshakes (calls s)))%nat.
Proof.
  destruct (connected_total L s) as [b0 [s0 [Hc Hconn]]].
  assert (Hh0 : handshakes (calls s0) = handshakes (calls s)).
  { revert Hc. unfold connected, bind, this, ret, native_call.
    destruct (m_mysql (conn s)); [|intro H; inversion H; reflexivity].
    destruct (mysql_stat L (Some h) (world s)).
    intro H; inversion H; reflexivity. }
  destruct b0.
  - exists 0%nat, true, s0. split; [|lia].
    intros k _. unfold connect_body. unfold bind at 1. now rewrite Hc.
  - destruct (mysql_init L (world s0)) as [[h|] w1] eqn:Einit.
    + destruct (connect_handshake_settled
                  (mk_state (with_mysql (conn s0) (Some h)) w1
                            (EvInit :: calls s0)))
        as [K [b [s1 [H1 [Hn1 _]]]]]; [simpl; eauto|].
      exists K, b, s1. split; [|simpl in Hn1; lia].
      intros k Hk. unfold connect_body. unfold bind at 1. rewrite Hc.
      unfold bind at 1 2, native_call, assign. rewrite Einit.
      now apply H1.
    + exists 0%nat, false,
        (mk_state (with_mysql (conn s0) None) w1
           (EvReport 0 "Cannot create MYSQL object." :: EvInit :: calls s0)).
      split; [|simpl; lia].
      intros k _. unfold connect_body. unfold bind at 1. rewrite Hc.
      unfold bind at 1 2, native_call, assign. rewrite Einit.
      reflexivity.
Qed.

End Guard.

(** With one level of re-entry [connect] returns, for every loop budget
    from some budget on. *)
Lemma connect_settled s :
  exists K b s1,
    (forall k, (K <= k)%nat -> connect L k 2 s = Some (b, s1)) /\
    (handshakes (calls s1) <= S (handshakes (calls s)))%nat.
Proof.
  apply (connect_body_settled (fun k => connect L k 1)).
  intros s0 Hl. now apply connect_linked_any.
Qed.

End Settled.

(** The scripted library hands over whatever is pending in finitely
    many steps, and keeps the session open. *)
Lemma scripted_answers (c : Mock.config) (h : option handle) :
  forall (rs : list Mock.reply) (w : Mock.server),
    Mock.sv_pending w = rs ->
    exists items e w',
      answers (Mock.lib c) h w items e w' /\
      Mock.sv_session w' = Mock.sv_session w.
Proof.
  assert (Hone : forall w r rest,
             Mock.sv_pending w = r :: rest ->
             (forall f, r = Mock.NoStore f -> f = 0%N) ->
             exists i, hands_over (Mock.lib c) h w i w).
  { intros w r rest Hp Hf.
    destruct r as [x|n|f|].
    - exists (Discarded x).
      refine (ho_set (Mock.lib c) h w x w _). simpl. now rewrite Hp.
    - exists (Counted (mysql_affected_rows (Mock.lib c) h w)).
      refine (ho_count (Mock.lib c) h w w _ _); simpl; now rewrite Hp.
    - exists (Counted (mysql_affected_rows (Mock.lib c) h w)).
      refine (ho_count (Mock.lib c) h w w _ _); simpl; rewrite Hp;
        [reflexivity | now apply Hf].
    - exists (Counted (mysql_affected_rows (Mock.lib c) h w)).
      refine (ho_count (Mock.lib c) h w w _ _); simpl; now rewrite Hp. }
  induction rs as [|r rest IH]; intros w Hp.
  - exists [Counted (mysql_affected_rows (Mock.lib c) h w)],
      (Finished (-1)), (Mock.set_pending w []).
    split; [|reflexivity].
    eapply ans_finished; [|simpl; rewrite Hp; reflexivity | lia].
    refine (ho_count (Mock.lib c) h w w _ _); simpl; now rewrite Hp.
  - destruct r as [x|n|f|];
      try (destruct (N.eq_dec f 0) as [F0|F0];
           [subst f|
            exists [], (StoreFailed (mysql_field_count (Mock.lib c) h w)), w;
            split; [|reflexivity];
            refine (ans_store_failed (Mock.lib c) h w w _ _);
            simpl; rewrite Hp; [reflexivity | exact F0]]);
      (match type of Hp with
       | _ = ?r0 :: _ =>
           destruct (Hone w r0 rest Hp) as [i Hi];
           [intros f' Hf'; try discriminate; now inversion Hf'|]
       end;
       destruct rest as [|r2 rest2];
       [ exists [i], (Finished (-1)), (Mock.set_pending w []);
         split; [|reflexivity];
         eapply ans_finished; [exact Hi | simpl; rewrite Hp; reflexivity | lia]
       | destruct (IH (Mock.set_pending w (r2 :: rest2)) eq_refl)
           as [items [e [w' [Ha Hs]]]];
         destruct r2 as [x2|n2|f2|];
         try (exists (i :: items), e, w'; split; [|exact Hs];
              eapply ans_more;
              [exact Hi | simpl; rewrite Hp; reflexivity | exact Ha]);
         (exists [i], (NextFailed 1), (Mock.set_pending w []);
          split; [|reflexivity];
          eapply ans_next_failed;
          [exact Hi | simpl; rewrite Hp; reflexivity | lia]) ]).
Qed.

(** Whatever its script, the scripted library is settled when the probe
    is answered. *)
Lemma scripted_library_settled (script : string -> list Mock.reply) :
  settled (Mock.lib (Mock.works script)) Mock.open_on.
Proof.
  split.
  - intros h host user pw db pt sock fl w h' w' H. simpl in H.
    destruct h as [x|]; inversion H; subst. reflexivity.
  - intros [x|] w Hl; [|contradiction]. simpl in Hl.
    exists "Uptime: 1", w. split; [|exact Hl].
    simpl. rewrite Hl. simpl. now rewrite Pos.eqb_refl.
  - intros [x|] b w Hl; [|contradiction]. simpl in *.
    destruct (Mock.sv_autocommit w); simpl; exact Hl.
  - intros [x|] db w Hl; [|contradiction]. simpl in *. exact Hl.
  - intros [x|] q n w Hl; [|contradiction].
    assert (Hq : Mock.sv_session
                   (snd (mysql_real_query (Mock.lib (Mock.works script))
                                          (Some x) q n w))
                 = Mock.sv_session w).
    { simpl. destruct (script q); reflexivity. }
    split.
    { change (Mock.sv_session
                (snd (mysql_real_query (Mock.lib (Mock.works script))
                                       (Some x) q n w)) = Some x).
      rewrite Hq. exact Hl. }
    intros _.
    destruct (scripted_answers (Mock.works script) (Some x) _
                (snd (mysql_real_query (Mock.lib (Mock.works script))
                                       (Some x) q n w)) eq_refl)
      as [items [e [w' [Ha Hs]]]].
    exists items, e, w'. split; [exact Ha|].
    change (Mock.sv_session w' = Some x). rewrite Hs, Hq. exact Hl.
Qed.

(** C9, as amended: when the session is settled - after an accepted
    handshake the status probe keeps answering through the calls
    [connect] makes, and every accepted text is answered by a finite
    sequence of results, of whatever length - [connect()] returns: with
    a depth budget of 2 it gives the same result for every loop budget
    from some budget on.  The [connect()] calls nested in
    [set_auto_commit], [set_schema] and [execute] return on their first
    test and never recurse, and at most one handshake is performed. *)
Theorem connect_terminates_on_steady_session :
  forall (W : Type) (L : native W) (live : option handle -> W -> Prop),
    settled L live ->
    forall s : state W,
      exists K b s1,
        (forall k, (K <= k)%nat -> connect L k 2 s = Some (b, s1)) /\
        (handshakes (calls s1) <= S (handshakes (calls s)))%nat /\
        (forall s2, linked live s2 ->
           exists s3, (forall k, connect L k 1 s2 = Some (true, s3)) /\
                      linked live s3).
Proof.
  intros W L live HS s.
  destruct (connect_settled L live HS s) as [K [b [s1 [H Hn]]]].
  exists K, b, s1. split; [exact H|]. split; [exact Hn|].
  intros s2 Hl.
  destruct (connect_linked_any L live HS 0 s2 Hl) as [s3 [H3 [Hl3 _]]].
  eauto.
Qed.

Lemma connect_terminates_on_steady_session_witness :
  exists K b s1,
    forall k, (K <= k)%nat ->
      connect (Mock.lib (Mock.works Mock.echo)) k 2
              (Mock.fresh (Mock.tuned "db1" false [("a", "b")]) (Mock.idle 8))
        = Some (b, s1).
Proof.
  destruct (connect_terminates_on_steady_session _
              (Mock.lib (Mock.works Mock.echo)) Mock.open_on
              (scripted_library_settled Mock.echo)
              (Mock.fresh (Mock.tuned "db1" false [("a", "b")]) (Mock.idle 8)))
    as [K [b [s1 [H _]]]].
  exists K, b, s1. exact H.
Defined.

(** ** The statements of the option loop *)

Lemma grown_invariant (base : list event) :
  chronicle_invariant (fun _ l => grown base l).
Proof.
  split; intros; auto;
    match goal with
    | H : grown _ _ |- _ => destruct H as [new ->]
    end;
    first [ now exists (e :: new)
          | now exists (EvReport code msg :: new)
          | now exists (EvInit :: new)
          | now exists (EvSslSet (Some h) :: new)
          | now exists (EvRealConnect (Some h) :: new)
          | now exists (EvThreadEnd :: EvClose h :: new)
          | now exists new ].
Qed.

Lemma sent_invariant (base : list event) (q : string) :
  chronicle_invariant (fun _ l => sent base q l).
Proof.
  split; intros; auto;
    match goal with
    | H : sent _ _ _ |- _ => destruct H as [new [h0 [-> Hin]]]
    end;
    first [ exists (e :: new), h0; split; [reflexivity | now right]
          | exists (EvReport code msg :: new), h0;
            split; [reflexivity | now right]
          | exists (EvInit :: new), h0; split; [reflexivity | now right]
          | exists (EvSslSet (Some h) :: new), h0;
            split; [reflexivity | now right]
          | exists (EvRealConnect (Some h) :: new), h0;
            split; [reflexivity | now right]
          | exists (EvThreadEnd :: EvClose h :: new), h0;
            split; [reflexivity | right; now right]
          | exists new, h0; split; [reflexivity | assumption] ].
Qed.

Section OptionTexts.

Context {W : Type}.
Variable L : native W.
Variable k : nat.
Variable guard : M W bool.

(** An [execute] that does not return 0 has handed its text to
    [mysql_real_query]. *)
Lemma execute_sends base q s n s' :
  (forall s s', guard s = Some (true, s') -> m_mysql (conn s') <> None) ->
  (forall I, chronicle_invariant I ->
     forall s b s', I (conn s) (calls s) -> guard s = Some (b, s') ->
                    I (conn s') (calls s')) ->
  grown base (calls s) ->
  execute_with L k guard q s = Some (n, s') ->
  n <> 0%N ->
  sent base q (calls s').
Proof.
  intros Gh Gi Hg H Hn. unfold execute_with in H. unfold bind at 1 in H.
  destruct (guard s) as [[[|] s1]|] eqn:Eg; simpl in H;
    [|inversion H; subst; contradiction|discriminate].
  pose proof (Gi _ (grown_invariant base) _ _ _ Hg Eg) as [new Hnew].
  pose proof (Gh _ _ Eg) as Hh.
  destruct (m_mysql (conn s1)) as [h|] eqn:Hm; [clear Hh|contradiction].
  unfold real_query in H. unfold bind at 1 2, this, native_call in H.
  destruct (mysql_real_query L (m_mysql (conn s1)) q (String.length q)
              (world s1)) as [rc w].
  destruct (nonzero rc); cbn [conn world calls] in H.
  - unfold MYSQL_ERROR_NO_BRAKET, MARIADB_ERROR, bind, ret in H.
    inversion H; subst. contradiction.
  - eapply (chron_execute_loop L (fun _ l => sent base q l)
              (sent_invariant base q) h); [| |exact H].
    + exact Hm.
    + simpl. rewrite Hm, Hnew.
      exists (EvRealQuery (Some h) q :: new), h.
      split; [reflexivity | now left].
Qed.

(** An invariant of the chronicle survives a run of the option loop. *)
Lemma applied_keeps (I : connection -> list event -> Prop) opts s s' :
  chronicle_invariant I ->
  (forall s s', guard s = Some (true, s') -> m_mysql (conn s') <> None) ->
  (forall I, chronicle_invariant I ->
     forall s b s', I (conn s) (calls s) -> guard s = Some (b, s') ->
                    I (conn s') (calls s')) ->
  applied (execute_with L k guard) opts s s' ->
  I (conn s) (calls s) ->
  I (conn s') (calls s').
Proof.
  intros HI Gh Gi Ha. induction Ha as [s|kv rest s s1 s' He Ha IH]; intro Hi.
  - exact Hi.
  - apply IH.
    exact (chron_execute L k I HI guard _ _ _ _ Gh (Gi I HI) Hi He).
Qed.

Lemma applied_sends base opts s s' :
  (forall s s', guard s = Some (true, s') -> m_mysql (conn s') <> None) ->
  (forall I, chronicle_invariant I ->
     forall s b s', I (conn s) (calls s) -> guard s = Some (b, s') ->
                    I (conn s') (calls s')) ->
  applied (execute_with L k guard) opts s s' ->
  grown base (calls s) ->
  forall kv, In kv opts -> sent base (c_str (option_statement kv)) (calls s').
Proof.
  intros Gh Gi Ha.
  induction Ha as [s|kv0 rest s s1 s' He Ha IH]; intros Hg kv Hin.
  - contradiction.
  - destruct Hin as [->|Hin].
    + apply (applied_keeps (fun _ l => sent base _ l) rest s1 s'
               (sent_invariant base _) Gh Gi Ha).
      eapply execute_sends; [exact Gh | exact Gi | exact Hg | exact He |].
      discriminate.
    + apply IH; [|exact Hin].
      exact (chron_execute L k _ (grown_invariant base) guard _ _ _ _
               Gh (Gi _ (grown_invariant base)) Hg He).
Qed.

(** A setup that returns true has come to the option loop in a state
    that every invariant of the chronicle has survived. *)
Lemma connect_setup_reaches s s' :
  keeps same_account guard ->
  (forall s s', guard s = Some (true, s') -> m_mysql (conn s') <> None) ->
  (forall I, chronicle_invariant I ->
     forall s b s', I (conn s) (calls s) -> guard s = Some (b, s') ->
                    I (conn s') (calls s')) ->
  connect_setup L k guard s = Some (true, s') ->
  exists s_opt,
    applied (execute_with L k guard) (options (m_account (conn s))) s_opt s' /\
    forall I, chronicle_invariant I ->
              I (conn s) (calls s) -> I (conn s_opt) (calls s_opt).
Proof.
  intros Ga Gh Gi H. unfold connect_setup in H. unfold bind at 1 2, this in H.
  destruct (set_auto_commit_with L guard _ s) as [[b1 s1]|] eqn:E1;
    [|discriminate].
  destruct b1; simpl in H;
    [|apply error_disconnect_false in H; destruct H; discriminate].
  pose proof (keeps_account_set_auto_commit L guard Ga _ _ _ _ E1) as A1.
  unfold same_account in A1.
  unfold bind at 1 2, this in H.
  destruct (negb (empty (schema_name (m_account (conn s1))))) eqn:Esch.
  - destruct (set_schema_with L guard _ s1) as [[b2 s2]|] eqn:E2;
      [|discriminate].
    destruct b2; simpl in H;
      [|apply error_disconnect_false in H; destruct H; discriminate].
    pose proof (keeps_account_set_schema L guard Ga _ _ _ _ E2) as A2.
    unfold same_account in A2.
    unfold bind, this in H. apply connect_options_applied in H.
    rewrite A2, A1 in H.
    exists s2. split; [exact H|].
    intros I HI Hi.
    eapply (chron_set_schema L I HI guard); [exact Gh | exact (Gi I HI) | | exact E2].
    eapply (chron_set_auto_commit L I HI guard);
      [exact Gh | exact (Gi I HI) | exact Hi | exact E1].
  - unfold ret in H. simpl in H. unfold bind, this in H.
    apply connect_options_applied in H. rewrite A1 in H.
    exists s1. split; [exact H|].
    intros I HI Hi.
    eapply (chron_set_auto_commit L I HI guard);
      [exact Gh | exact (Gi I HI) | exact Hi | exact E1].
Qed.

Lemma connect_body_reaches s s0 s' :
  keeps same_account guard ->
  (forall s s', guard s = Some (true, s') -> m_mysql (conn s') <> None) ->
  (forall I, chronicle_invariant I ->
     forall s b s', I (conn s) (calls s) -> guard s = Some (b, s') ->
                    I (conn s') (calls s')) ->
  connected L s = Some (false, s0) ->
  connect_body L k guard s = Some (true, s') ->
  exists s_opt,
    applied (execute_with L k guard) (options (m_account (conn s))) s_opt s' /\
    forall I, chronicle_invariant I ->
              I (conn s) (calls s) -> I (conn s_opt) (calls s_opt).
Proof.
  intros Ga Gh Gi Hc H. unfold connect_body in H. unfold bind at 1 in H.
  rewrite Hc in H.
  assert (Hconn : conn s0 = conn s).
  { destruct (connected_total L s) as [b [s0' [Hc' E]]].
    rewrite Hc in Hc'. inversion Hc'; subst. exact E. }
  assert (Hi0 : forall I, chronicle_invariant I ->
                  I (conn s) (calls s) -> I (conn s0) (calls s0))
    by (intros I HI Hi; exact (chron_connected L I HI _ _ _ Hi Hc)).
  unfold bind at 1 2, native_call, assign in H.
  destruct (mysql_init L (world s0)) as [[h|] w1]; cbn [conn world calls] in H;
    [|unfold MARIADB_ERROR, bind, ret in H; discriminate].
  unfold connect_handshake in H. unfold bind at 1 2, this in H.
  cbn [conn world calls] in H.
  assert (Hfin : forall s3,
             conn s3 = with_mysql (conn s0) (Some h) ->
             (forall I, chronicle_invariant I ->
                I (conn s) (calls s) -> I (conn s3) (calls s3)) ->
             connect_setup L k guard s3 = Some (true, s') ->
             exists s_opt,
               applied (execute_with L k guard)
                       (options (m_account (conn s))) s_opt s' /\
               forall I, chronicle_invariant I ->
                         I (conn s) (calls s) ->
                         I (conn s_opt) (calls s_opt)).
  { intros s3 E3 Hi3 Hs.
    destruct (connect_setup_reaches s3 s' Ga Gh Gi Hs) as [s_opt [Ha Hi]].
    rewrite E3 in Ha. simpl in Ha. rewrite Hconn in Ha.
    exists s_opt. split; [exact Ha|].
    intros I HI Hstart. apply (Hi I HI). now apply Hi3. }
  destruct (negb (empty (ssl_key (m_account (with_mysql (conn s0) (Some h))))))
    eqn:Ekey.
  - unfold bind at 1 in H. unfold ssl_set, bind at 1, this, native_call,
      ret in H. cbn [conn world calls] in H.
    destruct (mysql_ssl_set L _ _ _ _ _ _ _) as [rc w2].
    destruct (nonzero rc);
      [unfold MYSQL_ERROR_RETURN_FALSE, bind, ret, MYSQL_ERROR_NO_BRAKET,
         MARIADB_ERROR in H; discriminate|].
    unfold bind at 1 in H. unfold real_connect, bind at 1, this,
      native_call in H. cbn [conn world calls] in H.
    destruct (mysql_real_connect L _ _ _ _ _ _ _ _ _) as [[h'|] w3];
      [|unfold MYSQL_ERROR_RETURN_FALSE, bind, ret, MYSQL_ERROR_NO_BRAKET,
          MARIADB_ERROR in H; discriminate].
    refine (Hfin _ _ _ H); [reflexivity|].
    intros I HI Hi. simpl.
    apply (ci_real_connect _ HI); [reflexivity|].
    apply (ci_ssl_set _ HI); [reflexivity | now apply negb_true_iff in Ekey |].
    apply (ci_init _ HI). now apply Hi0.
  - unfold ret in H. unfold bind at 1 in H. unfold real_connect, bind at 1,
      this, native_call in H. cbn [conn world calls] in H.
    destruct (mysql_real_connect L _ _ _ _ _ _ _ _ _) as [[h'|] w3];
      [|unfold MYSQL_ERROR_RETURN_FALSE, bind, ret, MYSQL_ERROR_NO_BRAKET,
          MARIADB_ERROR in H; discriminate].
    refine (Hfin _ _ _ H); [reflexivity|].
    intros I HI Hi. simpl.
    apply (ci_real_connect _ HI); [reflexivity|].
    apply (ci_init _ HI). now apply Hi0.
Qed.

(** What [MYSQL_ERROR_DISCONNECT] leaves, entry by entry. *)
Lemma error_disconnect_exact s :
  exists s',
    MYSQL_ERROR_DISCONNECT L s = Some (false, s') /\
    m_mysql (conn s') = None /\
    m_schema (conn s') = m_schema (conn s) /\
    m_charset (conn s') = m_charset (conn s) /\
    m_auto_commit (conn s') = m_auto_commit (conn s) /\
    world s' = match m_mysql (conn s) with
               | Some h => mysql_thread_end L (mysql_close L h (world s))
               | None => world s
               end /\
    calls s' = match m_mysql (conn s) with
               | Some h =>
                   EvThreadEnd :: EvClose h
                     :: EvReport (mysql_errno L (Some h) (world s))
                                 (mysql_error L (Some h) (world s))
                     :: calls s
               | None =>
                   EvReport (mysql_errno L None (world s))
                            (mysql_error L None (world s))
                     :: calls s
               end.
Proof.
  unfold MYSQL_ERROR_DISCONNECT, MYSQL_ERROR_NO_BRAKET, MARIADB_ERROR,
    disconnect, bind, this, ret, native_do, assign. simpl.
  destruct (m_mysql (conn s)) as [h|] eqn:E; simpl;
    (eexists; split; [reflexivity|]; simpl; auto 10).
Qed.

End OptionTexts.

(** ** Where a [connect] that establishes the session stops *)

Section Stops.

Context {W : Type}.
Variable L : native W.
Variable k : nat.
Variable guard : M W bool.

(** [connect_setup] returns what the option loop returns, unless the
    autocommit or the schema call refused before the loop. *)
Lemma connect_setup_cases s b s' :
  keeps same_account guard ->
  connect_setup L k guard s = Some (b, s') ->
  (exists s_opt,
     connect_options L k guard (options (m_account (conn s))) s_opt
       = Some (b, s')) \/
  (b = false /\
   exists s1 s2,
     set_auto_commit_with L guard (acc_auto_commit (m_account (conn s))) s1
       = Some (false, s2) /\
     MYSQL_ERROR_DISCONNECT L s2 = Some (false, s')) \/
  (b = false /\
   exists s1 s2,
     set_schema_with L guard (c_str (schema_name (m_account (conn s)))) s1
       = Some (false, s2) /\
     MYSQL_ERROR_DISCONNECT L s2 = Some (false, s')).
Proof.
  intros Ga H. unfold connect_setup in H. unfold bind at 1 2, this in H.
  destruct (set_auto_commit_with L guard _ s) as [[b1 s1]|] eqn:E1;
    [|discriminate].
  destruct b1; simpl in H.
  - pose proof (keeps_account_set_auto_commit L guard Ga _ _ _ _ E1) as A1.
    unfold same_account in A1.
    unfold bind at 1 2, this in H.
    destruct (negb (empty (schema_name (m_account (conn s1))))) eqn:Esch.
    + destruct (set_schema_with L guard _ s1) as [[b2 s2]|] eqn:E2;
        [|discriminate].
      destruct b2; simpl in H.
      * pose proof (keeps_account_set_schema L guard Ga _ _ _ _ E2) as A2.
        unfold same_account in A2.
        unfold bind, this in H. rewrite A2, A1 in H.
        left. now exists s2.
      * right. right.
        destruct (error_disconnect_false L _ _ _ H) as [-> _].
        split; [reflexivity|]. exists s1, s2.
        rewrite A1 in E2. now split.
    + unfold ret in H. simpl in H. unfold bind, this in H.
      rewrite A1 in H. left. now exists s1.
  - right. left.
    destruct (error_disconnect_false L _ _ _ H) as [-> _].
    split; [reflexivity|]. exists s, s1. now split.
Qed.

(** [connect], when it has to establish the session, returns what the
    option loop returns, unless it stopped before the loop: on the
    allocation, the TLS setup or the handshake (the handle is then as
    [mysql_init] gave it), or on the autocommit or the schema call. *)
Lemma connect_body_cases s s0 b s' :
  keeps same_account guard ->
  connected L s = Some (false, s0) ->
  connect_body L k guard s = Some (b, s') ->
  (exists s_opt,
     connect_options L k guard (options (m_account (conn s))) s_opt
       = Some (b, s')) \/
  (b = false /\ m_mysql (conn s') = fst (mysql_init L (world s0))) \/
  (b = false /\
   exists s1 s2,
     set_auto_commit_with L guard (acc_auto_commit (m_account (conn s))) s1
       = Some (false, s2) /\
     MYSQL_ERROR_DISCONNECT L s2 = Some (false, s')) \/
  (b = false /\
   exists s1 s2,
     set_schema_with L guard (c_str (schema_name (m_account (conn s)))) s1
       = Some (false, s2) /\
     MYSQL_ERROR_DISCONNECT L s2 = Some (false, s')).
Proof.
  intros Ga Hc H. unfold connect_body in H. unfold bind at 1 in H.
  rewrite Hc in H.
  assert (Hconn : conn s0 = conn s).
  { destruct (connected_total L s) as [b0 [s0' [Hc' E]]].
    rewrite Hc in Hc'. inversion Hc'; subst. exact E. }
  unfold bind at 1 2, native_call, assign in H.
  destruct (mysql_init L (world s0)) as [[h|] w1] eqn:Einit;
    cbn [conn world calls] in H;
    [|unfold MARIADB_ERROR, bind, ret in H; inversion H; subst;
      right; left; split; reflexivity].
  assert (Hfin : forall s3,
             conn s3 = with_mysql (conn s0) (Some h) ->
             connect_setup L k guard s3 = Some (b, s') ->
             (exists s_opt,
                connect_options L k guard (options (m_account (conn s))) s_opt
                  = Some (b, s')) \/
             (b = false /\ m_mysql (conn s') = Some h) \/
             (b = false /\
              exists s1 s2,
                set_auto_commit_with L guard
                  (acc_auto_commit (m_account (conn s))) s1
                  = Some (false, s2) /\
                MYSQL_ERROR_DISCONNECT L s2 = Some (false, s')) \/
             (b = false /\
              exists s1 s2,
                set_schema_with L guard
                  (c_str (schema_name (m_account (conn s)))) s1
                  = Some (false, s2) /\
                MYSQL_ERROR_DISCONNECT L s2 = Some (false, s'))).
  { intros s3 E3 Hs.
    destruct (connect_setup_cases s3 b s' Ga Hs) as [Hx|[Hx|Hx]];
      rewrite E3 in Hx; simpl in Hx; rewrite Hconn in Hx; auto. }
  simpl. unfold connect_handshake in H. unfold bind at 1 2, this in H.
  cbn [conn world calls] in H.
  destruct (negb (empty (ssl_key (m_account (with_mysql (conn s0) (Some h))))))
    eqn:Ekey.
  - unfold bind at 1 in H. unfold ssl_set, bind at 1, this, native_call,
      ret in H. cbn [conn world calls] in H.
    destruct (mysql_ssl_set L _ _ _ _ _ _ _) as [rc w2].
    destruct (nonzero rc);
      [unfold MYSQL_ERROR_RETURN_FALSE, bind, ret, MYSQL_ERROR_NO_BRAKET,
         MARIADB_ERROR in H; inversion H; subst;
       right; left; split; reflexivity|].
    unfold bind at 1 in H. unfold real_connect, bind at 1, this,
      native_call in H. cbn [conn world calls] in H.
    destruct (mysql_real_connect L _ _ _ _ _ _ _ _ _) as [[h'|] w3];
      [|unfold MYSQL_ERROR_RETURN_FALSE, bind, ret, MYSQL_ERROR_NO_BRAKET,
          MARIADB_ERROR in H; inversion H; subst;
        right; left; split; reflexivity].
    refine (Hfin _ _ H). reflexivity.
  - unfold ret in H. unfold bind at 1 in H. unfold real_connect, bind at 1,
      this, native_call in H. cbn [conn world calls] in H.
    destruct (mysql_real_connect L _ _ _ _ _ _ _ _ _) as [[h'|] w3];
      [|unfold MYSQL_ERROR_RETURN_FALSE, bind, ret, MYSQL_ERROR_NO_BRAKET,
          MARIADB_ERROR in H; inversion H; subst;
        right; left; split; reflexivity].
    refine (Hfin _ _ H). reflexivity.
Qed.

End Stops.

(** ** Claim on the session options *)

(** C7, as amended: a [connect()] that establishes the session and
    returns true has run [execute] with result 1 on the statement of
    every entry of the account's options, and for every entry
    [(name, value)] the text [SET OPTION name=value], cut at its first
    NUL byte as [c_str()] hands it over, was given to
    [mysql_real_query] on a session handle during that call.  In the
    loop, the first statement whose [execute] returns anything but 1
    ends it: the error is reported, the handle held at that point is
    given to [mysql_close], [mysql_thread_end] follows, the connection
    holds no handle, [connected()] is false and the loop returns
    false.  And a [connect()] that has to establish the session
    returns what the loop returns, unless it stopped before the loop:
    at the allocation, the TLS setup or the handshake, or because the
    autocommit or the schema call refused. *)
Theorem options_enforced_by_connect :
  forall (W : Type) (L : native W) (k d : nat),
    (forall s s0 s',
        connected L s = Some (false, s0) ->
        connect L k (S d) s = Some (true, s') ->
        exists s_opt new,
          applied (execute L k d) (options (m_account (conn s))) s_opt s' /\
          calls s' = (new ++ calls s)%list /\
          forall name value,
            In (name, value) (options (m_account (conn s))) ->
            exists h,
              In (EvRealQuery (Some h)
                    (c_str ("SET OPTION " ++ name ++ "=" ++ value))) new) /\
    (forall pre name value post s s1 n s2,
        applied (execute L k d) pre s s1 ->
        execute L k d (c_str ("SET OPTION " ++ name ++ "=" ++ value)) s1
          = Some (n, s2) ->
        n <> 1%N ->
        exists s3,
          connect_options L k (connect L k d)
            (pre ++ (name, value) :: post)%list s = Some (false, s3) /\
          m_mysql (conn s3) = None /\
          connected L s3 = Some (false, s3) /\
          world s3 = match m_mysql (conn s2) with
                     | Some h =>
                         mysql_thread_end L (mysql_close L h (world s2))
                     | None => world s2
                     end /\
          calls s3 = match m_mysql (conn s2) with
                     | Some h =>
                         EvThreadEnd :: EvClose h
                           :: EvReport (mysql_errno L (Some h) (world s2))
                                       (mysql_error L (Some h) (world s2))
                           :: calls s2
                     | None =>
                         EvReport (mysql_errno L None (world s2))
                                  (mysql_error L None (world s2))
                           :: calls s2
                     end) /\
    (forall s s0 b s',
        connected L s = Some (false, s0) ->
        connect L k (S d) s = Some (b, s') ->
        (exists s_opt,
           connect_options L k (connect L k d)
             (options (m_account (conn s))) s_opt = Some (b, s')) \/
        (b = false /\ m_mysql (conn s') = fst (mysql_init L (world s0))) \/
        (b = false /\
         exists s1 s2,
           set_auto_commit L k d (acc_auto_commit (m_account (conn s))) s1
             = Some (false, s2) /\
           MYSQL_ERROR_DISCONNECT L s2 = Some (false, s')) \/
        (b = false /\
         exists s1 s2,
           set_schema L k d (c_str (schema_name (m_account (conn s)))) s1
             = Some (false, s2) /\
           MYSQL_ERROR_DISCONNECT L s2 = Some (false, s'))).
Proof.
  intros W L k d.
  assert (Gh : forall s s', connect L k d s = Some (true, s') ->
                            m_mysql (conn s') <> None)
    by apply connect_handle.
  assert (Gi : forall I, chronicle_invariant I ->
                 forall s b s', I (conn s) (calls s) ->
                                connect L k d s = Some (b, s') ->
                                I (conn s') (calls s'))
    by (intros I HI; apply chron_connect; exact HI).
  split; [|split].
  - intros s s0 s' Hc H. simpl in H.
    destruct (connect_body_reaches L k (connect L k d) s s0 s'
                (keeps_account_connect L k d) Gh Gi Hc H) as [s_opt [Ha Hi]].
    assert (Hg0 : grown (calls s) (calls s)) by now exists [].
    pose proof (Hi _ (grown_invariant (calls s)) Hg0) as Hg1.
    pose proof (applied_keeps L k (connect L k d)
                  (fun _ l => grown (calls s) l) _ _ _
                  (grown_invariant (calls s)) Gh Gi Ha Hg1) as [new Hnew].
    exists s_opt, new. split; [exact Ha|]. split; [exact Hnew|].
    intros name value Hin.
    destruct (applied_sends L k (connect L k d) (calls s) _ _ _
                Gh Gi Ha Hg1 (name, value) Hin) as [new' [h [Hcalls Hq]]].
    rewrite Hnew in Hcalls. apply app_inv_tail in Hcalls. subst new'.
    exists h. exact Hq.
  - intros pre name value post s s1 n s2 Ha He Hn.
    destruct (connect_options_refused L k (connect L k d) pre (name, value)
                post s s1 n s2 Ha He Hn) as [s3 [Hrun [Hd _]]].
    destruct (error_disconnect_exact L s2)
      as [s3' [Hd' [Hm [_ [_ [_ [Hw Hl]]]]]]].
    rewrite Hd in Hd'. inversion Hd'; subst s3'.
    exists s3. split; [exact Hrun|]. split; [exact Hm|].
    split; [now apply connected_null|]. split; [exact Hw | exact Hl].
  - intros s s0 b s' Hc H. simpl in H.
    exact (connect_body_cases L k (connect L k d) s s0 b s'
             (keeps_account_connect L k d) Hc H).
Qed.

Lemma options_enforced_by_connect_witness :
  exists s_opt s' new s3,
    connect (Mock.lib (Mock.works Mock.one_row)) 4 2
            (Mock.fresh (Mock.tuned "db1" false [("a", "b"); ("c", "d")])
                        (Mock.idle 8))
      = Some (true, s') /\
    applied (execute (Mock.lib (Mock.works Mock.one_row)) 4 1)
            [("a", "b"); ("c", "d")] s_opt s' /\
    calls s' = (new ++ [])%list /\
    (exists h, In (EvRealQuery (Some h)
                     (c_str ("SET OPTION " ++ "a" ++ "=" ++ "b"))) new) /\
    (exists h, In (EvRealQuery (Some h)
                     (c_str ("SET OPTION " ++ "c" ++ "=" ++ "d"))) new) /\
    connect_options (Mock.lib (Mock.works Mock.echo)) 40
                    (connect (Mock.lib (Mock.works Mock.echo)) 40 1)
                    [("a", "b"); ("c", "d")]
                    (Mock.online Mock.guest 8)
      = Some (false, s3) /\
    m_mysql (conn s3) = None /\
    connected (Mock.lib (Mock.works Mock.echo)) s3 = Some (false, s3).
Proof.
  destruct (options_enforced_by_connect _
              (Mock.lib (Mock.works Mock.one_row)) 4 1) as [Hsent _].
  destruct (options_enforced_by_connect _
              (Mock.lib (Mock.works Mock.echo)) 40 1) as [_ [Hrefused _]].
  destruct (connect (Mock.lib (Mock.works Mock.one_row)) 4 2
              (Mock.fresh (Mock.tuned "db1" false [("a", "b"); ("c", "d")])
                          (Mock.idle 8)))
    as [[b s']|] eqn:E; [|vm_compute in E; discriminate].
  assert (Hb : b = true) by (vm_compute in E; congruence). subst b.
  destruct (Hsent (Mock.fresh (Mock.tuned "db1" false [("a", "b"); ("c", "d")])
                              (Mock.idle 8))
                  (Mock.fresh (Mock.tuned "db1" false [("a", "b"); ("c", "d")])
                              (Mock.idle 8))
                  s' eq_refl E) as [s_opt [new [Ha [Hnew Hq]]]].
  destruct (execute (Mock.lib (Mock.works Mock.echo)) 40 1
              (c_str ("SET OPTION " ++ "a" ++ "=" ++ "b"))
              (Mock.online Mock.guest 8))
    as [[n s2]|] eqn:E2; [|vm_compute in E2; discriminate].
  assert (Hn : n <> 1%N) by (vm_compute in E2; congruence).
  destruct (Hrefused [] "a" "b" [("c", "d")] (Mock.online Mock.guest 8)
              (Mock.online Mock.guest 8) n s2
              (applied_nil _ _) E2 Hn)
    as [s3 [Hrun [Hm [Hc _]]]].
  exists s_opt, s', new, s3.
  split; [reflexivity|]. split; [exact Ha|]. split; [exact Hnew|].
  split; [apply Hq; simpl; now left|].
  split; [apply Hq; simpl; right; now left|].
  split; [exact Hrun|]. split; [exact Hm | exact Hc].
Defined.

(** C7 as stated fails for an option whose value holds a NUL byte:
    [connect()] returns true, the statement sent ends before the NUL,
    and the text [SET OPTION name=value] with the whole value is never
    sent. *)
Lemma connect_cuts_option_at_nul :
  exists s',
    connect (Mock.lib (Mock.works Mock.one_row)) 4 2
            (Mock.fresh (Mock.tuned "" true [("a", Mock.nul_value)])
                        (Mock.idle 8))
      = Some (true, s') /\
    In (EvRealQuery (Some 1%positive) "SET OPTION a=b") (calls s') /\
    forall h,
      ~ In (EvRealQuery h ("SET OPTION " ++ "a" ++ "=" ++ Mock.nul_value))
           (calls s').
Proof.
  eexists. split; [vm_compute; reflexivity|]. split.
  - simpl. tauto.
  - intros h Hin. cbv in Hin.
    repeat (destruct Hin as [Hin|Hin]; [discriminate|]).
    exact Hin.
Qed.

(** An option whose statement affects no row makes [connect()] fail
    and tear the session down. *)
Example connect_refuses_silent_option :
  exists s',
    connect (Mock.lib (Mock.works (fun _ => [Mock.RowCount 0]))) 4 2
            (Mock.fresh (Mock.tuned "" true [("a", "b")]) (Mock.idle 8))
      = Some (false, s') /\
    m_mysql (conn s') = None /\
    calls s' = [EvThreadEnd; EvClose 1%positive; EvReport 1064 "error";
                EvNextResult (Some 1%positive);
                EvAffectedRows (Some 1%positive);
                EvFieldCount (Some 1%positive);
                EvStoreResult (Some 1%positive);
                EvRealQuery (Some 1%positive) "SET OPTION a=b";
                EvStat (Some 1%positive); EvRealConnect (Some 1%positive);
                EvInit].
Proof.
  eexists. split; [vm_compute; reflexivity|]. split; reflexivity.
Qed.
